(** * A shallow embedding of the lock-coupled B+ tree of [btree.h]

    The tree is the class template [Btree<KeyT, ValueT, ComparatorT, kCapacity>].
    Its single-threaded behaviour is embedded here: the mutexes do not
    influence the result of an operation run alone, so [lock_read],
    [lock_write] and the tree-wide mutex are left out of [get] and [put];
    [get_events] and [put_events] add the calls on the mutexes as a trace.

    Conventions of the embedding.
    - [uint16_t] fields ([level], [key_count]) are integers in [Z] with the
      wrap-around modulo 2^16 written out at every store ([u16]); the local
      [int], [uint32_t] and [size_t] variables stay far below their limits
      and are plain [Z].
    - A C array [T a[kCapacity]] is a list of [kCapacity] slots; a slot is
      [None] until something has been stored in it.  An access outside the
      array, the use of a slot that was never written, a [static_cast] to
      the wrong node type: all of these are undefined behaviour in C++ and
      make the embedded operation return [None].
    - Every node is reachable through exactly one pointer (nodes come from
      [new] and are stored once), so the store is a tree: a child pointer
      is embedded as the child itself, and a mutation through a pointer is
      a rebuild of the path to it. *)

From Stdlib Require Import ZArith List Bool Lia.
Import ListNotations.
Local Open Scope Z_scope.

Set Implicit Arguments.

(** ** Undefined behaviour as an error *)

Definition bind {A B : Type} (m : option A) (f : A -> option B) : option B :=
  match m with
  | Some a => f a
  | None => None
  end.

Notation "x <- m ;; f" := (bind m (fun x => f))
  (at level 61, m at next level, right associativity).
Notation "' p <- m ;; f" := (bind m (fun p => f))
  (at level 61, p pattern, m at next level, right associativity).

Definition guard (b : bool) : option unit := if b then Some tt else None.

(** ** Machine integers *)

Definition u16 (z : Z) : Z := z mod 65536.

(** ** Arrays with uninitialised slots *)

Section Arrays.
Context {A : Type}.

(** [slot a i]: the slot [a[i]], with [None] outside the array. *)
Definition slot (a : list (option A)) (i : Z) : option (option A) :=
  if i <? 0 then None else nth_error a (Z.to_nat i).

(** [rd a i]: the value of [a[i]]; the slot has to hold one. *)
Definition rd (a : list (option A)) (i : Z) : option A :=
  s <- slot a i ;; s.

Fixpoint upd (a : list (option A)) (n : nat) (s : option A) : list (option A) :=
  match a, n with
  | [], _ => []
  | _ :: t, O => s :: t
  | h :: t, S n' => h :: upd t n' s
  end.

(** [put_slot a i s]: the assignment [a[i] = ...] of a slot. *)
Definition put_slot (a : list (option A)) (i : Z) (s : option A)
  : option (list (option A)) :=
  if (0 <=? i) && (i <? Z.of_nat (length a))
  then Some (upd a (Z.to_nat i) s) else None.

(** [wr a i x]: the assignment [a[i] = x]. *)
Definition wr (a : list (option A)) (i : Z) (x : A) : option (list (option A)) :=
  put_slot a i (Some x).

(** The loop [for (i = hi; i > lo; i--) a[i] = a[i - 1];]
    with [n] the number of iterations, [hi - lo]. *)
Fixpoint shift_up (n : nat) (i : Z) (a : list (option A))
  : option (list (option A)) :=
  match n with
  | O => Some a
  | S n' =>
      s <- slot a (i - 1) ;;
      a' <- put_slot a i s ;;
      shift_up n' (i - 1) a'
  end.

(** [std::copy(src + from, src + from + count, dst)]. *)
Definition copy_range (src : list (option A)) (from count : Z)
           (dst : list (option A)) : option (list (option A)) :=
  if (0 <=? from) && (0 <=? count)
     && (from + count <=? Z.of_nat (length src))
     && (count <=? Z.of_nat (length dst))
  then Some (firstn (Z.to_nat count) (skipn (Z.to_nat from) src)
               ++ skipn (Z.to_nat count) dst)
  else None.

Definition fresh_array (cap : Z) : list (option A) :=
  repeat None (Z.to_nat cap).

(** What the first [k] slots hold. *)
Fixpoint slots_take (k : nat) (a : list (option A)) : list A :=
  match k, a with
  | S k', Some x :: t => x :: slots_take k' t
  | S k', None :: t => slots_take k' t
  | _, _ => []
  end.
End Arrays.

Section Btree.
Context {KeyT ValueT : Type}.
(** [ComparatorT{}(a, b)] *)
Variable comparator : KeyT -> KeyT -> bool.
Variable kCapacity : Z.

(** ** Nodes

    [Leaf] and [Inner] are the dynamic types [LeafNode] and [InnerNode];
    both carry the fields [level] and [key_count] of the base [Node]. *)
Local Unset Elimination Schemes.
Inductive Node : Type :=
| Leaf (level key_count : Z)
       (keys : list (option KeyT)) (values : list (option ValueT))
| Inner (level key_count : Z)
        (keys : list (option KeyT)) (children : list (option Node)).
Local Set Elimination Schemes.

Definition level (n : Node) : Z :=
  match n with Leaf l _ _ _ => l | Inner l _ _ _ => l end.

Definition key_count (n : Node) : Z :=
  match n with Leaf _ c _ _ => c | Inner _ c _ _ => c end.

Definition is_leaf (n : Node) : bool := level n =? 0.

(** [new LeafNode()] and [new InnerNode()] *)
Definition new_LeafNode : Node :=
  Leaf 0 0 (fresh_array kCapacity) (fresh_array kCapacity).
Definition new_InnerNode : Node :=
  Inner 1 0 (fresh_array kCapacity) (fresh_array kCapacity).

(** The binary search loop shared by both [lower_bound]s:
    [while (left <= right) { mid = (left + right) >> 1; ... }]. *)
Fixpoint bsearch (fuel : nat) (keys : list (option KeyT)) (key : KeyT)
         (left right index_found : Z) : option Z :=
  if left <=? right then
    match fuel with
    | O => None
    | S fuel' =>
        let mid := Z.shiftr (left + right) 1 in
        km <- rd keys mid ;;
        if comparator km key
        then bsearch fuel' keys key (mid + 1) right index_found
        else bsearch fuel' keys key left (mid - 1) mid
    end
  else Some index_found.

(** [InnerNode::lower_bound] *)
Definition inner_lower_bound (key_count : Z) (keys : list (option KeyT))
           (key : KeyT) : option (Z * bool) :=
  if key_count =? 0 then Some (0, false)
  else
    index_found <- bsearch (Z.to_nat key_count) keys key 0 (key_count - 2) (-1) ;;
    if index_found =? -1 then Some (key_count - 1, false)
    else Some (index_found, true).

(** [LeafNode::lower_bound] *)
Definition leaf_lower_bound (key_count : Z) (keys : list (option KeyT))
           (key : KeyT) : option (Z * bool) :=
  if key_count =? 0 then Some (0, false)
  else
    index_found <- bsearch (Z.to_nat key_count) keys key 0 (key_count - 1) key_count ;;
    if index_found <? key_count then
      kf <- rd keys index_found ;;
      Some (index_found, negb (comparator kf key) && negb (comparator key kf))
    else Some (index_found, false).

(** [LeafNode::insert]; the node has to be a [LeafNode]. *)
Definition leaf_insert (n : Node) (key : KeyT) (value : ValueT) : option Node :=
  match n with
  | Leaf lv kc keys values =>
      '(index, found) <- leaf_lower_bound kc keys key ;;
      if (found : bool) then
        values' <- wr values index value ;;
        Some (Leaf lv kc keys values')
      else
        keys1 <- shift_up (Z.to_nat (kc - index)) kc keys ;;
        values1 <- shift_up (Z.to_nat (kc - index)) kc values ;;
        keys2 <- wr keys1 index key ;;
        values2 <- wr values1 index value ;;
        Some (Leaf lv (u16 (kc + 1)) keys2 values2)
  | Inner _ _ _ _ => None
  end.

(** [LeafNode::split]: the node, its right neighbour and the separator.
    [right_neighbor] has to be a [LeafNode] too. *)
Definition leaf_split (n right_neighbor : Node) : option (Node * Node * KeyT) :=
  match n, right_neighbor with
  | Leaf lv kc keys values, Leaf rlv _ rkeys rvalues =>
      let mid_key_index := Z.quot kc 2 in
      let left_count := mid_key_index + 1 in
      let right_count := kc - left_count in
      rkeys' <- copy_range keys (mid_key_index + 1) right_count rkeys ;;
      rvalues' <- copy_range values (mid_key_index + 1) right_count rvalues ;;
      sep <- rd keys mid_key_index ;;
      Some (Leaf lv (u16 left_count) keys values,
            Leaf rlv (u16 right_count) rkeys' rvalues', sep)
  | _, _ => None
  end.

(** [InnerNode::insert_split] *)
Definition insert_split (n : Node) (key : KeyT) (split_child : Node) : option Node :=
  match n with
  | Inner lv kc keys children =>
      '(index, _) <- inner_lower_bound kc keys key ;;
      _ <- guard (1 <=? kc) ;;
      keys1 <- shift_up (Z.to_nat (kc - 1 - index)) (kc - 1) keys ;;
      children1 <- shift_up (Z.to_nat (kc - 1 - index)) kc children ;;
      keys2 <- wr keys1 index key ;;
      children2 <- wr children1 (index + 1) split_child ;;
      Some (Inner lv (u16 (kc + 1)) keys2 children2)
  | Leaf _ _ _ _ => None
  end.

(** [InnerNode::split] *)
Definition inner_split (n right_neighbor : Node) : option (Node * Node * KeyT) :=
  match n, right_neighbor with
  | Inner lv kc keys children, Inner rlv _ rkeys rchildren =>
      let mid_key_index := Z.quot (kc - 1) 2 in
      let left_count := mid_key_index + 1 in
      let right_count := kc - left_count in
      rkeys' <- copy_range keys (mid_key_index + 1) right_count rkeys ;;
      rchildren' <- copy_range children (mid_key_index + 1) right_count rchildren ;;
      sep <- rd keys mid_key_index ;;
      Some (Inner lv (u16 left_count) keys children,
            Inner rlv (u16 right_count) rkeys' rchildren', sep)
  | _, _ => None
  end.

(** The number of edges on the longest path below a node: no descent
    takes more steps, whatever the [level] fields say. *)
Fixpoint height (n : Node) : nat :=
  match n with
  | Leaf _ _ _ _ => O
  | Inner _ _ _ children =>
      S (fold_right
           (fun c acc => match c with
                         | Some c' => Nat.max (height c') acc
                         | None => acc
                         end) O children)
  end.

Definition set_level (n : Node) (lv : Z) : Node :=
  match n with
  | Leaf _ kc keys values => Leaf lv kc keys values
  | Inner _ kc keys children => Inner lv kc keys children
  end.

(** [n->children[pos]] now points to [child]. *)
Definition set_child (n : Node) (pos : Z) (child : Node) : option Node :=
  match n with
  | Inner lv kc keys children =>
      children' <- wr children pos child ;;
      Some (Inner lv kc keys children')
  | Leaf _ _ _ _ => None
  end.

(** The tree: its [root] pointer, [None] for [nullptr]. *)
Definition Btree : Type := option Node.

(** [Btree()] *)
Definition new_Btree : Btree := None.

(** ** [Btree::get]

    The result is [Some None] for [std::nullopt] and [Some (Some v)] for a
    value; the outer [None] is undefined behaviour. *)
Fixpoint get_loop (fuel : nat) (current_node : Node) (key : KeyT)
  : option (option ValueT) :=
  if is_leaf current_node then
    match current_node with
    | Leaf _ kc keys values =>
        '(pos, found) <- leaf_lower_bound kc keys key ;;
        if (found : bool) then
          res <- rd values pos ;;
          Some (Some res)
        else Some None
    | Inner _ _ _ _ => None
    end
  else
    match fuel, current_node with
    | S fuel', Inner _ kc keys children =>
        '(pos, _) <- inner_lower_bound kc keys key ;;
        child_node <- rd children pos ;;
        get_loop fuel' child_node key
    | _, _ => None
    end.

Definition get (root : Btree) (key : KeyT) : option (option ValueT) :=
  match root with
  | None => Some None
  | Some r => get_loop (height r) r key
  end.

(** [get] with the calls of [lock_read] and [unlock_read] it makes, in
    order; a node is named by its level. *)
Inductive lock_event : Type :=
| LockRead (level : Z)
| UnlockRead (level : Z).

Fixpoint get_loop_events (fuel : nat) (current_node : Node) (key : KeyT)
  : option (list lock_event * option ValueT) :=
  if is_leaf current_node then
    match current_node with
    | Leaf lv kc keys values =>
        '(pos, found) <- leaf_lower_bound kc keys key ;;
        if (found : bool) then
          res <- rd values pos ;;
          Some ([UnlockRead lv], Some res)
        else Some ([UnlockRead lv], None)
    | Inner _ _ _ _ => None
    end
  else
    match fuel, current_node with
    | S fuel', Inner lv kc keys children =>
        '(pos, _) <- inner_lower_bound kc keys key ;;
        child_node <- rd children pos ;;
        '(events, res) <- get_loop_events fuel' child_node key ;;
        Some (LockRead (level child_node) :: UnlockRead lv :: events, res)
    | _, _ => None
    end.

Definition get_events (root : Btree) (key : KeyT)
  : option (list lock_event * option ValueT) :=
  match root with
  | None => Some ([], None)
  | Some r =>
      '(events, res) <- get_loop_events (height r) r key ;;
      Some (LockRead (level r) :: events, res)
  end.

(** The leaf in which the descent of [get] for [key] ends. *)
Fixpoint find_leaf (fuel : nat) (current_node : Node) (key : KeyT)
  : option Node :=
  if is_leaf current_node then
    match current_node with
    | Leaf _ _ _ _ => Some current_node
    | Inner _ _ _ _ => None
    end
  else
    match fuel, current_node with
    | S fuel', Inner _ kc keys children =>
        '(pos, _) <- inner_lower_bound kc keys key ;;
        child_node <- rd children pos ;;
        find_leaf fuel' child_node key
    | _, _ => None
    end.

Definition leaf_of (root : Btree) (key : KeyT) : option Node :=
  match root with
  | None => None
  | Some r => find_leaf (height r) r key
  end.

(** ** [Btree::put] *)

(** The lock-coupling loop [while (true) { ... }] of [put], started at the
    inner node [current_node]; the result is that node after the call. *)
Fixpoint put_loop (fuel : nat) (current_node : Node) (key : KeyT)
         (value : ValueT) : option Node :=
  match fuel, current_node with
  | S fuel', Inner lv kc keys children =>
      '(pos, _) <- inner_lower_bound kc keys key ;;
      child_node <- rd children pos ;;
      if lv =? 1 then
        match child_node with
        | Leaf _ ckc _ _ =>
            if kCapacity <=? ckc then
              '(child_node_leaf, right_neighbor_node, separator_key)
                <- leaf_split child_node new_LeafNode ;;
              if comparator separator_key key then
                right' <- leaf_insert right_neighbor_node key value ;;
                cur <- set_child current_node pos child_node_leaf ;;
                insert_split cur separator_key right'
              else
                left' <- leaf_insert child_node_leaf key value ;;
                cur <- set_child current_node pos left' ;;
                insert_split cur separator_key right_neighbor_node
            else
              child' <- leaf_insert child_node key value ;;
              set_child current_node pos child'
        | Inner _ _ _ _ => None
        end
      else
        match child_node with
        | Inner clv ckc _ _ =>
            if kCapacity <=? ckc then
              '(child_node_inner, right0, separator_key)
                <- inner_split child_node new_InnerNode ;;
              let right_neighbor_node :=
                set_level right0 (level child_node_inner) in
              if comparator separator_key key then
                right' <- put_loop fuel' right_neighbor_node key value ;;
                cur <- set_child current_node pos child_node_inner ;;
                insert_split cur separator_key right'
              else
                left' <- put_loop fuel' child_node_inner key value ;;
                cur <- set_child current_node pos left' ;;
                insert_split cur separator_key right_neighbor_node
            else
              child' <- put_loop fuel' child_node key value ;;
              set_child current_node pos child'
        | Leaf _ _ _ _ => None
        end
  | _, _ => None
  end.

(** The new root built at a root split: [level] and [key_count] are
    assigned, [children[0]] is the old root, then [insert_split]. *)
Definition make_root (lv : Z) (old_root : Node) (separator_key : KeyT)
           (right_neighbor_node : Node) : option Node :=
  match new_InnerNode with
  | Inner _ _ keys children =>
      children' <- wr children 0 old_root ;;
      insert_split (Inner (u16 lv) 1 keys children')
                   separator_key right_neighbor_node
  | Leaf _ _ _ _ => None
  end.

Definition put (root : Btree) (key : KeyT) (value : ValueT) : option Btree :=
  match root with
  | None =>
      leaf <- leaf_insert new_LeafNode key value ;;
      Some (Some leaf)
  | Some r =>
      if is_leaf r then
        match r with
        | Leaf _ kc _ _ =>
            if kCapacity <=? kc then
              '(leafNode, right_neighbor_node, separator_key)
                <- leaf_split r new_LeafNode ;;
              if comparator separator_key key then
                right' <- leaf_insert right_neighbor_node key value ;;
                new_root <- make_root 1 leafNode separator_key right' ;;
                Some (Some new_root)
              else
                left' <- leaf_insert leafNode key value ;;
                new_root <- make_root 1 left' separator_key right_neighbor_node ;;
                Some (Some new_root)
            else
              leaf' <- leaf_insert r key value ;;
              Some (Some leaf')
        | Inner _ _ _ _ => None
        end
      else
        match r with
        | Inner lv kc _ _ =>
            if kCapacity <=? kc then
              '(innerNode, right0, separator_key)
                <- inner_split r new_InnerNode ;;
              let right_neighbor_node := set_level right0 (level innerNode) in
              if comparator separator_key key then
                right' <- put_loop (S (height r)) right_neighbor_node key value ;;
                new_root <- make_root (level innerNode + 1) innerNode
                                      separator_key right' ;;
                Some (Some new_root)
              else
                left' <- put_loop (S (height r)) innerNode key value ;;
                new_root <- make_root (level innerNode + 1) left'
                                      separator_key right_neighbor_node ;;
                Some (Some new_root)
            else
              r' <- put_loop (S (height r)) r key value ;;
              Some (Some r')
        | Leaf _ _ _ _ => None
        end
  end.

(** A run of [put]s from a tree. *)
Fixpoint put_all (t : Btree) (ops : list (KeyT * ValueT)) : option Btree :=
  match ops with
  | [] => Some t
  | (k, v) :: ops' => t' <- put t k v ;; put_all t' ops'
  end.

(** ** Observing a tree *)

Definition is_LeafNode (n : Node) : bool :=
  match n with Leaf _ _ _ _ => true | Inner _ _ _ _ => false end.

Definition keys_of (n : Node) : list (option KeyT) :=
  match n with Leaf _ _ keys _ => keys | Inner _ _ keys _ => keys end.

(** The children of a node: the first [key_count] slots of [children]. *)
Definition children_of (n : Node) : list Node :=
  match n with
  | Leaf _ _ _ _ => []
  | Inner _ kc _ children => slots_take (Z.to_nat kc) children
  end.

(** [in_tree m n]: the node [m] is [n] or lies below it. *)
Inductive in_tree (m : Node) : Node -> Prop :=
| in_tree_self : in_tree m m
| in_tree_child n c : In c (children_of n) -> in_tree m c -> in_tree m n.

(** The entries of the leaves below a node, from left to right. *)
Fixpoint entries (n : Node) : list (KeyT * ValueT) :=
  match n with
  | Leaf _ kc keys values =>
      combine (slots_take (Z.to_nat kc) keys) (slots_take (Z.to_nat kc) values)
  | Inner _ kc _ children =>
      (fix below (k : nat) (a : list (option Node)) {struct a}
         : list (KeyT * ValueT) :=
         match k, a with
         | S k', Some c :: t => entries c ++ below k' t
         | S k', None :: t => below k' t
         | _, _ => []
         end) (Z.to_nat kc) children
  end.

Definition tree_entries (t : Btree) : list (KeyT * ValueT) :=
  match t with
  | None => []
  | Some r => entries r
  end.

(** A single-threaded run of calls of the two public operations. *)
Inductive op : Type :=
| Get (k : KeyT)
| Put (k : KeyT) (v : ValueT).

Fixpoint run (t : Btree) (ops : list op) : option Btree :=
  match ops with
  | [] => Some t
  | Get k :: ops' => _ <- get t k ;; run t ops'
  | Put k v :: ops' => t' <- put t k v ;; run t' ops'
  end.

End Btree.

(** * Properties of the array operations *)

Unset Implicit Arguments.

Section ArrayFacts.
Context {A : Type}.
Implicit Types (a p m r : list (option A)) (s : option A).

Lemma nth_error_mid p x r : nth_error (p ++ x :: r) (length p) = Some x.
Proof. induction p; simpl; auto. Qed.

Lemma upd_mid p x r s : upd (p ++ x :: r) (length p) s = p ++ s :: r.
Proof. induction p; simpl; congruence. Qed.

Lemma upd_length a n s : length (upd a n s) = length a.
Proof.
  revert n; induction a as [|h t IH]; intros [|n]; simpl; auto.
Qed.

Lemma slot_mid p x r i :
  i = Z.of_nat (length p) -> slot (p ++ x :: r) i = Some x.
Proof.
  intros ->. unfold slot.
  destruct (Z.ltb_spec (Z.of_nat (length p)) 0); [lia|].
  rewrite Nat2Z.id. apply nth_error_mid.
Qed.

Lemma put_slot_mid p x r s i :
  i = Z.of_nat (length p) -> put_slot (p ++ x :: r) i s = Some (p ++ s :: r).
Proof.
  intros ->. unfold put_slot.
  rewrite length_app; simpl.
  destruct (Z.leb_spec 0 (Z.of_nat (length p))); [|lia].
  destruct (Z.ltb_spec (Z.of_nat (length p)) (Z.of_nat (length p + S (length r))));
    [|lia].
  simpl. rewrite Nat2Z.id, upd_mid. reflexivity.
Qed.

Lemma put_slot_length a i s a' :
  put_slot a i s = Some a' -> length a' = length a.
Proof.
  unfold put_slot. destruct (_ && _); [|discriminate].
  intros [= <-]. apply upd_length.
Qed.

Lemma put_slot_end a i s :
  Z.of_nat (length a) <= i -> put_slot a i s = None.
Proof.
  intros H. unfold put_slot.
  destruct (Z.ltb_spec i (Z.of_nat (length a))); [lia|].
  now rewrite andb_false_r.
Qed.

(** The shifting loop moves the block [m] one slot up; the slot at its
    old start keeps its content. *)
Lemma shift_up_spec p m : forall s r i,
  i = Z.of_nat (length p + length m) ->
  shift_up (length m) i (p ++ m ++ s :: r) = Some (p ++ hd s m :: m ++ r).
Proof.
  induction m as [|z m' IH] using rev_ind; intros s r i Hi.
  - reflexivity.
  - rewrite length_app in *. simpl length in *.
    replace (length m' + 1)%nat with (S (length m')) by lia.
    simpl shift_up.
    assert (E : p ++ (m' ++ [z]) ++ s :: r = (p ++ m') ++ z :: s :: r)
      by (rewrite <- !app_assoc; reflexivity).
    rewrite E, slot_mid by (rewrite length_app; lia).
    cbn [bind].
    replace ((p ++ m') ++ z :: s :: r) with ((p ++ m' ++ [z]) ++ s :: r)
      by (rewrite <- !app_assoc; reflexivity).
    rewrite put_slot_mid by (rewrite !length_app; simpl; lia).
    cbn [bind].
    replace ((p ++ m' ++ [z]) ++ z :: r) with (p ++ m' ++ z :: z :: r)
      by (rewrite <- !app_assoc; reflexivity).
    rewrite IH by lia.
    f_equal. f_equal.
    rewrite <- app_assoc. simpl.
    destruct m'; reflexivity.
Qed.

(** Opening a gap in front of [m] and filling it with [x]. *)
Lemma shift_up_wr p m s r i j n x :
  i = Z.of_nat (length p + length m) ->
  j = Z.of_nat (length p) ->
  n = length m ->
  (a' <- shift_up n i (p ++ m ++ s :: r) ;; wr a' j x)
  = Some (p ++ Some x :: m ++ r).
Proof.
  intros Hi Hj ->. rewrite shift_up_spec by assumption.
  cbn [bind]. unfold wr. apply put_slot_mid; assumption.
Qed.

Lemma shift_up_length n : forall i a a',
  shift_up n i a = Some a' -> length a' = length a.
Proof.
  induction n as [|n IH]; simpl; intros i a a' H.
  - congruence.
  - destruct (slot a (i - 1)); simpl in H; [|discriminate].
    destruct (put_slot a i o) eqn:E; simpl in H; [|discriminate].
    rewrite (IH _ _ _ H). eapply put_slot_length; eauto.
Qed.

Lemma fresh_array_length cap :
  length (fresh_array (A:=A) cap) = Z.to_nat cap.
Proof. apply repeat_length. Qed.

Lemma copy_range_spec p m r dst from count :
  from = Z.of_nat (length p) ->
  count = Z.of_nat (length m) ->
  (length m <= length dst)%nat ->
  copy_range (p ++ m ++ r) from count dst
  = Some (m ++ skipn (length m) dst).
Proof.
  intros -> -> Hd. unfold copy_range.
  rewrite !length_app.
  repeat match goal with
  | |- context [?x <=? ?y] => destruct (Z.leb_spec x y); [|lia]
  end.
  simpl. rewrite !Nat2Z.id.
  rewrite skipn_app, skipn_all, Nat.sub_diag. simpl.
  rewrite firstn_app, firstn_all, Nat.sub_diag. simpl.
  rewrite app_nil_r. reflexivity.
Qed.

Lemma rd_mid p (x : A) r i :
  i = Z.of_nat (length p) -> rd (p ++ Some x :: r) i = Some x.
Proof. intros H. unfold rd. rewrite slot_mid by assumption. reflexivity. Qed.

(** An array whose first slots hold the values [l]. *)
Definition arr (l : list A) (rest : list (option A)) : list (option A) :=
  map Some l ++ rest.

Lemma arr_app (l1 l2 : list A) rest :
  arr (l1 ++ l2) rest = map Some l1 ++ map Some l2 ++ rest.
Proof. unfold arr. now rewrite map_app, <- app_assoc. Qed.

Lemma arr_length (l : list A) rest :
  length (arr l rest) = (length l + length rest)%nat.
Proof. unfold arr. now rewrite length_app, length_map. Qed.

Lemma slots_take_arr (l : list A) rest :
  slots_take (length l) (arr l rest) = l.
Proof.
  unfold arr. induction l as [|x l IH]; simpl.
  - destruct rest as [|[y|] rest]; reflexivity.
  - now rewrite IH.
Qed.

Lemma slots_take_arr_n (l : list A) rest n :
  n = length l -> slots_take n (arr l rest) = l.
Proof. intros ->. apply slots_take_arr. Qed.

(** Reading the [i]-th slot of an initialised prefix. *)
Lemma rd_arr (l : list A) r i j x :
  nth_error l i = Some x -> j = Z.of_nat i ->
  rd (arr l r) j = Some x.
Proof.
  intros H ->. apply nth_error_split in H as (l1 & l2 & -> & <-).
  rewrite arr_app. simpl.
  apply rd_mid. now rewrite length_map.
Qed.

Lemma split_at (l : list A) i :
  (i <= length l)%nat ->
  l = firstn i l ++ skipn i l /\ length (firstn i l) = i.
Proof.
  intros H. split; [symmetry; apply firstn_skipn|].
  rewrite length_firstn. lia.
Qed.

(** [a[i] = x] inside the initialised prefix. *)
Lemma wr_arr (l : list A) rest i j y x :
  nth_error l i = Some y -> j = Z.of_nat i ->
  wr (arr l rest) j x = Some (arr (firstn i l ++ x :: skipn (S i) l) rest).
Proof.
  intros H ->. apply nth_error_split in H as (l1 & l2 & -> & <-).
  rewrite firstn_app, firstn_all, Nat.sub_diag. simpl firstn.
  rewrite app_nil_r, skipn_app.
  replace (skipn (S (length l1)) l1) with (@nil A)
    by (symmetry; apply skipn_all2; lia).
  replace (S (length l1) - length l1)%nat with 1%nat by lia.
  simpl skipn. simpl app.
  rewrite !arr_app. simpl map. simpl app. unfold wr.
  apply put_slot_mid. now rewrite length_map.
Qed.

(** The array after the shifting loop has opened a gap at index [i]. *)
Definition gap (l : list A) (i : nat) (s : option A) (r : list (option A))
  : list (option A) :=
  map Some (firstn i l) ++ hd s (map Some (skipn i l)) :: map Some (skipn i l) ++ r.

Lemma shift_gap (l : list A) s r i hi n :
  (i <= length l)%nat ->
  hi = Z.of_nat (length l) -> n = (length l - i)%nat ->
  shift_up n hi (arr l (s :: r)) = Some (gap l i s r).
Proof.
  intros Hi -> ->.
  destruct (split_at l i Hi) as [E Hlen].
  rewrite E at 3. rewrite arr_app.
  replace (length l - i)%nat with (length (map Some (skipn i l)))
    by (rewrite length_map, length_skipn; reflexivity).
  apply shift_up_spec.
  rewrite !length_map, length_skipn, length_firstn. lia.
Qed.

Lemma wr_gap (l : list A) s r i j x :
  (i <= length l)%nat -> j = Z.of_nat i ->
  wr (gap l i s r) j x = Some (arr (firstn i l ++ x :: skipn i l) r).
Proof.
  intros Hi ->. unfold gap, wr. rewrite arr_app. simpl.
  apply put_slot_mid. rewrite length_map, length_firstn. lia.
Qed.

Lemma nth_error_decomp (l : list A) i x :
  nth_error l i = Some x -> l = firstn i l ++ x :: skipn (S i) l.
Proof.
  intros H. apply nth_error_split in H as (l1 & l2 & -> & <-).
  rewrite firstn_app, firstn_all, Nat.sub_diag. simpl firstn.
  rewrite app_nil_r, skipn_app.
  replace (skipn (S (length l1)) l1) with (@nil A)
    by (symmetry; apply skipn_all2; lia).
  replace (S (length l1) - length l1)%nat with 1%nat by lia.
  reflexivity.
Qed.
End ArrayFacts.

(** * The comparator as a strict total order *)

From Stdlib Require Import Sorted.

Section Order.
Context {KeyT : Type}.
Variable comparator : KeyT -> KeyT -> bool.

Definition ltk (a b : KeyT) : Prop := comparator a b = true.

(** What §6 of the design asks of the comparator. *)
Record strict_total_order : Prop := {
  lt_irrefl : forall a, comparator a a = false;
  lt_trans : forall a b c,
    comparator a b = true -> comparator b c = true -> comparator a c = true;
  lt_total : forall a b,
    comparator a b = false -> comparator b a = false -> a = b
}.

Definition sorted (l : list KeyT) : Prop := StronglySorted ltk l.

(** The number of leading keys less than [key]: on a sorted list, the
    index of the first key that is not less than [key]. *)
Fixpoint lb (l : list KeyT) (key : KeyT) : nat :=
  match l with
  | [] => O
  | x :: t => if comparator x key then S (lb t key) else O
  end.

Hypothesis STO : strict_total_order.

Lemma lt_asym a b : comparator a b = true -> comparator b a = false.
Proof.
  intros H. destruct (comparator b a) eqn:E; auto.
  rewrite <- (lt_irrefl STO a). symmetry. eapply lt_trans; eauto.
Qed.

Lemma le_lt_trans a b c :
  comparator b a = false -> comparator b c = true -> comparator a c = true.
Proof.
  intros H1 H2. destruct (comparator a b) eqn:E.
  - eapply lt_trans; eauto.
  - rewrite (lt_total STO _ _ E H1). assumption.
Qed.

Lemma lt_le_trans a b c :
  comparator a b = true -> comparator c b = false -> comparator a c = true.
Proof.
  intros H1 H2. destruct (comparator b c) eqn:E.
  - eapply lt_trans; eauto.
  - rewrite <- (lt_total STO _ _ E H2). assumption.
Qed.

Lemma le_trans a b c :
  comparator b a = false -> comparator c b = false -> comparator c a = false.
Proof.
  intros H1 H2. destruct (comparator c a) eqn:E; auto.
  rewrite <- H2. symmetry. eapply lt_le_trans; eauto.
Qed.

Lemma lb_le_length l key : (lb l key <= length l)%nat.
Proof. induction l; simpl; [lia|]. destruct (comparator _ _); lia. Qed.

Lemma lb_below l key : forall i x,
  (i < lb l key)%nat -> nth_error l i = Some x -> comparator x key = true.
Proof.
  induction l as [|y t IH]; simpl; intros i x Hi Hx; [lia|].
  destruct (comparator y key) eqn:E; [|lia].
  destruct i; simpl in Hx; [congruence|].
  apply IH with i; [lia|assumption].
Qed.

Lemma sorted_nth l : sorted l -> forall i j x y,
  (i < j)%nat -> nth_error l i = Some x -> nth_error l j = Some y ->
  comparator x y = true.
Proof.
  induction 1 as [|a l Hs IH Hall]; intros i j x y Hij Hx Hy.
  - destruct i; discriminate.
  - destruct j; [lia|]. simpl in Hy.
    destruct i; simpl in Hx.
    + injection Hx as <-. rewrite Forall_forall in Hall.
      apply Hall. eapply nth_error_In; eauto.
    + apply IH with i j; auto. lia.
Qed.

Lemma lb_above l key : sorted l -> forall i x,
  (lb l key <= i)%nat -> nth_error l i = Some x -> comparator x key = false.
Proof.
  induction 1 as [|a l Hs IH Hall]; intros i x Hi Hx.
  - destruct i; discriminate.
  - simpl in Hi. destruct (comparator a key) eqn:E.
    + destruct i; [lia|]. simpl in Hx. apply IH with i; [lia|assumption].
    + destruct i; simpl in Hx; [congruence|].
      rewrite Forall_forall in Hall.
      assert (comparator a x = true) by (apply Hall; eapply nth_error_In; eauto).
      destruct (comparator x key) eqn:E'; auto.
      rewrite <- E. symmetry. eapply lt_trans; eauto.
Qed.

(** The binary search of both [lower_bound]s returns [lb]: the loop
    keeps [left <= lb <= right + 1], and [index_found] is [right + 1]
    unless nothing was found yet. *)
Lemma bsearch_spec l rest key dflt : sorted l ->
  forall fuel left right idx,
    0 <= left <= right + 1 ->
    right < Z.of_nat (length l) ->
    right - left + 1 <= Z.of_nat fuel ->
    left <= Z.of_nat (lb l key) <= right + 1 ->
    idx = (if right + 1 <? Z.of_nat (length l) then right + 1 else dflt) ->
    bsearch comparator fuel (arr l rest) key left right idx
    = Some (if Z.of_nat (lb l key) <? Z.of_nat (length l)
            then Z.of_nat (lb l key) else dflt).
Proof.
  intros Hs. induction fuel as [|fuel IH]; intros left right idx H0 Hr Hf Hlb Hidx.
  - simpl. destruct (Z.leb_spec left right); [lia|].
    assert (Z.of_nat (lb l key) = right + 1) as -> by lia.
    now subst idx.
  - simpl. destruct (Z.leb_spec left right) as [Hle|Hgt].
    + rewrite Z.shiftr_div_pow2 by lia. change (2 ^ 1) with 2.
      set (mid := (left + right) / 2).
      assert (Hmid : left <= mid <= right).
      { unfold mid. split.
        - apply Z.div_le_lower_bound; lia.
        - apply Z.div_le_upper_bound; lia. }
      destruct (nth_error l (Z.to_nat mid)) as [km|] eqn:Ekm.
      2:{ apply nth_error_None in Ekm. lia. }
              rewrite (rd_arr l rest _ mid km Ekm) by lia. cbn [bind].
      destruct (comparator km key) eqn:Ec.
      * apply IH; try lia.
        destruct (Nat.le_gt_cases (lb l key) (Z.to_nat mid)) as [Hc|Hc]; [|lia].
        rewrite (lb_above l key Hs _ _ Hc Ekm) in Ec. discriminate.
      * apply IH; try lia.
        -- destruct (Nat.le_gt_cases (lb l key) (Z.to_nat mid)) as [Hc|Hc]; [lia|].
           rewrite (lb_below l key _ _ Hc Ekm) in Ec. discriminate.
        -- replace (mid - 1 + 1) with mid by lia.
           destruct (Z.ltb_spec mid (Z.of_nat (length l))); [reflexivity|lia].
    + assert (Z.of_nat (lb l key) = right + 1) as -> by lia.
      now subst idx.
Qed.

Lemma inner_lower_bound_spec l rest key kc :
  sorted l -> kc = Z.of_nat (length l) + 1 ->
  exists b, inner_lower_bound comparator kc (arr l rest) key
            = Some (Z.of_nat (lb l key), b).
Proof.
  intros Hs ->. unfold inner_lower_bound.
  destruct (Z.eqb_spec (Z.of_nat (length l) + 1) 0); [lia|].
  pose proof (lb_le_length l key).
  rewrite (bsearch_spec l rest key (-1) Hs); try lia.
  - cbn [bind].
    destruct (Z.ltb_spec (Z.of_nat (lb l key)) (Z.of_nat (length l))).
    + destruct (Z.eqb_spec (Z.of_nat (lb l key)) (-1)); [lia|]. eauto.
    + simpl. exists false. repeat f_equal. lia.
  - replace (Z.of_nat (length l) + 1 - 2 + 1) with (Z.of_nat (length l)) by lia.
    rewrite Z.ltb_irrefl. reflexivity.
Qed.

Lemma inner_lower_bound_exact l rest key kc :
  sorted l -> kc = Z.of_nat (length l) + 1 ->
  inner_lower_bound comparator kc (arr l rest) key
  = Some (Z.of_nat (lb l key), (lb l key <? length l)%nat).
Proof.
  intros Hs ->. unfold inner_lower_bound.
  destruct (Z.eqb_spec (Z.of_nat (length l) + 1) 0); [lia|].
  pose proof (lb_le_length l key).
  rewrite (bsearch_spec l rest key (-1) Hs); try lia.
  - cbn [bind].
    destruct (Nat.ltb_spec (lb l key) (length l)).
    + destruct (Z.ltb_spec (Z.of_nat (lb l key)) (Z.of_nat (length l))); [|lia].
      destruct (Z.eqb_spec (Z.of_nat (lb l key)) (-1)); [lia|]. reflexivity.
    + destruct (Z.ltb_spec (Z.of_nat (lb l key)) (Z.of_nat (length l))); [lia|].
      simpl. repeat f_equal. lia.
  - replace (Z.of_nat (length l) + 1 - 2 + 1) with (Z.of_nat (length l)) by lia.
    rewrite Z.ltb_irrefl. reflexivity.
Qed.

(** Whether the key at the lower bound is [key]. *)
Definition found_at (l : list KeyT) (key : KeyT) : bool :=
  match nth_error l (lb l key) with
  | Some kf => negb (comparator kf key) && negb (comparator key kf)
  | None => false
  end.

Lemma leaf_lower_bound_spec l rest key kc :
  sorted l -> kc = Z.of_nat (length l) ->
  leaf_lower_bound comparator kc (arr l rest) key
  = Some (Z.of_nat (lb l key), found_at l key).
Proof.
  intros Hs ->. unfold leaf_lower_bound, found_at.
  destruct (Z.eqb_spec (Z.of_nat (length l)) 0) as [E|E].
  - destruct l; [reflexivity|simpl in E; lia].
  - pose proof (lb_le_length l key).
    rewrite (bsearch_spec l rest key (Z.of_nat (length l)) Hs); try lia.
    + cbn [bind].
      destruct (Z.ltb_spec (Z.of_nat (lb l key)) (Z.of_nat (length l))) as [Hlt|Hge].
      * apply Z.ltb_lt in Hlt as Hb. rewrite Hb.
        destruct (nth_error l (lb l key)) as [kf|] eqn:Ekf.
        -- rewrite (rd_arr l rest _ _ kf Ekf) by reflexivity. reflexivity.
        -- apply nth_error_None in Ekf. lia.
      * rewrite Z.ltb_irrefl.
        destruct (nth_error l (lb l key)) eqn:Ekf.
        -- assert (nth_error l (lb l key) <> None) as Hn by congruence.
           apply nth_error_Some in Hn. lia.
        -- repeat f_equal. lia.
    + replace (Z.of_nat (length l) - 1 + 1) with (Z.of_nat (length l)) by lia.
      rewrite Z.ltb_irrefl. reflexivity.
Qed.
End Order.

(** * The contents of a tree as a sorted association list *)

Section Contents.
Context {KeyT ValueT : Type}.
Variable comparator : KeyT -> KeyT -> bool.
Implicit Types (kvs : list (KeyT * ValueT)).

Definition keq (a b : KeyT) : bool :=
  negb (comparator a b) && negb (comparator b a).

(** Insert-or-update in a sorted association list; an update keeps the
    stored key and replaces the value. *)
Fixpoint upsert (k : KeyT) (v : ValueT) kvs : list (KeyT * ValueT) :=
  match kvs with
  | [] => [(k, v)]
  | (k', v') :: t =>
      if comparator k' k then (k', v') :: upsert k v t
      else if comparator k k' then (k, v) :: (k', v') :: t
      else (k', v) :: t
  end.

Fixpoint lookup (k : KeyT) kvs : option ValueT :=
  match kvs with
  | [] => None
  | (k', v') :: t =>
      if comparator k' k then lookup k t
      else if comparator k k' then None
      else Some v'
  end.

Lemma lb_map_length kvs k : (lb comparator (map fst kvs) k <= length kvs)%nat.
Proof.
  pose proof (lb_le_length comparator (map fst kvs) k) as H.
  now rewrite length_map in H.
Qed.

(** [upsert] and [lookup] act at the lower bound of the key. *)
Lemma upsert_new k v kvs :
  found_at comparator (map fst kvs) k = false ->
  let i := lb comparator (map fst kvs) k in
  upsert k v kvs = firstn i kvs ++ (k, v) :: skipn i kvs.
Proof.
  unfold found_at.
  induction kvs as [|[k' v'] t IH]; simpl; auto.
  destruct (comparator k' k) eqn:E1; simpl.
  - intros H. f_equal. apply IH, H.
  - destruct (comparator k k'); simpl; intros H; [reflexivity|].
    rewrite E1 in H. discriminate H.
Qed.

Lemma upsert_found k v kvs :
  found_at comparator (map fst kvs) k = true ->
  let i := lb comparator (map fst kvs) k in
  exists kf vf, nth_error kvs i = Some (kf, vf)
    /\ keq kf k = true
    /\ upsert k v kvs = firstn i kvs ++ (kf, v) :: skipn (S i) kvs.
Proof.
  unfold found_at.
  induction kvs as [|[k' v'] t IH]; simpl; [discriminate|].
  destruct (comparator k' k) eqn:E1; simpl.
  - intros H. destruct (IH H) as (kf & vf & Hn & Hq & Hu).
    exists kf, vf. rewrite Hu. auto.
  - destruct (comparator k k') eqn:E2; simpl; intros H.
    { rewrite andb_false_r in H. discriminate H. }
    exists k', v'. unfold keq. rewrite E1, E2. auto.
Qed.

Lemma lookup_at_lb k kvs :
  lookup k kvs
  = if found_at comparator (map fst kvs) k
    then option_map snd (nth_error kvs (lb comparator (map fst kvs) k))
    else None.
Proof.
  unfold found_at.
  induction kvs as [|[k' v'] t IH]; simpl; auto.
  destruct (comparator k' k) eqn:E1; simpl; auto.
  rewrite E1. destruct (comparator k k'); reflexivity.
Qed.

Lemma upsert_length_le k v kvs :
  (length kvs <= length (upsert k v kvs) <= S (length kvs))%nat.
Proof.
  induction kvs as [|[k' v'] t IH]; simpl; [lia|].
  destruct (comparator k' k); simpl; [lia|].
  destruct (comparator k k'); simpl; lia.
Qed.
End Contents.

(** * The node operations on well-formed nodes *)

Section NodeFacts.
Context {KeyT ValueT : Type}.
Variable comparator : KeyT -> KeyT -> bool.
Variable kCapacity : Z.
Hypothesis STO : strict_total_order comparator.

Implicit Types (kvs : list (KeyT * ValueT)).

Lemma u16_small z : 0 <= z <= 65535 -> u16 z = z.
Proof. intros H. unfold u16. apply Z.mod_small. lia. Qed.

(** [LeafNode::insert] of a key of the leaf: the value is overwritten
    in place, whether or not the leaf is full. *)
Lemma leaf_insert_found lv kvs krest vrest k v :
  sorted comparator (map fst kvs) ->
  found_at comparator (map fst kvs) k = true ->
  leaf_insert comparator
    (Leaf lv (Z.of_nat (length kvs))
          (arr (map fst kvs) krest) (arr (map snd kvs) vrest)) k v
  = Some (Leaf lv (Z.of_nat (length kvs))
               (arr (map fst (upsert comparator k v kvs)) krest)
               (arr (map snd (upsert comparator k v kvs)) vrest))
  /\ map fst (upsert comparator k v kvs) = map fst kvs
  /\ length (upsert comparator k v kvs) = length kvs.
Proof.
  intros Hs Ef.
  unfold leaf_insert.
  rewrite (leaf_lower_bound_spec comparator STO (map fst kvs) krest k _ Hs)
    by (now rewrite length_map).
  cbn [bind]. rewrite Ef.
  destruct (upsert_found comparator k v kvs Ef) as (kf & vf & Hn & _ & Hu).
  set (i := lb comparator (map fst kvs) k) in *.
  assert (Hv : nth_error (map snd kvs) i = Some vf)
    by (rewrite nth_error_map, Hn; reflexivity).
  assert (Hk : nth_error (map fst kvs) i = Some kf)
    by (rewrite nth_error_map, Hn; reflexivity).
  rewrite (wr_arr (map snd kvs) vrest i _ vf v Hv eq_refl). cbn [bind].
  assert (Hkeys : map fst (upsert comparator k v kvs) = map fst kvs).
  { rewrite Hu, map_app. cbn [map fst snd].
    symmetry. rewrite (nth_error_decomp _ _ _ Hk) at 1.
    now rewrite firstn_map, skipn_map. }
  split; [|split; [exact Hkeys|]].
  - rewrite Hkeys. f_equal. f_equal. f_equal.
    rewrite Hu, map_app. cbn [map fst snd].
    now rewrite firstn_map, skipn_map.
  - rewrite <- (length_map fst), Hkeys. apply length_map.
Qed.

(** [LeafNode::insert] on a sorted leaf with a free slot. *)
Lemma leaf_insert_spec lv kvs krest vrest k v :
  sorted comparator (map fst kvs) ->
  krest <> [] ->
  length krest = length vrest ->
  Z.of_nat (length kvs) < 65535 ->
  exists krest' vrest',
    leaf_insert comparator
      (Leaf lv (Z.of_nat (length kvs))
            (arr (map fst kvs) krest) (arr (map snd kvs) vrest)) k v
    = Some (Leaf lv (Z.of_nat (length (upsert comparator k v kvs)))
                 (arr (map fst (upsert comparator k v kvs)) krest')
                 (arr (map snd (upsert comparator k v kvs)) vrest'))
    /\ length krest' = length vrest'
    /\ (length (upsert comparator k v kvs) + length krest'
        = length kvs + length krest)%nat.
Proof.
  intros Hs Hroom Hrest Hkc.
  unfold leaf_insert.
  rewrite (leaf_lower_bound_spec comparator STO (map fst kvs) krest k _ Hs)
    by (now rewrite length_map).
  cbn [bind].
  pose proof (lb_map_length comparator kvs k) as Hi.
  set (i := lb comparator (map fst kvs) k) in *.
  destruct (found_at comparator (map fst kvs) k) eqn:Ef.
  - (* the key is there: its value is overwritten *)
    destruct (upsert_found comparator k v kvs Ef) as (kf & vf & Hn & _ & Hu).
    fold i in Hn, Hu.
    assert (Hv : nth_error (map snd kvs) i = Some vf)
      by (rewrite nth_error_map, Hn; reflexivity).
    assert (Hk : nth_error (map fst kvs) i = Some kf)
      by (rewrite nth_error_map, Hn; reflexivity).
    rewrite (wr_arr (map snd kvs) vrest i _ vf v Hv eq_refl). cbn [bind].
    exists krest, vrest.
    assert (Hlen : length (upsert comparator k v kvs) = length kvs).
    { rewrite Hu. rewrite (nth_error_decomp kvs i _ Hn) at 3.
      rewrite !length_app. reflexivity. }
    split; [|split; [assumption|lia]].
    rewrite Hlen. f_equal. f_equal.
    + f_equal. rewrite Hu, map_app. cbn [map fst snd].
      rewrite (nth_error_decomp _ _ _ Hk) at 1.
      rewrite firstn_map, skipn_map. reflexivity.
    + f_equal. rewrite Hu, map_app. cbn [map fst snd].
      now rewrite firstn_map, skipn_map.
  - (* the key is new: a slot is opened at its lower bound *)
    pose proof (upsert_new comparator k v kvs Ef) as Hu. fold i in Hu.
    simpl in Hu.
    destruct krest as [|ks kr]; [congruence|].
    destruct vrest as [|vs vr]; [discriminate|].
    rewrite (shift_gap (map fst kvs) ks kr i)
      by (rewrite ?length_map; lia).
    cbn [bind].
    rewrite (shift_gap (map snd kvs) vs vr i)
      by (rewrite ?length_map; lia).
    cbn [bind].
    rewrite wr_gap by (rewrite ?length_map; lia). cbn [bind].
    rewrite wr_gap by (rewrite ?length_map; lia). cbn [bind].
    exists kr, vr.
    assert (Hlen : length (upsert comparator k v kvs) = S (length kvs)).
    { rewrite Hu. rewrite <- (firstn_skipn i kvs) at 3.
      rewrite !length_app. simpl. lia. }
    split; [|split].
    + rewrite u16_small by lia. rewrite Hlen.
      f_equal. f_equal; [lia| |].
      * f_equal. rewrite Hu, map_app. cbn [map fst snd].
        now rewrite firstn_map, skipn_map.
      * f_equal. rewrite Hu, map_app. cbn [map fst snd].
        now rewrite firstn_map, skipn_map.
    + simpl in Hrest. congruence.
    + rewrite Hlen. simpl. lia.
Qed.

(** ** Node shapes

    [leaf_shape n lv kvs]: [n] is a leaf whose first [key_count] slots
    hold the entries [kvs]; [inner_shape n lv seps cs]: [n] is an inner
    node with the children [cs], separated by the keys [seps]. *)
Definition leaf_shape (n : @Node KeyT ValueT) (lv : Z) kvs : Prop :=
  exists krest vrest,
    n = Leaf lv (Z.of_nat (length kvs))
          (arr (map fst kvs) krest) (arr (map snd kvs) vrest)
    /\ Z.of_nat (length kvs + length krest) = kCapacity
    /\ length vrest = length krest.

Definition inner_shape (n : @Node KeyT ValueT) (lv : Z)
           (seps : list KeyT) (cs : list (@Node KeyT ValueT)) : Prop :=
  exists krest crest,
    n = Inner lv (Z.of_nat (length cs)) (arr seps krest) (arr cs crest)
    /\ length cs = S (length seps)
    /\ Z.of_nat (length seps + length krest) = kCapacity
    /\ Z.of_nat (length cs + length crest) = kCapacity.

Hypothesis cap_u16 : kCapacity <= 65535.

Lemma leaf_insert_shape n lv kvs k v :
  leaf_shape n lv kvs ->
  sorted comparator (map fst kvs) ->
  Z.of_nat (length kvs) < kCapacity ->
  exists n', leaf_insert comparator n k v = Some n'
    /\ leaf_shape n' lv (upsert comparator k v kvs).
Proof.
  intros (krest & vrest & -> & Hcap & Hlen) Hs Hroom.
  destruct (leaf_insert_spec lv kvs krest vrest k v Hs)
    as (krest' & vrest' & E & Hl & Hsum); try lia.
  { destruct krest; [simpl in Hcap; lia | discriminate]. }
  eexists; split; [exact E|].
  exists krest', vrest'. repeat split; auto; lia.
Qed.

Lemma div2_nat n : Z.quot (Z.of_nat n) 2 = Z.of_nat (n / 2).
Proof.
  rewrite Z.quot_div_nonneg by lia.
  rewrite Nat2Z.inj_div. reflexivity.
Qed.

Lemma fresh_skipn {A : Type} (m : nat) :
  length (skipn m (fresh_array (A:=A) kCapacity)) = (Z.to_nat kCapacity - m)%nat.
Proof. rewrite length_skipn, fresh_array_length. reflexivity. Qed.

(** [LeafNode::split] of a leaf with at least one entry. *)
Lemma leaf_split_shape n lv kvs :
  leaf_shape n lv kvs ->
  (1 <= length kvs)%nat ->
  let m := S (length kvs / 2) in
  exists l r sep vsep,
    leaf_split n (new_LeafNode kCapacity) = Some (l, r, sep)
    /\ leaf_shape l lv (firstn m kvs)
    /\ leaf_shape r 0 (skipn m kvs)
    /\ nth_error kvs (length kvs / 2) = Some (sep, vsep).
Proof.
  intros (krest & vrest & -> & Hcap & Hlen) Hn m.
  assert (Hm : (m <= length kvs)%nat).
  { unfold m. pose proof (Nat.div_lt (length kvs) 2). lia. }
  assert (Hmid : (length kvs / 2 < length kvs)%nat) by (unfold m in Hm; lia).
  destruct (nth_error kvs (length kvs / 2)) as [[sep vsep]|] eqn:Enth.
  2:{ apply nth_error_None in Enth. lia. }
  unfold leaf_split, new_LeafNode.
  rewrite div2_nat.
  set (rc := Z.of_nat (length kvs) - (Z.of_nat (length kvs / 2) + 1)).
  assert (Hrc : rc = Z.of_nat (length (skipn m kvs))).
  { unfold rc, m. rewrite length_skipn. lia. }
  assert (Ek : arr (map fst kvs) krest
               = map Some (map fst (firstn m kvs))
                 ++ map Some (map fst (skipn m kvs)) ++ krest).
  { rewrite <- (firstn_skipn m kvs) at 1. now rewrite map_app, arr_app. }
  assert (Ev : arr (map snd kvs) vrest
               = map Some (map snd (firstn m kvs))
                 ++ map Some (map snd (skipn m kvs)) ++ vrest).
  { rewrite <- (firstn_skipn m kvs) at 1. now rewrite map_app, arr_app. }
  exists (Leaf lv (u16 (Z.of_nat (length kvs / 2) + 1))
               (arr (map fst kvs) krest) (arr (map snd kvs) vrest)).
  eexists. exists sep, vsep.
  split; [|split; [|split; [|reflexivity]]].
  - rewrite Ek at 1.
    rewrite copy_range_spec;
      [| rewrite !length_map, length_firstn; unfold m; lia
       | rewrite !length_map; exact Hrc
       | rewrite !length_map, fresh_array_length, length_skipn; lia ].
    cbn [bind]. rewrite Ev at 1.
    rewrite copy_range_spec;
      [| rewrite !length_map, length_firstn; unfold m; lia
       | rewrite !length_map; exact Hrc
       | rewrite !length_map, fresh_array_length, length_skipn; lia ].
    cbn [bind].
    rewrite (rd_arr (map fst kvs) krest (length kvs / 2) _ sep)
      by (rewrite ?nth_error_map, ?Enth; reflexivity).
    cbn [bind]. reflexivity.
  - exists (map Some (map fst (skipn m kvs)) ++ krest),
           (map Some (map snd (skipn m kvs)) ++ vrest).
    rewrite u16_small by lia.
    rewrite length_firstn, Nat.min_l by lia.
    split; [|split].
    + f_equal; [unfold m; lia|exact Ek|exact Ev].
    + rewrite length_app, !length_map, length_skipn. lia.
    + rewrite !length_app, !length_map. lia.
  - exists (skipn (length (map Some (map fst (skipn m kvs))))
                  (fresh_array kCapacity)),
           (skipn (length (map Some (map snd (skipn m kvs))))
                  (fresh_array kCapacity)).
    rewrite u16_small by lia.
    split; [|split].
    + f_equal. exact Hrc.
    + rewrite fresh_skipn, !length_map. rewrite length_skipn in *. lia.
    + rewrite !fresh_skipn, !length_map. reflexivity.
Qed.

(** [InnerNode::insert_split] on an inner node with a free child slot:
    the key goes to its lower bound [i], the child right after it. *)
Lemma insert_split_shape n lv seps cs key c :
  inner_shape n lv seps cs ->
  sorted comparator seps ->
  Z.of_nat (length cs) < kCapacity ->
  let i := lb comparator seps key in
  exists n', insert_split comparator n key c = Some n'
    /\ inner_shape n' lv (firstn i seps ++ key :: skipn i seps)
                    (firstn (S i) cs ++ c :: skipn (S i) cs).
Proof.
  intros (krest & crest & -> & Hlen & Hk & Hc) Hs Hroom i.
  pose proof (lb_le_length comparator seps key) as Hi. fold i in Hi.
  unfold insert_split.
  destruct (inner_lower_bound_spec comparator STO seps krest key
              (Z.of_nat (length cs)) Hs) as [b E]; [lia|].
  rewrite E. cbn [bind]. fold i.
  destruct (Z.leb_spec 1 (Z.of_nat (length cs))); [|lia].
  cbn [guard bind].
  destruct krest as [|ks kr]; [simpl in Hk; lia|].
  destruct crest as [|cs0 cr]; [simpl in Hc; lia|].
  rewrite (shift_gap seps ks kr i) by lia. cbn [bind].
  rewrite (shift_gap cs cs0 cr (S i)) by lia. cbn [bind].
  rewrite wr_gap by lia. cbn [bind].
  rewrite wr_gap by lia. cbn [bind].
  eexists; split; [reflexivity|].
  exists kr, cr.
  assert (L1 : length (firstn i seps ++ key :: skipn i seps) = S (length seps)).
  { rewrite <- (firstn_skipn i seps) at 3. rewrite !length_app. simpl. lia. }
  assert (L2 : length (firstn (S i) cs ++ c :: skipn (S i) cs) = S (length cs)).
  { rewrite <- (firstn_skipn (S i) cs) at 3. rewrite !length_app. simpl. lia. }
  rewrite L1, L2. simpl length in *.
  split; [|split; [|split]]; try lia.
  rewrite u16_small by lia. f_equal. lia.
Qed.

Lemma set_child_shape n lv seps cL c cR c' pos :
  inner_shape n lv seps (cL ++ c :: cR) ->
  pos = Z.of_nat (length cL) ->
  exists n', set_child n pos c' = Some n'
    /\ inner_shape n' lv seps (cL ++ c' :: cR).
Proof.
  intros (krest & crest & -> & Hlen & Hk & Hc) ->.
  unfold set_child.
  rewrite (wr_arr (cL ++ c :: cR) crest (length cL) _ c c');
    [| rewrite nth_error_app2 by lia; rewrite Nat.sub_diag; reflexivity
     | reflexivity ].
  cbn [bind].
  rewrite firstn_app, firstn_all, Nat.sub_diag. simpl firstn.
  rewrite app_nil_r, skipn_app.
  replace (skipn (S (length cL)) cL) with (@nil (@Node KeyT ValueT))
    by (symmetry; apply skipn_all2; lia).
  replace (S (length cL) - length cL)%nat with 1%nat by lia.
  simpl skipn. simpl app.
  eexists; split; [reflexivity|].
  exists krest, crest.
  rewrite !length_app in *. simpl length in *.
  repeat split; auto.
Qed.

(** [InnerNode::split] of an inner node with at least two children. *)
Lemma inner_split_shape n lv seps cs :
  inner_shape n lv seps cs ->
  (2 <= length cs)%nat ->
  let mid := ((length cs - 1) / 2)%nat in
  exists l r sep,
    inner_split n (new_InnerNode kCapacity) = Some (l, r, sep)
    /\ inner_shape l lv (firstn mid seps) (firstn (S mid) cs)
    /\ inner_shape r 1 (skipn (S mid) seps) (skipn (S mid) cs)
    /\ nth_error seps mid = Some sep.
Proof.
  intros (krest & crest & -> & Hlen & Hk & Hc) Hn mid.
  assert (Hmid : (mid < length seps)%nat).
  { unfold mid. rewrite Hlen.
    replace (S (length seps) - 1)%nat with (length seps) by lia.
    apply Nat.div_lt; lia. }
  destruct (nth_error seps mid) as [sep|] eqn:Enth.
  2:{ apply nth_error_None in Enth. lia. }
  unfold inner_split, new_InnerNode.
  replace (Z.of_nat (length cs) - 1) with (Z.of_nat (length cs - 1)) by lia.
  rewrite div2_nat. fold mid.
  set (rc := Z.of_nat (length cs) - (Z.of_nat mid + 1)).
  assert (Hrc : rc = Z.of_nat (length (skipn (S mid) cs))).
  { unfold rc. rewrite length_skipn. lia. }
  assert (Hmid' : (S mid < length cs)%nat) by (unfold mid; rewrite Hlen; replace (S (length seps) - 1)%nat with (length seps) by lia; pose proof (Nat.div_lt (length seps) 2); lia).
  clearbody mid.
  destruct krest as [|ks kr]; [simpl in Hk; lia|].
  assert (Ek : arr seps (ks :: kr)
               = map Some (firstn (S mid) seps)
                 ++ (map Some (skipn (S mid) seps) ++ [ks]) ++ kr).
  { rewrite <- (firstn_skipn (S mid) seps) at 1.
    rewrite arr_app, <- !app_assoc. reflexivity. }
  assert (Ec : arr cs crest
               = map Some (firstn (S mid) cs)
                 ++ map Some (skipn (S mid) cs) ++ crest).
  { rewrite <- (firstn_skipn (S mid) cs) at 1. now rewrite arr_app. }
  exists (Inner lv (u16 (Z.of_nat mid + 1)) (arr seps (ks :: kr)) (arr cs crest)).
  eexists. exists sep.
  split; [|split; [|split; [|reflexivity]]].
  - rewrite Ek at 1.
    rewrite copy_range_spec;
      [| rewrite !length_map, length_firstn; lia
       | rewrite length_app, !length_map, length_skipn in *; simpl; lia
       | rewrite length_app, !length_map, fresh_array_length, length_skipn;
         simpl; lia ].
    cbn [bind]. rewrite Ec at 1.
    rewrite copy_range_spec;
      [| rewrite !length_map, length_firstn; lia
       | rewrite !length_map; exact Hrc
       | rewrite !length_map, fresh_array_length, length_skipn; lia ].
    cbn [bind].
    rewrite (rd_arr seps (ks :: kr) mid _ sep Enth) by reflexivity.
    cbn [bind]. reflexivity.
  - exists (map Some (skipn mid seps) ++ ks :: kr),
           (map Some (skipn (S mid) cs) ++ crest).
    rewrite u16_small by lia.
    rewrite !length_firstn, !Nat.min_l by lia.
    split; [|split; [|split]].
    + f_equal; [lia| |exact Ec].
      rewrite <- (firstn_skipn mid seps) at 1. now rewrite arr_app.
    + reflexivity.
    + rewrite length_app, !length_map, length_skipn. simpl in *. lia.
    + rewrite !length_app, !length_map, length_skipn. lia.
  - exists (ks :: skipn (length (map Some (skipn (S mid) seps) ++ [ks]))
                     (fresh_array kCapacity)),
           (skipn (length (map Some (skipn (S mid) cs)))
                  (fresh_array kCapacity)).
    rewrite u16_small by lia.
    split; [|split; [|split]].
    + f_equal; [exact Hrc|].
      unfold arr. rewrite <- app_assoc. reflexivity.
    + rewrite !length_skipn. lia.
    + cbn [length]. rewrite fresh_skipn, length_app, !length_map.
      rewrite !length_skipn. cbn [length] in *. lia.
    + rewrite fresh_skipn, !length_map. rewrite length_skipn in *. lia.
Qed.
End NodeFacts.

(** * Well-formed trees *)

Section TreeFacts.
Context {KeyT ValueT : Type}.
Variable comparator : KeyT -> KeyT -> bool.
Variable kCapacity : Z.
Hypothesis STO : strict_total_order comparator.

Abbreviation Node := (@Node KeyT ValueT).
Abbreviation lt := comparator.
Implicit Types (kvs : list (KeyT * ValueT)) (lo hi : option KeyT).

(** Key ranges [(lo, hi]]; [None] is an open end. *)
Definition above lo (k : KeyT) : Prop :=
  match lo with None => True | Some a => lt a k = true end.
Definition below (k : KeyT) hi : Prop :=
  match hi with None => True | Some b => lt b k = false end.
Definition sbelow (k : KeyT) hi : Prop :=
  match hi with None => True | Some b => lt k b = true end.
Definition in_range lo hi (k : KeyT) : Prop := above lo k /\ below k hi.

Lemma above_trans lo s k : above lo s -> lt s k = true -> above lo k.
Proof. destruct lo; simpl; auto. intros. eapply lt_trans; eauto. Qed.

Lemma sbelow_trans k s hi : lt k s = true -> sbelow s hi -> sbelow k hi.
Proof. destruct hi; simpl; auto. intros. eapply lt_trans; eauto. Qed.

Lemma below_sbelow k s hi : lt s k = false -> sbelow s hi -> below k hi.
Proof.
  destruct hi as [b|]; simpl; auto. intros H1 H2.
  destruct (lt b k) eqn:E; auto.
  rewrite <- H1. symmetry. eapply lt_trans; eauto.
Qed.

Lemma sbelow_below k hi : sbelow k hi -> below k hi.
Proof. destruct hi; simpl; auto. apply lt_asym; auto. Qed.

(** The children [cs] of an inner node with separators [seps]: child
    [i] holds the keys in [(seps[i-1], seps[i]]], the separators lie
    strictly inside [(lo, hi)], and [kvs] are the entries below the
    children, in order. *)
Inductive chain (R : option KeyT -> option KeyT -> Node ->
                     list (KeyT * ValueT) -> Prop)
  : option KeyT -> option KeyT -> list KeyT -> list Node ->
    list (KeyT * ValueT) -> Prop :=
| chain_last lo hi c kvs :
    R lo hi c kvs -> chain R lo hi [] [c] kvs
| chain_cons lo hi s seps c cs kvs1 kvs2 :
    R lo (Some s) c kvs1 -> above lo s -> sbelow s hi ->
    chain R (Some s) hi seps cs kvs2 ->
    chain R lo hi (s :: seps) (c :: cs) (kvs1 ++ kvs2).

Section Chain.
Variable R : option KeyT -> option KeyT -> Node ->
             list (KeyT * ValueT) -> Prop.
Hypothesis R_range : forall lo hi c kvs,
  R lo hi c kvs -> Forall (in_range lo hi) (map fst kvs).

Lemma chain_length lo hi seps cs kvs :
  chain R lo hi seps cs kvs -> length cs = S (length seps).
Proof. induction 1; simpl; auto. Qed.

Lemma chain_range lo hi seps cs kvs :
  chain R lo hi seps cs kvs -> Forall (in_range lo hi) (map fst kvs).
Proof.
  induction 1 as [|lo hi s seps c cs kvs1 kvs2 HR Ha Hb Hc IH]; eauto.
  rewrite map_app. apply Forall_app. split.
  - eapply Forall_impl; [|apply (R_range _ _ _ _ HR)].
    intros x [H1 H2]. split; auto.
    eapply below_sbelow; eauto.
  - eapply Forall_impl; [|apply IH].
    intros x [H1 H2]. split; auto.
    eapply above_trans; eauto.
Qed.

Lemma chain_seps lo hi seps cs kvs :
  chain R lo hi seps cs kvs ->
  sorted comparator seps
  /\ Forall (fun s => above lo s /\ sbelow s hi) seps.
Proof.
  induction 1 as [|lo hi s seps c cs kvs1 kvs2 HR Ha Hb Hc [IH1 IH2]].
  - split; constructor.
  - split.
    + constructor; auto.
      eapply Forall_impl; [|apply IH2]. intros x [H1 _]. exact H1.
    + constructor; auto.
      eapply Forall_impl; [|apply IH2]. intros x [H1 H2]. split; auto.
      eapply above_trans; eauto.
Qed.

(** The child a key is routed to, what lies left and right of it,
    and how the chain is rebuilt around a new version of that child
    or around its two halves after a split. *)
Lemma chain_pick lo hi seps cs kvs k :
  chain R lo hi seps cs kvs -> in_range lo hi k ->
  exists cL c cR sL sR kvL kvC kvR lo' hi',
    cs = cL ++ c :: cR /\ seps = sL ++ sR
    /\ length cL = lb comparator seps k
    /\ length sL = lb comparator seps k
    /\ kvs = kvL ++ kvC ++ kvR
    /\ R lo' hi' c kvC
    /\ in_range lo' hi' k
    /\ Forall (fun x => lt x k = true) (map fst kvL)
    /\ Forall (fun x => lt k x = true) (map fst kvR)
    /\ (forall s, in_range lo' hi' s ->
         lb comparator seps s = lb comparator seps k)
    /\ (forall x, above lo' x -> above lo x)
    /\ (forall x, sbelow x hi' -> sbelow x hi)
    /\ (forall c' kvC', R lo' hi' c' kvC' ->
         chain R lo hi seps (cL ++ c' :: cR) (kvL ++ kvC' ++ kvR))
    /\ (forall s c1 c2 k1 k2,
         R lo' (Some s) c1 k1 -> R (Some s) hi' c2 k2 ->
         above lo' s -> sbelow s hi' ->
         chain R lo hi (sL ++ s :: sR) (cL ++ c1 :: c2 :: cR)
               (kvL ++ (k1 ++ k2) ++ kvR)).
Proof.
  induction 1 as [lo hi c kvs HR
                 |lo hi s seps c cs kvs1 kvs2 HR Ha Hb Hc IH];
    intros [Hk1 Hk2].
  - exists [], c, [], [], [], [], kvs, [], lo, hi.
    simpl. rewrite app_nil_r.
    repeat split; auto.
    + intros c' kvC' H. rewrite app_nil_r. now constructor.
    + intros s c1 c2 k1 k2 H1 H2 H3 H4. rewrite app_nil_r.
      constructor; auto. now constructor.
  - simpl lb. destruct (lt s k) eqn:E.
    + destruct IH
        as (cL & c0 & cR & sL & sR & kvL & kvC & kvR & lo' & hi' &
            -> & -> & HlcL & HlsL & -> & HR0 & Hin & HfL & HfR &
            Hlb & Hwa & Hws & Hreb1 & Hreb2).
      { split; [exact E|exact Hk2]. }
      exists (c :: cL), c0, cR, (s :: sL), sR, (kvs1 ++ kvL), kvC, kvR, lo', hi'.
      repeat split; simpl; auto.
      * now rewrite app_assoc.
      * apply Hin.
      * apply Hin.
      * rewrite map_app. apply Forall_app. split; auto.
        eapply Forall_impl; [|apply (R_range _ _ _ _ HR)].
        intros x [_ Hx]. simpl in Hx. eapply le_lt_trans; eauto.
      * intros s' [Hs1 Hs2].
        pose proof (Hwa _ Hs1) as Hs3. simpl in Hs3. rewrite Hs3.
        f_equal. apply Hlb. split; auto.
      * intros x Hx. eapply above_trans; [exact Ha|]. apply (Hwa _ Hx).
      * intros c' kvC' H'. rewrite <- app_assoc.
        constructor; auto.
      * intros s' c1 c2 k1 k2 H1 H2 H3 H4. rewrite <- app_assoc.
        constructor; auto.
    + exists [], c, cs, [], (s :: seps), [], kvs1, kvs2, lo, (Some s).
      repeat split; simpl; auto.
      * eapply Forall_impl; [|apply (chain_range _ _ _ _ _ Hc)].
        intros x [Hx _]. simpl in Hx. eapply le_lt_trans; eauto.
      * intros s' [Hs1 Hs2]. simpl in Hs2. now rewrite Hs2.
      * intros x Hx. eapply sbelow_trans; eauto.
      * intros c' kvC' H'. constructor; auto.
      * intros s' c1 c2 k1 k2 H1 H2 H3 H4. rewrite <- app_assoc.
        constructor; auto.
        -- eapply sbelow_trans; eauto.
        -- constructor; auto.
Qed.
End Chain.

(** ** Entries left and right of the key *)

Lemma lookup_skip_left k (l1 l2 : list (KeyT * ValueT)) :
  Forall (fun x => lt x k = true) (map fst l1) ->
  lookup comparator k (l1 ++ l2) = lookup comparator k l2.
Proof.
  induction l1 as [|[k' v'] t IH]; simpl; auto.
  intros H. inversion H; subst. rewrite H2. auto.
Qed.

Lemma lookup_cut_right k (l1 l2 : list (KeyT * ValueT)) :
  Forall (fun x => lt k x = true) (map fst l2) ->
  lookup comparator k (l1 ++ l2) = lookup comparator k l1.
Proof.
  intros H. induction l1 as [|[k' v'] t IH]; simpl.
  - destruct l2 as [|[k2 v2] l2]; simpl; auto.
    inversion H; subst. simpl in *.
    rewrite (lt_asym comparator STO _ _ H2), H2. reflexivity.
  - rewrite IH. reflexivity.
Qed.

Lemma upsert_skip_left k v (l1 l2 : list (KeyT * ValueT)) :
  Forall (fun x => lt x k = true) (map fst l1) ->
  upsert comparator k v (l1 ++ l2) = l1 ++ upsert comparator k v l2.
Proof.
  induction l1 as [|[k' v'] t IH]; simpl; auto.
  intros H. inversion H; subst. rewrite H2. f_equal. auto.
Qed.

Lemma upsert_cut_right k v (l1 l2 : list (KeyT * ValueT)) :
  Forall (fun x => lt k x = true) (map fst l2) ->
  upsert comparator k v (l1 ++ l2) = upsert comparator k v l1 ++ l2.
Proof.
  intros H. induction l1 as [|[k' v'] t IH]; simpl.
  - destruct l2 as [|[k2 v2] l2]; simpl; auto.
    inversion H; subst. simpl in *.
    rewrite (lt_asym comparator STO _ _ H2), H2. reflexivity.
  - rewrite IH. destruct (lt k' k); [reflexivity|].
    destruct (lt k k'); reflexivity.
Qed.

Lemma upsert_Forall (P : KeyT -> Prop) k v kvs :
  Forall P (map fst kvs) -> P k ->
  Forall P (map fst (upsert comparator k v kvs)).
Proof.
  intros H Hk. induction kvs as [|[k' v'] t IH]; simpl.
  - constructor; auto.
  - inversion H; subst.
    destruct (lt k' k); simpl; [constructor; auto|].
    destruct (lt k k'); simpl; constructor; auto.
Qed.

Lemma upsert_sorted k v kvs :
  sorted comparator (map fst kvs) ->
  sorted comparator (map fst (upsert comparator k v kvs)).
Proof.
  unfold sorted.
  induction kvs as [|[k' v'] t IH]; simpl; intros H.
  - constructor; constructor.
  - inversion H as [|a l Hs Hall]; subst.
    destruct (lt k' k) eqn:E1; simpl.
    + constructor; auto. apply upsert_Forall; auto.
    + destruct (lt k k') eqn:E2; simpl.
      * constructor; auto. constructor; auto.
        eapply Forall_impl; [|exact Hall].
        intros x Hx. unfold ltk in *. eapply lt_trans; eauto.
      * constructor; auto.
Qed.

(** ** The representation invariant

    [rep h lo hi n kvs]: [n] is the root of a well-formed subtree of
    height [h] whose keys lie in [(lo, hi]], and [kvs] are its entries
    in key order. *)
Fixpoint rep (h : nat) lo hi (n : Node) kvs : Prop :=
  match h with
  | O => leaf_shape kCapacity n 0 kvs
         /\ sorted comparator (map fst kvs)
         /\ Forall (in_range lo hi) (map fst kvs)
  | S h' => exists seps cs,
      inner_shape kCapacity n (Z.of_nat (S h')) seps cs
      /\ Z.of_nat (S h') <= 65535
      /\ chain (rep h') lo hi seps cs kvs
  end.

Lemma rep_range h : forall lo hi n kvs,
  rep h lo hi n kvs -> Forall (in_range lo hi) (map fst kvs).
Proof.
  induction h as [|h IH]; intros lo hi n kvs H.
  - apply H.
  - destruct H as (seps & cs & _ & _ & Hc).
    eapply chain_range; eauto.
Qed.

Lemma firstn_S_nth {A : Type} (l : list A) : forall i x,
  nth_error l i = Some x -> firstn (S i) l = firstn i l ++ [x].
Proof.
  induction l as [|a l IH]; intros [|i] x H; simpl in H; try discriminate.
  - injection H as <-. reflexivity.
  - change (a :: firstn (S i) l = a :: (firstn i l ++ [x])).
    f_equal. apply IH, H.
Qed.

Lemma nth_error_middle {A : Type} (l1 : list A) x l2 :
  nth_error (l1 ++ x :: l2) (length l1) = Some x.
Proof. rewrite nth_error_app2 by lia. now rewrite Nat.sub_diag. Qed.

(** ** [get] returns the entry of the key *)
Lemma get_loop_rep h : forall fuel lo hi n kvs k,
  rep h lo hi n kvs -> in_range lo hi k -> (h <= fuel)%nat ->
  get_loop comparator fuel n k = Some (lookup comparator k kvs).
Proof.
  induction h as [|h IH]; intros fuel lo hi n kvs k H Hk Hf.
  - destruct H as ((krest & vrest & -> & Hcap & Hlen) & Hs & _).
    assert (E : forall f, get_loop comparator f
                 (Leaf 0 (Z.of_nat (length kvs)) (arr (map fst kvs) krest)
                       (arr (map snd kvs) vrest)) k
               = Some (lookup comparator k kvs)).
    { intros f.
      replace (get_loop comparator f _ k)
        with ('(pos, found) <- leaf_lower_bound comparator
                 (Z.of_nat (length kvs)) (arr (map fst kvs) krest) k ;;
              if (found : bool) then
                res <- rd (arr (map snd kvs) vrest) pos ;; Some (Some res)
              else Some None)
        by (destruct f; reflexivity).
      rewrite (leaf_lower_bound_spec comparator STO (map fst kvs) krest k _ Hs)
        by (now rewrite length_map).
      cbn [bind]. rewrite lookup_at_lb.
      destruct (found_at comparator (map fst kvs) k) eqn:Ef; [|reflexivity].
      unfold found_at in Ef. rewrite nth_error_map in Ef.
      destruct (nth_error kvs (lb comparator (map fst kvs) k))
        as [[kf vf]|] eqn:Enth; [|discriminate].
      rewrite (rd_arr (map snd kvs) vrest _ _ vf)
        by (rewrite ?nth_error_map, ?Enth; reflexivity).
      reflexivity. }
    apply E.
  - destruct H as (seps & cs & (krest & crest & -> & Hlen & Hkl & Hcl) & Hlv & Hc).
    destruct (chain_seps _ _ _ _ _ _ Hc) as [Hs _].
    destruct (chain_pick _ (rep_range h) _ _ _ _ _ k Hc Hk)
      as (cL & c & cR & sL & sR & kvL & kvC & kvR & lo' & hi' &
          Ecs & Eseps & HlcL & HlsL & -> & HR & Hin & HfL & HfR & _).
    destruct fuel as [|fuel]; [lia|].
    cbn [get_loop is_leaf level].
    destruct (Z.eqb_spec (Z.of_nat (S h)) 0); [lia|].
    destruct (inner_lower_bound_spec comparator STO seps krest k
                (Z.of_nat (length cs)) Hs) as [b E]; [lia|].
    rewrite E. cbn [bind].
    rewrite (rd_arr cs crest (length cL) _ c)
      by (rewrite ?Ecs, ?nth_error_middle, ?HlcL; reflexivity).
    cbn [bind].
    rewrite (IH fuel lo' hi' c kvC k HR Hin) by lia.
    rewrite lookup_skip_left by assumption.
    rewrite lookup_cut_right by assumption.
    reflexivity.
Qed.

(** ** The node operations keep the invariant *)

Hypothesis cap_min : 3 <= kCapacity.
Hypothesis cap_u16 : kCapacity <= 65535.

Lemma sorted_app_inv (l1 l2 : list KeyT) :
  sorted comparator (l1 ++ l2) ->
  sorted comparator l1 /\ sorted comparator l2
  /\ Forall (fun x => Forall (ltk comparator x) l2) l1.
Proof.
  unfold sorted. induction l1 as [|a l1 IH]; simpl; intros H.
  - repeat split; auto; constructor.
  - inversion H as [|? ? Hs Hall]; subst.
    destruct (IH Hs) as (H1 & H2 & H3).
    apply Forall_app in Hall as [Ha1 Ha2].
    repeat split; auto; constructor; auto.
Qed.

Lemma leaf_insert_rep lo hi n kvs k v :
  rep 0 lo hi n kvs -> in_range lo hi k ->
  Z.of_nat (length kvs) < kCapacity ->
  exists n', leaf_insert comparator n k v = Some n'
    /\ rep 0 lo hi n' (upsert comparator k v kvs).
Proof.
  intros (Hshape & Hs & Hr) Hk Hroom.
  destruct (leaf_insert_shape comparator kCapacity STO cap_u16
              n 0 kvs k v Hshape Hs Hroom) as (n' & E & Hshape').
  exists n'. split; [exact E|].
  split; [exact Hshape'|]. split.
  - now apply upsert_sorted.
  - now apply upsert_Forall.
Qed.

(** A leaf splits into two leaves around the separator, which stays the
    last key of the left one. *)
Lemma leaf_split_rep_gen lo hi n kvs :
  rep 0 lo hi n kvs -> (1 <= length kvs)%nat ->
  (S (length kvs / 2) < length kvs)%nat \/ hi = None ->
  exists l r sep vsep,
    leaf_split n (new_LeafNode kCapacity) = Some (l, r, sep)
    /\ nth_error kvs (length kvs / 2) = Some (sep, vsep)
    /\ rep 0 lo (Some sep) l (firstn (S (length kvs / 2)) kvs)
    /\ rep 0 (Some sep) hi r (skipn (S (length kvs / 2)) kvs)
    /\ above lo sep /\ sbelow sep hi.
Proof.
  clear cap_min.
  intros (Hshape & Hs & Hr) Hn Hhi.
  destruct (leaf_split_shape kCapacity cap_u16 n 0 kvs Hshape)
    as (l & r & sep & vsep & E & Hl & Hrr & Hnth); [lia|].
  exists l, r, sep, vsep.
  pose proof (firstn_S_nth kvs _ _ Hnth) as Ef.
  rewrite <- (firstn_skipn (S (length kvs / 2)) kvs) in Hs, Hr.
  rewrite map_app in Hs, Hr.
  apply Forall_app in Hr as [Hr1 Hr2].
  destruct (sorted_app_inv _ _ Hs) as (Hs1 & Hs2 & Hcross).
  assert (Hsep_in : In sep (map fst (firstn (S (length kvs / 2)) kvs))).
  { rewrite Ef, map_app. apply in_or_app. right. left. reflexivity. }
  assert (Hle : Forall (fun x => lt sep x = false)
                       (map fst (firstn (S (length kvs / 2)) kvs))).
  { rewrite Ef, map_app in *.
    destruct (sorted_app_inv _ _ Hs1) as (_ & _ & Hc1).
    apply Forall_app. split.
    - eapply Forall_impl; [|exact Hc1].
      intros x Hx. inversion Hx; subst.
      apply lt_asym; auto.
    - constructor; [|constructor]. apply (lt_irrefl _ STO). }
  assert (Hgt : Forall (fun x => lt sep x = true)
                       (map fst (skipn (S (length kvs / 2)) kvs))).
  { rewrite Forall_forall in Hcross. apply (Hcross _ Hsep_in). }
  rewrite Forall_forall in Hr1.
  destruct (Hr1 _ Hsep_in) as [Hsa Hsb].
  assert (Hsb' : sbelow sep hi).
  { destruct Hhi as [Hhi| ->]; [|exact I].
    destruct (skipn (S (length kvs / 2)) kvs) as [|[ky vy] rest] eqn:Esk.
    - apply (f_equal (@length _)) in Esk. rewrite length_skipn in Esk.
      cbn [length] in Esk. lia.
    - simpl in Hgt, Hr2. inversion Hgt; subst. inversion Hr2; subst.
      destruct hi as [b|]; simpl; auto.
      destruct H3 as [_ Hb]. simpl in Hb.
      eapply lt_le_trans; eauto. }
  split; [exact E|]. split; [exact Hnth|].
  repeat split; auto.
  - rewrite Forall_forall. intros x Hx. split.
    + apply Hr1, Hx.
    + rewrite Forall_forall in Hle. simpl. apply Hle, Hx.
  - rewrite Forall_forall in *. intros x Hx. split.
    + simpl. apply Hgt, Hx.
    + apply Hr2, Hx.
Qed.

(** A full leaf splits into two leaves, each with a free slot. *)
Lemma leaf_split_rep lo hi n kvs :
  rep 0 lo hi n kvs -> Z.of_nat (length kvs) = kCapacity ->
  exists l r sep k1 k2,
    leaf_split n (new_LeafNode kCapacity) = Some (l, r, sep)
    /\ kvs = k1 ++ k2
    /\ rep 0 lo (Some sep) l k1 /\ rep 0 (Some sep) hi r k2
    /\ above lo sep /\ sbelow sep hi
    /\ Z.of_nat (length k1) < kCapacity
    /\ Z.of_nat (length k2) < kCapacity.
Proof.
  intros Hrep Hfull.
  assert (Hdiv : (S (length kvs / 2) < length kvs)%nat).
  { assert (3 <= length kvs)%nat by lia.
    pose proof (Nat.div_mod_eq (length kvs) 2).
    pose proof (Nat.mod_upper_bound (length kvs) 2). lia. }
  destruct (leaf_split_rep_gen lo hi n kvs Hrep)
    as (l & r & sep & vsep & E & _ & Hl & Hr & Ha & Hb); [lia|auto|].
  exists l, r, sep, (firstn (S (length kvs / 2)) kvs),
         (skipn (S (length kvs / 2)) kvs).
  split; [exact E|]. split; [symmetry; apply firstn_skipn|].
  repeat split; auto; try apply Hl; try apply Hr.
  - rewrite length_firstn. lia.
  - rewrite length_skipn. lia.
Qed.

(** Cutting a chain at a separator. *)
Lemma chain_split R lo hi seps cs kvs :
  chain R lo hi seps cs kvs -> forall mid sep,
  nth_error seps mid = Some sep ->
  exists k1 k2,
    kvs = k1 ++ k2
    /\ chain R lo (Some sep) (firstn mid seps) (firstn (S mid) cs) k1
    /\ chain R (Some sep) hi (skipn (S mid) seps) (skipn (S mid) cs) k2
    /\ above lo sep /\ sbelow sep hi.
Proof.
  induction 1 as [lo hi c kvs HR
                 |lo hi s seps c cs kvs1 kvs2 HR Ha Hb Hc IH];
    intros mid sep Hn.
  - destruct mid; discriminate.
  - destruct mid as [|mid]; simpl in Hn.
    + injection Hn as <-. exists kvs1, kvs2.
      repeat split; auto. simpl. now constructor.
    + destruct (IH mid sep Hn) as (k1 & k2 & -> & H1 & H2 & H3 & H4).
      exists (kvs1 ++ k1), k2.
      split; [apply app_assoc|].
      split; [|split; [exact H2|split; [|exact H4]]].
      * change (chain R lo (Some sep) (s :: firstn mid seps)
                      (c :: firstn (S mid) cs) (kvs1 ++ k1)).
        constructor; auto.
      * eapply above_trans; eauto.
Qed.

Lemma key_count_inner_shape (n : Node) lv seps cs :
  inner_shape kCapacity n lv seps cs ->
  key_count n = Z.of_nat (length cs) /\ level n = lv.
Proof. intros (krest & crest & -> & _). split; reflexivity. Qed.

Lemma set_level_shape (n : Node) lv0 lv seps cs :
  inner_shape kCapacity n lv0 seps cs ->
  inner_shape kCapacity (set_level n lv) lv seps cs.
Proof.
  intros (krest & crest & -> & H). exists krest, crest. split; auto.
Qed.

(** A full inner node splits into two inner nodes of its level around
    the promoted separator, each with a free child slot. *)
Lemma inner_split_rep h lo hi n kvs :
  rep (S h) lo hi n kvs -> key_count n = kCapacity ->
  exists l r0 sep k1 k2,
    inner_split n (new_InnerNode kCapacity) = Some (l, r0, sep)
    /\ kvs = k1 ++ k2
    /\ rep (S h) lo (Some sep) l k1
    /\ rep (S h) (Some sep) hi (set_level r0 (level l)) k2
    /\ above lo sep /\ sbelow sep hi
    /\ key_count l < kCapacity
    /\ key_count (set_level r0 (level l)) < kCapacity.
Proof.
  intros (seps & cs & Hshape & Hlv & Hc) Hfull.
  destruct (key_count_inner_shape _ _ _ _ Hshape) as [Hkc _].
  rewrite Hkc in Hfull.
  destruct (inner_split_shape kCapacity cap_u16 n _ seps cs Hshape)
    as (l & r0 & sep & E & Hl & Hr & Hnth); [lia|].
  destruct (chain_split _ _ _ _ _ _ Hc _ _ Hnth)
    as (k1 & k2 & Ekvs & Hc1 & Hc2 & Ha & Hb).
  destruct (key_count_inner_shape _ _ _ _ Hl) as [Hkl Hll].
  pose proof (set_level_shape _ _ (level l) _ _ Hr) as Hr'.
  destruct (key_count_inner_shape _ _ _ _ Hr') as [Hkr _].
  assert (Hmid : (S ((length cs - 1) / 2) < length cs)%nat).
  { assert (3 <= length cs)%nat by lia.
    pose proof (Nat.div_mod_eq (length cs - 1) 2).
    pose proof (Nat.mod_upper_bound (length cs - 1) 2). lia. }
  exists l, r0, sep, k1, k2.
  split; [exact E|]. split; [exact Ekvs|].
  split; [|split; [|split; [exact Ha|split; [exact Hb|split]]]].
  - exists (firstn ((length cs - 1) / 2) seps),
           (firstn (S ((length cs - 1) / 2)) cs). auto.
  - rewrite Hll.
    exists (skipn (S ((length cs - 1) / 2)) seps),
           (skipn (S ((length cs - 1) / 2)) cs).
    rewrite Hll in Hr'. auto.
  - rewrite Hkl, length_firstn. lia.
  - rewrite Hkr, length_skipn. lia.
Qed.

(** The parent after its child at [pos] was replaced by the two halves
    of a split. *)
Lemma absorb_split (n : Node) lv sL sR cL c cR c1 c2 sep pos :
  inner_shape kCapacity n lv (sL ++ sR) (cL ++ c :: cR) ->
  sorted comparator (sL ++ sR) ->
  Z.of_nat (length (cL ++ c :: cR)) < kCapacity ->
  lb comparator (sL ++ sR) sep = length cL ->
  length sL = length cL ->
  pos = Z.of_nat (length cL) ->
  exists n1 n', set_child n pos c1 = Some n1
    /\ insert_split comparator n1 sep c2 = Some n'
    /\ inner_shape kCapacity n' lv (sL ++ sep :: sR) (cL ++ c1 :: c2 :: cR).
Proof.
  intros Hshape Hs Hroom Hlb HsL ->.
  destruct (set_child_shape kCapacity n lv _ cL c cR c1 _ Hshape eq_refl)
    as (n1 & E1 & Hshape1).
  assert (Hroom1 : Z.of_nat (length (cL ++ c1 :: cR)) < kCapacity).
  { rewrite length_app in *. simpl in *. lia. }
  destruct (insert_split_shape comparator kCapacity STO cap_u16 n1 lv _ _
              sep c2 Hshape1 Hs Hroom1) as (n' & E2 & Hshape2).
  exists n1, n'. split; [exact E1|]. split; [exact E2|].
  rewrite Hlb in Hshape2.
  replace (firstn (S (length cL)) (cL ++ c1 :: cR)) with (cL ++ [c1])
    in Hshape2.
  2:{ rewrite (firstn_S_nth _ _ _ (nth_error_middle cL c1 cR)).
      rewrite firstn_app, firstn_all, Nat.sub_diag. cbn [firstn].
      now rewrite app_nil_r. }
  replace (skipn (S (length cL)) (cL ++ c1 :: cR)) with cR in Hshape2.
  2:{ rewrite skipn_app, skipn_all2, Nat.sub_succ_l, Nat.sub_diag by lia.
      reflexivity. }
  rewrite <- HsL in Hshape2.
  rewrite firstn_app, firstn_all, Nat.sub_diag in Hshape2.
  rewrite skipn_app, skipn_all, Nat.sub_diag in Hshape2.
  cbn [firstn skipn app] in Hshape2. rewrite app_nil_r in Hshape2.
  rewrite <- app_assoc in Hshape2. exact Hshape2.
Qed.

(** One step of a descent for [k] from an inner node with a free child
    slot: the child the key is routed to, and the node after that child
    has been updated, or split and updated. *)
Lemma descend h lo hi (cur : Node) kvs k :
  rep (S h) lo hi cur kvs -> key_count cur < kCapacity ->
  in_range lo hi k ->
  exists kc keys children pos b c kvL kvC kvR lo' hi',
    cur = Inner (Z.of_nat (S h)) kc keys children
    /\ inner_lower_bound comparator kc keys k = Some (pos, b)
    /\ rd children pos = Some c
    /\ kvs = kvL ++ kvC ++ kvR
    /\ rep h lo' hi' c kvC
    /\ in_range lo' hi' k
    /\ Forall (fun x => lt x k = true) (map fst kvL)
    /\ Forall (fun x => lt k x = true) (map fst kvR)
    /\ (forall c' kvC', rep h lo' hi' c' kvC' ->
         exists cur', set_child cur pos c' = Some cur'
           /\ rep (S h) lo hi cur' (kvL ++ kvC' ++ kvR))
    /\ (forall sep c1 c2 k1 k2,
         rep h lo' (Some sep) c1 k1 -> rep h (Some sep) hi' c2 k2 ->
         above lo' sep -> sbelow sep hi' ->
         exists cur1 cur', set_child cur pos c1 = Some cur1
           /\ insert_split comparator cur1 sep c2 = Some cur'
           /\ rep (S h) lo hi cur' (kvL ++ (k1 ++ k2) ++ kvR)).
Proof.
  intros (seps & cs & Hshape & Hlv & Hc) Hroom Hk.
  destruct (key_count_inner_shape _ _ _ _ Hshape) as [Hkc _].
  rewrite Hkc in Hroom.
  destruct (chain_seps _ _ _ _ _ _ Hc) as [Hs _].
  destruct (chain_pick _ (rep_range h) _ _ _ _ _ k Hc Hk)
    as (cL & c & cR & sL & sR & kvL & kvC & kvR & lo' & hi' &
        Ecs & Eseps & HlcL & HlsL & Ekvs & HR & Hin & HfL & HfR &
        Hlb & Hwa & Hws & Hreb1 & Hreb2).
  pose proof Hshape as (krest & crest & -> & Hlen & Hkl & Hcl).
  destruct (inner_lower_bound_spec comparator STO seps krest k
              (Z.of_nat (length cs)) Hs) as [b E]; [lia|].
  exists (Z.of_nat (length cs)), (arr seps krest), (arr cs crest),
         (Z.of_nat (lb comparator seps k)), b, c, kvL, kvC, kvR, lo', hi'.
  split; [reflexivity|]. split; [exact E|].
  split.
  { apply (rd_arr cs crest (length cL)); [|now rewrite HlcL].
    rewrite Ecs. apply nth_error_middle. }
  split; [exact Ekvs|]. split; [exact HR|]. split; [exact Hin|].
  split; [exact HfL|]. split; [exact HfR|].
  rewrite <- HlcL. clear E Hc.
  subst cs. split.
  - intros c' kvC' HR'.
    destruct (set_child_shape kCapacity _ _ _ cL c cR c' _ Hshape eq_refl)
      as (cur' & E' & Hshape').
    exists cur'. split; [exact E'|].
    exists seps, (cL ++ c' :: cR). auto.
  - intros sep c1 c2 k1 k2 H1 H2 Ha Hb.
    assert (Hlbs : lb comparator seps sep = length cL).
    { rewrite HlcL. apply Hlb. split; auto. now apply sbelow_below. }
    subst seps.
    destruct (absorb_split _ _ sL sR cL c cR c1 c2 sep
                (Z.of_nat (length cL)) Hshape Hs)
      as (cur1 & cur' & E1 & E2 & Hshape'); try lia; try reflexivity.
    exists cur1, cur'. split; [exact E1|]. split; [exact E2|].
    exists (sL ++ sep :: sR), (cL ++ c1 :: c2 :: cR). auto.
Qed.

Lemma upsert_focus k v (kvL kvC kvR : list (KeyT * ValueT)) :
  Forall (fun x => lt x k = true) (map fst kvL) ->
  Forall (fun x => lt k x = true) (map fst kvR) ->
  upsert comparator k v (kvL ++ kvC ++ kvR)
  = kvL ++ upsert comparator k v kvC ++ kvR.
Proof.
  intros HL HR. rewrite upsert_skip_left by assumption.
  now rewrite upsert_cut_right.
Qed.

(** The entries of the two halves around [sep], on either side of [k]. *)
Lemma upsert_right_half h lo sep hi' (c1 : Node) k v
      (k1 k2 : list (KeyT * ValueT)) :
  rep h lo (Some sep) c1 k1 -> lt sep k = true ->
  upsert comparator k v (k1 ++ k2) = k1 ++ upsert comparator k v k2.
Proof.
  intros H E. apply upsert_skip_left.
  eapply Forall_impl; [|apply (rep_range _ _ _ _ _ H)].
  intros x [_ Hx]. simpl in Hx. eapply le_lt_trans; eauto.
Qed.

Lemma upsert_left_half h sep hi (c2 : Node) k v
      (k1 k2 : list (KeyT * ValueT)) :
  rep h (Some sep) hi c2 k2 -> lt sep k = false ->
  upsert comparator k v (k1 ++ k2) = upsert comparator k v k1 ++ k2.
Proof.
  intros H E. apply upsert_cut_right.
  eapply Forall_impl; [|apply (rep_range _ _ _ _ _ H)].
  intros x [Hx _]. simpl in Hx. eapply le_lt_trans; eauto.
Qed.

(** ** The descent of [put] *)
Lemma put_loop_rep h : forall fuel lo hi (cur : Node) kvs k v,
  rep (S h) lo hi cur kvs -> key_count cur < kCapacity ->
  in_range lo hi k -> (S h <= fuel)%nat ->
  exists cur', put_loop comparator kCapacity fuel cur k v = Some cur'
    /\ rep (S h) lo hi cur' (upsert comparator k v kvs).
Proof.
  induction h as [|h IH]; intros fuel lo hi cur kvs k v Hrep Hroom Hk Hf;
    destruct (descend _ _ _ _ _ k Hrep Hroom Hk)
      as (kc & keys & children & pos & b & c & kvL & kvC & kvR & lo' & hi' &
          -> & Elb & Erd & -> & HR & Hin & HfL & HfR & Hnos & Hspl);
    (destruct fuel as [|fuel]; [lia|]);
    cbn [put_loop]; rewrite Elb; cbn [bind]; rewrite Erd; cbn [bind];
    rewrite upsert_focus by assumption.
  - (* the children are leaves *)
    change (Z.of_nat 1 =? 1) with true. cbn iota.
    pose proof HR as ((ckrest & cvrest & -> & Hccap & Hclen) & Hcs & Hcr).
    destruct (Z.leb_spec kCapacity (Z.of_nat (length kvC))) as [Hfull|Hfree].
    + destruct (leaf_split_rep lo' hi' _ kvC HR)
        as (l & r & sep & k1 & k2 & E & Ek & Hl & Hr & Ha & Hb & Hl1 & Hl2);
        [lia|].
      rewrite E. cbn [bind].
      destruct (lt sep k) eqn:Ec.
      * destruct (leaf_insert_rep (Some sep) hi' r k2 k v Hr) as (r' & E' & Hr');
          [split; [exact Ec|apply Hin] | exact Hl2 |].
        rewrite E'. cbn [bind].
        destruct (Hspl sep l r' k1 _ Hl Hr' Ha Hb)
          as (cur1 & cur' & E1 & E2 & Hrep').
        rewrite E1. cbn [bind]. rewrite E2.
        exists cur'. split; [reflexivity|].
        rewrite Ek, (upsert_right_half _ _ _ hi' _ k v k1 k2 Hl Ec).
        exact Hrep'.
      * destruct (leaf_insert_rep lo' (Some sep) l k1 k v Hl) as (l' & E' & Hl');
          [split; [apply Hin|exact Ec] | exact Hl1 |].
        rewrite E'. cbn [bind].
        destruct (Hspl sep l' r _ k2 Hl' Hr Ha Hb)
          as (cur1 & cur' & E1 & E2 & Hrep').
        rewrite E1. cbn [bind]. rewrite E2.
        exists cur'. split; [reflexivity|].
        rewrite Ek, (upsert_left_half _ _ _ _ k v k1 k2 Hr Ec).
        exact Hrep'.
    + destruct (leaf_insert_rep lo' hi' _ kvC k v HR Hin Hfree)
        as (c' & E' & HR').
      rewrite E'. cbn [bind].
      destruct (Hnos c' _ HR') as (cur' & E1 & Hrep').
      exists cur'. split; assumption.
  - (* the children are inner nodes *)
    destruct (Z.eqb_spec (Z.of_nat (S (S h))) 1) as [Habs|_]; [lia|].
    pose proof HR as (cseps & ccs & Hcshape & Hclv & Hcc).
    pose proof Hcshape as (ckrest & ccrest & -> & Hclen & Hckl & Hccl).
    cbn iota.
    destruct (Z.leb_spec kCapacity (Z.of_nat (length ccs))) as [Hfull|Hfree].
    + destruct (inner_split_rep h lo' hi' _ kvC HR)
        as (l & r0 & sep & k1 & k2 & E & Ek & Hl & Hr & Ha & Hb & Hl1 & Hl2).
      { cbn [key_count]. lia. }
      rewrite E. cbn [bind].
      destruct (lt sep k) eqn:Ecmp.
      * destruct (IH fuel (Some sep) hi' _ k2 k v Hr Hl2) as (r' & E' & Hr');
          [split; [exact Ecmp|apply Hin] | lia |].
        rewrite E'. cbn [bind].
        destruct (Hspl sep l r' k1 _ Hl Hr' Ha Hb)
          as (cur1 & cur' & E1 & E2 & Hrep').
        rewrite E1. cbn [bind]. rewrite E2.
        exists cur'. split; [reflexivity|].
        rewrite Ek, (upsert_right_half _ _ _ hi' _ k v k1 k2 Hl Ecmp).
        exact Hrep'.
      * destruct (IH fuel lo' (Some sep) l k1 k v Hl Hl1) as (l' & E' & Hl');
          [split; [apply Hin|exact Ecmp] | lia |].
        rewrite E'. cbn [bind].
        destruct (Hspl sep l' _ _ k2 Hl' Hr Ha Hb)
          as (cur1 & cur' & E1 & E2 & Hrep').
        rewrite E1. cbn [bind]. rewrite E2.
        exists cur'. split; [reflexivity|].
        rewrite Ek, (upsert_left_half _ _ _ _ k v k1 k2 Hr Ecmp).
        exact Hrep'.
    + destruct (IH fuel lo' hi' _ kvC k v HR) as (c' & E' & HR');
        [cbn [key_count]; lia | exact Hin | lia |].
      rewrite E'. cbn [bind].
      destruct (Hnos c' _ HR') as (cur' & E1 & Hrep').
      exists cur'. split; assumption.
Qed.

(** ** The fuel of the loops is enough *)

Lemma height_child (c : Node) children :
  In (Some c) children ->
  (height c <= fold_right
                 (fun c acc => match c with
                               | Some c' => Nat.max (height c') acc
                               | None => acc
                               end) O children)%nat.
Proof.
  induction children as [|[c'|] t IH]; simpl; intros H.
  - contradiction.
  - destruct H as [H|H]; [injection H as ->; lia|].
    specialize (IH H). lia.
  - destruct H as [H|H]; [discriminate|]. auto.
Qed.

Lemma chain_head R lo hi seps cs kvs :
  chain R lo hi seps cs kvs ->
  exists c cs' hi' kvs', cs = c :: cs' /\ R lo hi' c kvs'.
Proof. destruct 1; eauto 8. Qed.

Lemma rep_height h : forall lo hi (n : Node) kvs,
  rep h lo hi n kvs -> (h <= height n)%nat.
Proof.
  induction h as [|h IH]; intros lo hi n kvs H; [lia|].
  destruct H as (seps & cs & (krest & crest & -> & _) & _ & Hc).
  destruct (chain_head _ _ _ _ _ _ Hc) as (c & cs' & hi' & kvs' & -> & HR).
  specialize (IH _ _ _ _ HR).
  cbn [height].
  pose proof (height_child c (arr (c :: cs') crest)) as Hh.
  cbn [arr map app] in Hh. specialize (Hh (or_introl eq_refl)).
  unfold arr. cbn [map app]. lia.
Qed.

(** ** The new root of a root split *)
Lemma make_root_rep h lo hi (l r : Node) sep k1 k2 lv :
  2 <= kCapacity ->
  rep h lo (Some sep) l k1 -> rep h (Some sep) hi r k2 ->
  above lo sep -> sbelow sep hi ->
  lv = Z.of_nat (S h) -> lv <= 65535 ->
  exists root', make_root comparator kCapacity lv l sep r = Some root'
    /\ rep (S h) lo hi root' (k1 ++ k2)
    /\ children_of root' = [l; r].
Proof.
  clear cap_min.
  intros Hcap1 Hl Hr Ha Hb -> Hlv.
  unfold make_root, new_InnerNode.
  assert (Hfresh : forall A : Type,
            exists rest, fresh_array (A:=A) kCapacity = None :: rest
                         /\ Z.of_nat (S (length rest)) = kCapacity).
  { intros A. unfold fresh_array.
    destruct (Z.to_nat kCapacity) as [|m] eqn:Em; [lia|].
    exists (repeat None m). split; [reflexivity|].
    rewrite repeat_length. lia. }
  destruct (Hfresh Node) as (crest & Ec & Hcl).
  destruct (Hfresh KeyT) as (krest & Ek & Hkl).
  rewrite Ec. unfold wr. rewrite (put_slot_mid [] None crest) by reflexivity.
  cbn [bind app].
  rewrite u16_small by lia.
  assert (Hshape : inner_shape kCapacity
                     (Inner (Z.of_nat (S h)) 1 (fresh_array kCapacity)
                            (Some l :: crest))
                     (Z.of_nat (S h)) [] [l]).
  { exists (fresh_array kCapacity), crest.
    split; [reflexivity|]. split; [reflexivity|].
    rewrite fresh_array_length. simpl length. split; lia. }
  destruct (insert_split_shape comparator kCapacity STO cap_u16 _ _ [] [l]
              sep r Hshape) as (root' & E & Hshape').
  { constructor. }
  { simpl. lia. }
  exists root'. split; [exact E|]. split.
  - exists [sep], [l; r]. split; [exact Hshape'|]. split; [lia|].
    constructor; auto. now constructor.
  - destruct Hshape' as (krest' & crest' & -> & _).
    cbn [children_of]. rewrite Nat2Z.id. apply slots_take_arr.
Qed.

(** ** [put] on a well-formed tree *)

Definition tree_rep (t : @Btree KeyT ValueT) kvs : Prop :=
  match t with
  | None => kvs = []
  | Some r => exists h, rep h None None r kvs
  end.

Definition root_level (t : @Btree KeyT ValueT) : Z :=
  match t with
  | None => 0
  | Some r => level r
  end.

Lemma rep_level h lo hi (n : Node) kvs :
  rep h lo hi n kvs -> level n = Z.of_nat h.
Proof.
  destruct h as [|h]; intros H.
  - destruct H as ((krest & vrest & -> & _) & _). reflexivity.
  - destruct H as (seps & cs & (krest & crest & -> & _) & _). reflexivity.
Qed.

Lemma new_LeafNode_rep :
  0 <= kCapacity -> rep 0 None None (new_LeafNode kCapacity) [].
Proof.
  clear cap_min. intros Hcap0.
  split; [|split; constructor].
  exists (fresh_array kCapacity), (fresh_array kCapacity).
  split; [reflexivity|]. rewrite !fresh_array_length. simpl. split; lia.
Qed.

Lemma in_range_open k : in_range None None k.
Proof. split; exact I. Qed.

Lemma cap_ge2 : 2 <= kCapacity.
Proof. lia. Qed.

Lemma put_rep t kvs k v :
  tree_rep t kvs -> root_level t < 65535 ->
  exists t', put comparator kCapacity t k v = Some t'
    /\ tree_rep t' (upsert comparator k v kvs)
    /\ root_level t' <= root_level t + 1.
Proof.
  intros Htree Hlv. destruct t as [r|].
  2:{ (* the empty tree *)
      simpl in Htree. subst kvs. unfold put.
      destruct (leaf_insert_rep None None _ [] k v
                  (new_LeafNode_rep ltac:(lia)) (in_range_open k))
        as (n' & E & Hrep); [simpl; lia|].
      rewrite E. cbn [bind]. eexists; split; [reflexivity|].
      split; [exists O; exact Hrep|].
      simpl. rewrite (rep_level _ _ _ _ _ Hrep). lia. }
  destruct Htree as [h Hrep]. simpl in Hlv.
  pose proof (rep_level _ _ _ _ _ Hrep) as Hlevel.
  pose proof (rep_height _ _ _ _ _ Hrep) as Hheight.
  unfold put, is_leaf. rewrite Hlevel.
  destruct h as [|h].
  - (* the root is a leaf *)
    change (Z.of_nat 0 =? 0) with true. cbn iota.
    pose proof Hrep as ((krest & vrest & -> & Hcap & Hlen) & Hs & Hr).
    destruct (Z.leb_spec kCapacity (Z.of_nat (length kvs))) as [Hfull|Hfree].
    + destruct (leaf_split_rep None None _ kvs Hrep)
        as (l & r & sep & k1 & k2 & E & Ek & Hl & Hrr & Ha & Hb & Hl1 & Hl2);
        [lia|].
      rewrite E. cbn [bind].
      destruct (lt sep k) eqn:Ec.
      * destruct (leaf_insert_rep (Some sep) None r k2 k v Hrr)
          as (r' & E' & Hr'); [split; [exact Ec|exact I] | exact Hl2 |].
        rewrite E'. cbn [bind].
        destruct (make_root_rep 0 None None l r' sep k1 _ 1 cap_ge2 Hl Hr' Ha Hb)
          as (root' & E1 & Hrep' & _); [reflexivity|lia|].
        rewrite E1. cbn [bind]. eexists; split; [reflexivity|].
        split.
        -- exists 1%nat.
           rewrite Ek, (upsert_right_half _ _ _ None _ k v k1 k2 Hl Ec).
           exact Hrep'.
        -- simpl. rewrite (rep_level _ _ _ _ _ Hrep'). simpl. lia.
      * destruct (leaf_insert_rep None (Some sep) l k1 k v Hl)
          as (l' & E' & Hl'); [split; [exact I|exact Ec] | exact Hl1 |].
        rewrite E'. cbn [bind].
        destruct (make_root_rep 0 None None l' r sep _ k2 1 cap_ge2 Hl' Hrr Ha Hb)
          as (root' & E1 & Hrep' & _); [reflexivity|lia|].
        rewrite E1. cbn [bind]. eexists; split; [reflexivity|].
        split.
        -- exists 1%nat.
           rewrite Ek, (upsert_left_half _ _ _ _ k v k1 k2 Hrr Ec).
           exact Hrep'.
        -- simpl. rewrite (rep_level _ _ _ _ _ Hrep'). simpl. lia.
    + destruct (leaf_insert_rep None None _ kvs k v Hrep (in_range_open k) Hfree)
        as (n' & E & Hrep').
      rewrite E. cbn [bind]. eexists; split; [reflexivity|].
      split; [exists O; exact Hrep'|].
      simpl. rewrite (rep_level _ _ _ _ _ Hrep'). lia.
  - (* the root is an inner node *)
    destruct (Z.eqb_spec (Z.of_nat (S h)) 0) as [Habs|_]; [lia|].
    assert (Hfuel : (S h <= S (height r))%nat) by lia.
    remember (S (height r)) as fuel eqn:Efuel. clear Efuel Hheight.
    pose proof Hrep
      as (seps & cs & (krest & crest & -> & Hclen & Hkl & Hcl) & _ & _).
    cbn iota.
    destruct (Z.leb_spec kCapacity (Z.of_nat (length cs))) as [Hfull|Hfree].
    + destruct (inner_split_rep h None None _ kvs Hrep)
        as (l & r0 & sep & k1 & k2 & E & Ek & Hl & Hrr & Ha & Hb & Hl1 & Hl2).
      { cbn [key_count]. lia. }
      rewrite E. cbn [bind].
      pose proof (rep_level _ _ _ _ _ Hl) as Hll.
      destruct (lt sep k) eqn:Ec.
      * destruct (put_loop_rep h fuel (Some sep) None _ k2 k v Hrr Hl2)
          as (r' & E' & Hr'); [split; [exact Ec|exact I] | lia |].
        rewrite E'. cbn [bind].
        destruct (make_root_rep (S h) None None l r' sep k1 _
                    (level l + 1) cap_ge2 Hl Hr' Ha Hb)
          as (root' & E1 & Hrep' & _); [lia|lia|].
        rewrite E1. cbn [bind]. eexists; split; [reflexivity|].
        split.
        -- exists (S (S h)).
           rewrite Ek, (upsert_right_half _ _ _ None _ k v k1 k2 Hl Ec).
           exact Hrep'.
        -- simpl. rewrite (rep_level _ _ _ _ _ Hrep'). lia.
      * destruct (put_loop_rep h fuel None (Some sep) l k1 k v Hl Hl1)
          as (l' & E' & Hl'); [split; [exact I|exact Ec] | lia |].
        rewrite E'. cbn [bind].
        destruct (make_root_rep (S h) None None l' _ sep _ k2
                    (level l + 1) cap_ge2 Hl' Hrr Ha Hb)
          as (root' & E1 & Hrep' & _); [lia|lia|].
        rewrite E1. cbn [bind]. eexists; split; [reflexivity|].
        split.
        -- exists (S (S h)).
           rewrite Ek, (upsert_left_half _ _ _ _ k v k1 k2 Hrr Ec).
           exact Hrep'.
        -- simpl. rewrite (rep_level _ _ _ _ _ Hrep'). lia.
    + destruct (put_loop_rep h fuel None None _ kvs k v Hrep)
        as (r' & E' & Hr'); [cbn [key_count]; lia
                            | apply in_range_open | lia |].
      rewrite E'. cbn [bind]. eexists; split; [reflexivity|].
      split; [exists (S h); exact Hr'|].
      simpl. rewrite (rep_level _ _ _ _ _ Hr'). lia.
Qed.

(** ** Runs *)

Lemma get_rep t kvs k :
  tree_rep t kvs -> get comparator t k = Some (lookup comparator k kvs).
Proof.
  destruct t as [r|]; simpl.
  - intros [h H].
    apply (get_loop_rep h _ None None r kvs k H (in_range_open k)).
    eapply rep_height; eauto.
  - intros ->. reflexivity.
Qed.

(** The entries after a run. *)
Definition apply_op (kvs : list (KeyT * ValueT)) (o : @op KeyT ValueT) :=
  match o with
  | Get _ => kvs
  | Put k v => upsert comparator k v kvs
  end.

Lemma run_rep ops : forall t kvs,
  tree_rep t kvs ->
  root_level t + Z.of_nat (length ops) <= 65535 ->
  exists t', run comparator kCapacity t ops = Some t'
    /\ tree_rep t' (fold_left apply_op ops kvs)
    /\ root_level t' <= root_level t + Z.of_nat (length ops).
Proof.
  induction ops as [|[k|k v] ops IH]; intros t kvs Ht Hlv.
  - exists t. simpl. repeat split; auto. lia.
  - cbn [run]. rewrite (get_rep t kvs k Ht). cbn [bind].
    destruct (IH t kvs Ht) as (t' & E & Ht' & Hl);
      [cbn [length] in Hlv; lia|].
    exists t'. repeat split; auto. cbn [length]. lia.
  - cbn [run].
    destruct (put_rep t kvs k v Ht) as (t1 & E1 & Ht1 & Hl1);
      [cbn [length] in Hlv; lia|].
    rewrite E1. cbn [bind].
    destruct (IH t1 _ Ht1) as (t' & E & Ht' & Hl);
      [cbn [length] in Hlv; lia|].
    exists t'. repeat split; auto. cbn [length]. lia.
Qed.

Definition put_op (p : KeyT * ValueT) : @op KeyT ValueT :=
  Put (fst p) (snd p).

Lemma put_all_run ops : forall t,
  put_all comparator kCapacity t ops
  = run comparator kCapacity t (map put_op ops).
Proof.
  induction ops as [|[k v] ops IH]; intros t; simpl; auto.
  destruct (put comparator kCapacity t k v); simpl; auto.
Qed.

(** ** Reading back what was put *)

Lemma lookup_upsert_same k v kvs :
  lookup comparator k (upsert comparator k v kvs) = Some v.
Proof.
  induction kvs as [|[a va] t IH]; simpl.
  - now rewrite (lt_irrefl _ STO).
  - destruct (lt a k) eqn:E1; simpl.
    + now rewrite E1.
    + destruct (lt k a) eqn:E2; simpl.
      * now rewrite (lt_irrefl _ STO).
      * now rewrite E1, E2.
Qed.

Lemma lookup_upsert_other k k' v kvs :
  k <> k' ->
  lookup comparator k' (upsert comparator k v kvs) = lookup comparator k' kvs.
Proof.
  intros Hne. induction kvs as [|[a va] t IH]; simpl.
  - destruct (lt k k') eqn:E1; [reflexivity|].
    destruct (lt k' k) eqn:E2; [reflexivity|].
    destruct Hne. apply (lt_total _ STO); assumption.
  - destruct (lt a k) eqn:E1; simpl.
    + destruct (lt a k'); auto.
    + destruct (lt k a) eqn:E2; simpl.
      * destruct (lt k k') eqn:E3; [reflexivity|].
        destruct (lt k' k) eqn:E4.
        -- rewrite (lt_trans _ STO _ _ _ E4 E2).
           now rewrite (lt_asym _ STO _ _ (lt_trans _ STO _ _ _ E4 E2)).
        -- destruct Hne. apply (lt_total _ STO); assumption.
      * assert (a = k) as -> by (apply (lt_total _ STO); assumption).
        destruct (lt k k') eqn:E3; [reflexivity|].
        destruct (lt k' k) eqn:E4; [reflexivity|].
        destruct Hne. apply (lt_total _ STO); assumption.
Qed.

(** The value of the most recent [put] of [k] in a run of [put]s. *)
Fixpoint last_put (k : KeyT) (ops : list (KeyT * ValueT)) : option ValueT :=
  match ops with
  | [] => None
  | (k', v) :: ops' =>
      match last_put k ops' with
      | Some v' => Some v'
      | None => if keq comparator k' k then Some v else None
      end
  end.

Lemma keq_eq a b : keq comparator a b = true <-> a = b.
Proof.
  unfold keq. split.
  - intros H. apply andb_prop in H as [H1 H2].
    apply negb_true_iff in H1, H2. apply (lt_total _ STO); assumption.
  - intros ->. now rewrite (lt_irrefl _ STO).
Qed.

Lemma lookup_puts ops : forall kvs k,
  lookup comparator k
    (fold_left apply_op (map put_op ops) kvs)
  = match last_put k ops with
    | Some v => Some v
    | None => lookup comparator k kvs
    end.
Proof.
  induction ops as [|[k' v] ops IH]; intros kvs k; cbn [map fold_left last_put].
  - reflexivity.
  - rewrite IH. cbn [apply_op put_op fst snd].
    destruct (last_put k ops); [reflexivity|].
    destruct (keq comparator k' k) eqn:E.
    + apply keq_eq in E as ->. apply lookup_upsert_same.
    + apply lookup_upsert_other. intros ->.
      rewrite (proj2 (keq_eq k k) eq_refl) in E. discriminate.
Qed.

(** ** Every node of a well-formed tree is well-formed *)

Lemma chain_children R lo hi seps cs kvs :
  chain R lo hi seps cs kvs ->
  Forall (fun c => exists lo' hi' kvs', R lo' hi' c kvs') cs.
Proof. induction 1; constructor; eauto. Qed.

Lemma chain_entries R lo hi seps cs kvs :
  chain R lo hi seps cs kvs ->
  (forall lo' hi' c kvs', R lo' hi' c kvs' -> entries c = kvs') ->
  flat_map (@entries KeyT ValueT) cs = kvs.
Proof.
  intros H HR. induction H; simpl.
  - rewrite app_nil_r. eauto.
  - f_equal; eauto.
Qed.

Lemma entries_below (cs : list Node) crest :
  (fix below (k : nat) (a : list (option Node)) {struct a}
     : list (KeyT * ValueT) :=
     match k, a with
     | S k', Some c :: t => entries c ++ below k' t
     | S k', None :: t => below k' t
     | _, _ => []
     end) (length cs) (arr cs crest)
  = flat_map (@entries KeyT ValueT) cs.
Proof.
  induction cs as [|c cs IH]; simpl.
  - destruct crest; reflexivity.
  - f_equal. exact IH.
Qed.

Lemma rep_entries h : forall lo hi (n : Node) kvs,
  rep h lo hi n kvs -> entries n = kvs.
Proof.
  induction h as [|h IH]; intros lo hi n kvs H.
  - destruct H as ((krest & vrest & -> & _) & _).
    cbn [entries]. rewrite Nat2Z.id.
    rewrite !slots_take_arr_n by (now rewrite length_map).
    clear. induction kvs as [|[k v] t IHt]; simpl; congruence.
  - destruct H as (seps & cs & (krest & crest & -> & _) & _ & Hc).
    cbn [entries]. rewrite Nat2Z.id, entries_below.
    eapply chain_entries; eauto.
Qed.

Lemma tree_rep_entries t kvs : tree_rep t kvs -> tree_entries t = kvs.
Proof.
  destruct t as [r|]; simpl.
  - intros [h H]. eapply rep_entries; eauto.
  - auto.
Qed.

Lemma rep_children h lo hi (n : Node) kvs :
  rep (S h) lo hi n kvs ->
  Forall (fun c => exists lo' hi' kvs', rep h lo' hi' c kvs') (children_of n).
Proof.
  intros (seps & cs & (krest & crest & -> & _) & _ & Hc).
  cbn [children_of]. rewrite Nat2Z.id, slots_take_arr.
  eapply chain_children; eauto.
Qed.

Lemma rep_in_tree (m n : Node) :
  in_tree m n -> forall h lo hi kvs,
  rep h lo hi n kvs ->
  exists h' lo' hi' kvs', rep h' lo' hi' m kvs'.
Proof.
  induction 1 as [|n c Hin Hm IH]; intros h lo hi kvs H.
  - eauto.
  - destruct h as [|h].
    + destruct H as ((krest & vrest & -> & _) & _). destruct Hin.
    + pose proof (rep_children _ _ _ _ _ H) as Hall.
      rewrite Forall_forall in Hall.
      destruct (Hall _ Hin) as (lo' & hi' & kvs' & Hc).
      eapply IH; eauto.
Qed.

(** ** The invariants of the data model, node by node *)



Definition counts_ok (n : Node) : Prop :=
  match n with
  | Leaf _ kc keys values =>
      0 <= kc <= kCapacity
      /\ Z.of_nat (length keys) = kCapacity
      /\ Z.of_nat (length values) = kCapacity
      /\ forall i, 0 <= i < kc ->
           (exists k, rd keys i = Some k) /\ (exists v, rd values i = Some v)
  | Inner _ kc keys children =>
      1 <= kc <= kCapacity
      /\ Z.of_nat (length keys) = kCapacity
      /\ Z.of_nat (length children) = kCapacity
      /\ (forall i, 0 <= i < kc -> exists c, rd children i = Some c)
      /\ (forall i, 0 <= i < kc - 1 -> exists k, rd keys i = Some k)
  end.

Definition levels_ok (n : Node) : Prop :=
  0 <= level n
  /\ (level n = 0 <-> is_LeafNode n = true)
  /\ (0 < level n <-> is_LeafNode n = false)
  /\ forall c, In c (children_of n) -> level c = level n - 1.

Lemma rd_arr_ex {A : Type} (l : list A) rest i :
  0 <= i < Z.of_nat (length l) ->
  exists x, nth_error l (Z.to_nat i) = Some x /\ rd (arr l rest) i = Some x.
Proof.
  intros Hi.
  destruct (nth_error l (Z.to_nat i)) as [x|] eqn:E.
  - exists x. split; [reflexivity|].
    apply (rd_arr l rest (Z.to_nat i)); [exact E|lia].
  - apply nth_error_None in E. lia.
Qed.



Lemma rep_counts_ok h lo hi (n : Node) kvs :
  rep h lo hi n kvs -> counts_ok n.
Proof.
  destruct h as [|h]; intros H.
  - destruct H as ((krest & vrest & -> & Hcap & Hlen) & _).
    cbn [counts_ok]. rewrite !arr_length, !length_map.
    split; [lia|]. split; [lia|]. split; [lia|].
    intros i Hi. split.
    + destruct (rd_arr_ex (map fst kvs) krest i) as (x & _ & Hx);
        [rewrite length_map; lia|eauto].
    + destruct (rd_arr_ex (map snd kvs) vrest i) as (x & _ & Hx);
        [rewrite length_map; lia|eauto].
  - destruct H as (seps & cs & (krest & crest & -> & Hlen & Hkl & Hcl) & _ & _).
    cbn [counts_ok]. rewrite !arr_length.
    split; [lia|]. split; [lia|]. split; [lia|]. split.
    + intros i Hi.
      destruct (rd_arr_ex cs crest i) as (x & _ & Hx); [lia|eauto].
    + intros i Hi.
      destruct (rd_arr_ex seps krest i) as (x & _ & Hx); [lia|eauto].
Qed.

Lemma rep_levels_ok h lo hi (n : Node) kvs :
  rep h lo hi n kvs -> levels_ok n.
Proof.
  intros H. pose proof (rep_level _ _ _ _ _ H) as Hl.
  unfold levels_ok. rewrite Hl.
  destruct h as [|h].
  - destruct H as ((krest & vrest & -> & _) & _). cbn.
    repeat split; auto; try lia; try discriminate; try contradiction.
  - pose proof (rep_children _ _ _ _ _ H) as Hall.
    destruct H as (seps & cs & (krest & crest & -> & _) & _ & _).
    cbn [is_LeafNode].
    repeat split; auto; try lia; try discriminate.
    intros c Hc. rewrite Forall_forall in Hall.
    destruct (Hall c Hc) as (lo' & hi' & kvs' & Hrc).
    rewrite (rep_level _ _ _ _ _ Hrc). lia.
Qed.

(** ** The lock events do not change the result of [get] *)
Lemma get_loop_events_result fuel : forall (n : Node) k,
  option_map snd (get_loop_events comparator fuel n k)
  = get_loop comparator fuel n k.
Proof.
  clear cap_min cap_u16 STO.
  induction fuel as [|fuel IH]; intros n k.
  - simpl. destruct (is_leaf n); [|destruct n; reflexivity].
    destruct n as [lv kc keys values|]; [|reflexivity].
    destruct (leaf_lower_bound comparator kc keys k) as [[pos [|]]|];
      cbn [bind option_map]; try reflexivity.
    destruct (rd values pos); reflexivity.
  - cbn [get_loop_events get_loop]. destruct (is_leaf n).
    + destruct n as [lv kc keys values|]; [|reflexivity].
      destruct (leaf_lower_bound comparator kc keys k) as [[pos [|]]|];
        cbn [bind option_map]; try reflexivity.
      destruct (rd values pos); reflexivity.
    + destruct n as [|lv kc keys children]; [reflexivity|].
      destruct (inner_lower_bound comparator kc keys k) as [[pos b]|];
        cbn [bind option_map]; [|reflexivity].
      destruct (rd children pos) as [c|]; cbn [bind option_map]; [|reflexivity].
      rewrite <- IH.
      destruct (get_loop_events comparator fuel c k) as [[ev res]|];
        reflexivity.
Qed.

Lemma get_events_result (t : @Btree KeyT ValueT) k :
  option_map snd (get_events comparator t k) = get comparator t k.
Proof.
  clear cap_min cap_u16 STO.
  destruct t as [r|]; [|reflexivity].
  unfold get_events, get. rewrite <- get_loop_events_result.
  destruct (get_loop_events comparator (height r) r k) as [[ev res]|];
    reflexivity.
Qed.

Lemma lookup_absent k kvs :
  ~ In k (map fst kvs) -> lookup comparator k kvs = None.
Proof.
  induction kvs as [|[a va] t IH]; simpl; intros H; auto.
  destruct (lt a k) eqn:E1; [apply IH; tauto|].
  destruct (lt k a) eqn:E2; [reflexivity|].
  destruct H. left. apply (lt_total _ STO); assumption.
Qed.

Lemma lookup_sorted_In k v kvs :
  sorted comparator (map fst kvs) -> In (k, v) kvs ->
  lookup comparator k kvs = Some v.
Proof.
  unfold sorted.
  induction kvs as [|[a va] t IH]; simpl; intros Hs Hin; [contradiction|].
  inversion Hs as [|? ? Hs' Hall]; subst.
  destruct Hin as [Heq|Hin].
  - injection Heq as -> ->. now rewrite (lt_irrefl _ STO).
  - rewrite Forall_forall in Hall.
    assert (Hlt : lt a k = true).
    { apply Hall. apply (in_map fst) in Hin. exact Hin. }
    rewrite Hlt. auto.
Qed.

(** ** Further facts on keys of the tree *)

Lemma upsert_keys_idem k v1 v2 kvs :
  map fst (upsert comparator k v2 (upsert comparator k v1 kvs))
  = map fst (upsert comparator k v1 kvs).
Proof.
  induction kvs as [|[a va] t IH]; simpl.
  - now rewrite (lt_irrefl _ STO).
  - destruct (lt a k) eqn:E1; simpl.
    + rewrite E1. simpl. now rewrite IH.
    + destruct (lt k a) eqn:E2; simpl.
      * now rewrite (lt_irrefl _ STO).
      * now rewrite E1, E2.
Qed.

Lemma upsert_In_key k v kvs : In k (map fst (upsert comparator k v kvs)).
Proof.
  induction kvs as [|[a va] t IH]; simpl; auto.
  destruct (lt a k) eqn:E1; simpl; auto.
  destruct (lt k a) eqn:E2; simpl; auto.
  left. apply (lt_total _ STO); assumption.
Qed.

Lemma lb_at_key (l : list KeyT) : sorted comparator l -> forall i s,
  nth_error l i = Some s -> lb comparator l s = i.
Proof.
  induction 1 as [|a l Hs IH Hall]; intros i s Hn.
  - destruct i; discriminate.
  - destruct i as [|i]; simpl in Hn.
    + injection Hn as ->. simpl. now rewrite (lt_irrefl _ STO).
    + rewrite Forall_forall in Hall.
      assert (Hlt : lt a s = true)
        by (apply Hall; eapply nth_error_In; eauto).
      simpl. rewrite Hlt. f_equal. auto.
Qed.

Lemma found_at_key (l : list KeyT) i s :
  sorted comparator l -> nth_error l i = Some s ->
  found_at comparator l s = true.
Proof.
  intros Hs Hn. unfold found_at.
  rewrite (lb_at_key l Hs i s Hn), Hn.
  now rewrite (lt_irrefl _ STO).
Qed.

(** The entries of a well-formed tree are strictly ascending: no key is
    stored twice. *)
Lemma sorted_app (l1 l2 : list KeyT) :
  sorted comparator l1 -> sorted comparator l2 ->
  Forall (fun x => Forall (ltk comparator x) l2) l1 ->
  sorted comparator (l1 ++ l2).
Proof.
  unfold sorted. induction l1 as [|a l1 IH]; simpl; intros H1 H2 H3; auto.
  inversion H1 as [|? ? Hs Hall]; subst. inversion H3; subst.
  constructor; auto. apply Forall_app. split; auto.
Qed.

Lemma chain_sorted R lo hi seps cs kvs :
  (forall lo hi c kvs, R lo hi c kvs ->
     sorted comparator (map fst kvs)
     /\ Forall (in_range lo hi) (map fst kvs)) ->
  chain R lo hi seps cs kvs -> sorted comparator (map fst kvs).
Proof.
  intros HR. induction 1 as [|lo hi s seps c cs kvs1 kvs2 H1 Ha Hb Hc IH].
  - now apply (HR _ _ _ _ H).
  - rewrite map_app. apply sorted_app; auto.
    + now apply (HR _ _ _ _ H1).
    + destruct (HR _ _ _ _ H1) as [_ Hr1].
      assert (Hr2 : Forall (in_range (Some s) hi) (map fst kvs2)).
      { eapply chain_range; [|exact Hc]. intros. now apply (HR _ _ _ _ H). }
      eapply Forall_impl; [|exact Hr1]. intros x [_ Hx].
      eapply Forall_impl; [|exact Hr2]. intros y [Hy _].
      simpl in *. unfold ltk. eapply le_lt_trans; eauto.
Qed.

Lemma rep_sorted h : forall lo hi (n : Node) kvs,
  rep h lo hi n kvs -> sorted comparator (map fst kvs).
Proof.
  induction h as [|h IH]; intros lo hi n kvs H.
  - apply H.
  - destruct H as (seps & cs & _ & _ & Hc).
    eapply chain_sorted; [|exact Hc].
    intros lo' hi' c kvs' Hc'. split; [eapply IH|eapply rep_range]; eauto.
Qed.

Lemma tree_rep_sorted t kvs :
  tree_rep t kvs -> sorted comparator (map fst kvs).
Proof.
  destruct t as [r|]; simpl.
  - intros [h H]. eapply rep_sorted; eauto.
  - intros ->. constructor.
Qed.

(** ** Filling the first leaf with increasing keys *)

Lemma upsert_last k v kvs :
  Forall (fun x => lt x k = true) (map fst kvs) ->
  upsert comparator k v kvs = kvs ++ [(k, v)].
Proof.
  intros H. rewrite <- (app_nil_r kvs) at 1.
  now rewrite upsert_skip_left.
Qed.

Lemma sorted_last (ks : list KeyT) k :
  sorted comparator (ks ++ [k]) -> Forall (fun x => lt x k = true) ks.
Proof.
  intros H. destruct (sorted_app_inv _ _ H) as (_ & _ & Hc).
  eapply Forall_impl; [|exact Hc].
  intros x Hx. inversion Hx; subst. assumption.
Qed.

(** [put] of a key above all others on a root leaf with a free slot. *)
Lemma put_leaf_root (leaf : Node) kvs k v :
  rep 0 None None leaf kvs -> Z.of_nat (length kvs) < kCapacity ->
  Forall (fun x => lt x k = true) (map fst kvs) ->
  exists leaf', put comparator kCapacity (Some leaf) k v = Some (Some leaf')
    /\ rep 0 None None leaf' (kvs ++ [(k, v)]).
Proof.
  clear cap_min.
  intros Hrep Hroom Hk.
  destruct (leaf_insert_rep None None leaf kvs k v Hrep (in_range_open k) Hroom)
    as (leaf' & E & Hrep').
  rewrite (upsert_last k v kvs Hk) in Hrep'.
  exists leaf'. split; [|exact Hrep'].
  destruct Hrep as ((krest & vrest & -> & _) & _).
  unfold put. cbn [is_leaf level]. change (0 =? 0) with true. cbn iota.
  destruct (Z.leb_spec kCapacity (Z.of_nat (length kvs))); [lia|].
  rewrite E. reflexivity.
Qed.

Lemma fill_leaf ops : forall kvs (leaf : Node),
  rep 0 None None leaf kvs ->
  sorted comparator (map fst (kvs ++ ops)) ->
  Z.of_nat (length kvs + length ops) <= kCapacity ->
  exists leaf', put_all comparator kCapacity (Some leaf) ops = Some (Some leaf')
    /\ rep 0 None None leaf' (kvs ++ ops).
Proof.
  clear cap_min.
  induction ops as [|[k v] ops IH]; intros kvs leaf Hrep Hs Hlen.
  - exists leaf. rewrite app_nil_r. split; [reflexivity|exact Hrep].
  - cbn [put_all length] in *.
    replace (kvs ++ (k, v) :: ops) with ((kvs ++ [(k, v)]) ++ ops) in *
      by (now rewrite <- app_assoc).
    assert (Hk : Forall (fun x => lt x k = true) (map fst kvs)).
    { rewrite map_app in Hs. destruct (sorted_app_inv _ _ Hs) as (Hs1 & _).
      rewrite map_app in Hs1. now apply sorted_last in Hs1. }
    destruct (put_leaf_root leaf kvs k v Hrep) as (leaf1 & E & Hrep1);
      [lia|exact Hk|].
    rewrite E. cbn [bind].
    apply IH; auto. rewrite length_app. simpl. lia.
Qed.

Lemma fill_fresh k v ops :
  sorted comparator (map fst ((k, v) :: ops)) ->
  Z.of_nat (S (length ops)) <= kCapacity ->
  exists leaf, put_all comparator kCapacity new_Btree ((k, v) :: ops)
               = Some (Some leaf)
    /\ rep 0 None None leaf ((k, v) :: ops).
Proof.
  clear cap_min.
  intros Hs Hlen. cbn [put_all]. unfold new_Btree, put.
  destruct (leaf_insert_rep None None _ [] k v
              (new_LeafNode_rep ltac:(lia)) (in_range_open k))
    as (leaf0 & E & Hrep0); [simpl; lia|].
  rewrite E. cbn [bind].
  apply (fill_leaf ops [(k, v)] leaf0 Hrep0 Hs). simpl. lia.
Qed.

(** [put] of a key above all others on a full root leaf: the leaf is
    split and becomes, with its new right neighbour, a child of a new
    root. *)
Lemma put_full_leaf_root (leaf : Node) kvs k v :
  2 <= kCapacity ->
  rep 0 None None leaf kvs -> Z.of_nat (length kvs) = kCapacity ->
  Forall (fun x => lt x k = true) (map fst kvs) ->
  exists root l r kl kr,
    put comparator kCapacity (Some leaf) k v = Some (Some root)
    /\ rep 1 None None root (kvs ++ [(k, v)])
    /\ children_of root = [l; r]
    /\ (exists lo hi, rep 0 lo hi l kl)
    /\ (exists lo hi, rep 0 lo hi r kr).
Proof.
  clear cap_min.
  intros Hcap2 Hrep Hfull Hk.
  destruct (leaf_split_rep_gen None None leaf kvs Hrep)
    as (l & r & sep & vsep & E & Hnth & Hl & Hr & Ha & Hb); [lia|auto|].
  set (m := S (length kvs / 2)) in *.
  assert (Hsk : Forall (fun x => lt x k = true) (map fst (skipn m kvs))).
  { rewrite <- (firstn_skipn m kvs), map_app in Hk.
    now apply Forall_app in Hk as [_ Hk]. }
  assert (Hsep : lt sep k = true).
  { rewrite Forall_forall in Hk. apply Hk.
    apply (in_map fst) with (x := (sep, vsep)).
    eapply nth_error_In; eauto. }
  destruct (leaf_insert_rep (Some sep) None r (skipn m kvs) k v Hr)
    as (r' & E' & Hr'); [split; [exact Hsep|exact I] | |].
  { rewrite length_skipn. unfold m. lia. }
  rewrite (upsert_last k v _ Hsk) in Hr'.
  destruct (make_root_rep 0 None None l r' sep _ _ 1 Hcap2 Hl Hr' Ha Hb)
    as (root & E1 & Hrep1 & Hch); [reflexivity|lia|].
  exists root, l, r', (firstn m kvs), (skipn m kvs ++ [(k, v)]).
  split; [|split; [|split; [exact Hch|split; eauto]]].
  - destruct Hrep as ((krest & vrest & Eleaf & _) & _). subst leaf.
    unfold put.
    cbn [is_leaf level]. change (0 =? 0) with true. cbn iota.
    destruct (Z.leb_spec kCapacity (Z.of_nat (length kvs))); [|lia].
    rewrite E. cbn [bind]. rewrite Hsep, E'. cbn [bind].
    rewrite E1. reflexivity.
  - rewrite app_assoc, firstn_skipn in Hrep1. exact Hrep1.
Qed.
End TreeFacts.

(** * The properties of the tree *)

Section Properties.
Context {KeyT ValueT : Type}.
Variable comparator : KeyT -> KeyT -> bool.
Variable kCapacity : Z.
Hypothesis STO : strict_total_order comparator.

(** A tree that satisfies the invariants of the data model. *)
Definition well_formed (t : @Btree KeyT ValueT) : Prop :=
  exists kvs, tree_rep comparator kCapacity t kvs.

Lemma new_Btree_well_formed : well_formed new_Btree.
Proof. exists []. reflexivity. Qed.

Lemma run_well_formed (ops : list (@op KeyT ValueT)) :
  3 <= kCapacity <= 65535 -> Z.of_nat (length ops) <= 65535 ->
  exists t, run comparator kCapacity new_Btree ops = Some t
    /\ tree_rep comparator kCapacity t
         (fold_left (apply_op comparator) ops [])
    /\ forall r m, t = Some r -> in_tree m r ->
         exists h lo hi kvs, rep comparator kCapacity h lo hi m kvs.
Proof.
  intros [Hc1 Hc2] Hlen.
  destruct (run_rep comparator kCapacity STO Hc1 Hc2 ops new_Btree [])
    as (t & E & Ht & _); [reflexivity|simpl; lia|].
  exists t. split; [exact E|]. split; [exact Ht|].
  intros r m -> Hin. destruct Ht as [h Hrep].
  eapply rep_in_tree; eauto.
Qed.

(** C1 (amended).  For a capacity from 3 to 65535 and a run of at most
    65535 [put]s on a fresh tree, every [put] returns, and afterwards
    [get k] returns the value of the most recent [put] of [k], and
    nothing for a key that was never put. *)
Theorem put_get_roundtrip (ops : list (KeyT * ValueT)) :
  3 <= kCapacity <= 65535 -> Z.of_nat (length ops) <= 65535 ->
  exists t, put_all comparator kCapacity new_Btree ops = Some t
    /\ forall k, get comparator t k = Some (last_put comparator k ops).
Proof.
  intros Hcap Hlen.
  destruct (run_well_formed (map put_op ops) Hcap) as (t & E & Ht & _).
  { now rewrite length_map. }
  exists t. split.
  - now rewrite put_all_run.
  - intros k. rewrite (get_rep comparator kCapacity STO t _ k Ht).
    rewrite (lookup_puts comparator STO). simpl.
    destruct (last_put comparator k ops); reflexivity.
Qed.


(** C7 (amended).  For a capacity from 3 to 65535 and a run of at most
    65535 operations on a fresh tree, every node of the tree has its
    arrays of [kCapacity] slots; a leaf has [0 <= key_count <= kCapacity]
    and its first [key_count] keys and values are set; an inner node has
    [1 <= key_count <= kCapacity], its first [key_count] children and
    its first [key_count - 1] keys are set: [key_count] counts the
    children, one more than the separators. *)
Theorem key_count_counts (ops : list (@op KeyT ValueT)) :
  3 <= kCapacity <= 65535 -> Z.of_nat (length ops) <= 65535 ->
  exists t, run comparator kCapacity new_Btree ops = Some t
    /\ forall r m, t = Some r -> in_tree m r -> counts_ok kCapacity m.
Proof.
  intros Hcap Hlen.
  destruct (run_well_formed ops Hcap Hlen) as (t & E & _ & Hn).
  exists t. split; [exact E|]. intros r m Hr Hin.
  destruct (Hn r m Hr Hin) as (h & lo & hi & kvs & Hrep).
  eapply rep_counts_ok; eauto.
Qed.

(** C8 (amended).  For a capacity from 3 to 65535 and a run of at most
    65535 operations on a fresh tree, every node of the tree has a level
    that is not negative, 0 exactly for a leaf and positive exactly for
    an inner node, and each child of an inner node is one level below
    it. *)
Theorem levels_stay_consistent (ops : list (@op KeyT ValueT)) :
  3 <= kCapacity <= 65535 -> Z.of_nat (length ops) <= 65535 ->
  exists t, run comparator kCapacity new_Btree ops = Some t
    /\ forall r m, t = Some r -> in_tree m r -> levels_ok m.
Proof.
  intros Hcap Hlen.
  destruct (run_well_formed ops Hcap Hlen) as (t & E & _ & Hn).
  exists t. split; [exact E|]. intros r m Hr Hin.
  destruct (Hn r m Hr Hin) as (h & lo & hi & kvs & Hrep).
  eapply rep_levels_ok; eauto.
Qed.


(** C6 (amended).  In the tree left by a run, [put k v1] followed by
    [put k v2] makes [get k] return [v2], and the second [put] leaves
    the keys stored in the leaves as they were: [k] is stored once and
    nothing is added.  (The leaf that holds [k] can shrink: a full leaf
    is split before the entry is overwritten.) *)
Theorem put_twice_overwrites (ops : list (@op KeyT ValueT)) k v1 v2 :
  3 <= kCapacity <= 65535 -> Z.of_nat (length ops) + 2 <= 65535 ->
  exists t t1 t2,
    run comparator kCapacity new_Btree ops = Some t
    /\ put comparator kCapacity t k v1 = Some t1
    /\ put comparator kCapacity t1 k v2 = Some t2
    /\ get comparator t2 k = Some (Some v2)
    /\ In k (map fst (tree_entries t1))
    /\ map fst (tree_entries t2) = map fst (tree_entries t1)
    /\ sorted comparator (map fst (tree_entries t2)).
Proof.
  intros [Hc1 Hc2] Hlen.
  destruct (run_rep comparator kCapacity STO Hc1 Hc2 ops new_Btree [])
    as (t & E & Ht & Hl); [reflexivity|simpl; lia|].
  simpl in Hl.
  destruct (put_rep comparator kCapacity STO Hc1 Hc2 t _ k v1 Ht)
    as (t1 & E1 & Ht1 & Hl1); [lia|].
  destruct (put_rep comparator kCapacity STO Hc1 Hc2 t1 _ k v2 Ht1)
    as (t2 & E2 & Ht2 & Hl2); [lia|].
  exists t, t1, t2.
  rewrite (tree_rep_entries _ _ _ _ Ht1), (tree_rep_entries _ _ _ _ Ht2).
  repeat split; auto.
  - rewrite (get_rep comparator kCapacity STO t2 _ k Ht2).
    now rewrite (lookup_upsert_same comparator STO).
  - apply (upsert_In_key comparator STO).
  - apply (upsert_keys_idem comparator STO).
  - apply (tree_rep_sorted comparator kCapacity STO t2 _ Ht2).
Qed.


Lemma put_all_app (a b : list (KeyT * ValueT)) : forall t,
  put_all comparator kCapacity t (a ++ b)
  = (t' <- put_all comparator kCapacity t a ;;
     put_all comparator kCapacity t' b).
Proof.
  induction a as [|[k v] a IH]; intros t; simpl; auto.
  destruct (put comparator kCapacity t k v); simpl; auto.
Qed.

Lemma rep_kind h lo hi (n : @Node KeyT ValueT) kvs :
  rep comparator kCapacity h lo hi n kvs ->
  level n = Z.of_nat h /\ is_LeafNode n = match h with O => true | S _ => false end.
Proof.
  intros H. split; [eapply rep_level; eauto|].
  destruct h.
  - destruct H as ((krest & vrest & -> & _) & _). reflexivity.
  - destruct H as (seps & cs & (krest & crest & -> & _) & _). reflexivity.
Qed.

(** C5 (amended).  For a capacity from 2 to 65535, the [put]s of
    [kCapacity + 1] strictly increasing keys on a fresh tree leave a tree
    of height 2: the root is an inner node of level 1 whose children are
    two leaves, and [get] returns the value of every one of the keys. *)
Theorem split_after_capacity_plus_one (ops : list (KeyT * ValueT)) :
  2 <= kCapacity <= 65535 ->
  Z.of_nat (length ops) = kCapacity + 1 ->
  sorted comparator (map fst ops) ->
  exists root l r,
    put_all comparator kCapacity new_Btree ops = Some (Some root)
    /\ is_LeafNode root = false /\ level root = 1
    /\ children_of root = [l; r]
    /\ is_LeafNode l = true /\ level l = 0
    /\ is_LeafNode r = true /\ level r = 0
    /\ forall k v, In (k, v) ops ->
         get comparator (Some root) k = Some (Some v).
Proof.
  intros [Hc1 Hc2] Hlen Hs.
  destruct (exists_last (l := ops)) as (ops1 & [k v] & ->).
  { intros ->. simpl in Hlen. lia. }
  rewrite length_app in Hlen. simpl in Hlen.
  destruct ops1 as [|[k0 v0] ops1]; [simpl in Hlen; lia|].
  pose proof Hs as Hs'. rewrite map_app in Hs'.
  destruct (sorted_app_inv comparator _ _ Hs') as (Hs1 & _).
  apply (sorted_last comparator) in Hs'.
  destruct (fill_fresh comparator kCapacity STO Hc2 k0 v0 ops1 Hs1)
    as (leaf & E & Hleaf); [simpl in Hlen; lia|].
  destruct (put_full_leaf_root comparator kCapacity STO Hc2 leaf _ k v
              Hc1 Hleaf) as (root & l & r & kl & kr & E1 & Hroot & Hch & Hl & Hr);
    [lia|exact Hs'|].
  destruct Hl as (ll & lh & Hl). destruct Hr as (rl & rh & Hr).
  destruct (rep_kind _ _ _ _ _ Hroot) as [Hlv Hkind].
  destruct (rep_kind _ _ _ _ _ Hl) as [Hlvl Hkl].
  destruct (rep_kind _ _ _ _ _ Hr) as [Hlvr Hkr].
  exists root, l, r.
  split.
  { rewrite put_all_app, E. cbn [bind put_all]. rewrite E1. reflexivity. }
  repeat split; auto.
  intros k' v' Hin.
  rewrite (get_rep comparator kCapacity STO (Some root) _ k')
    by (exists 1%nat; exact Hroot).
  f_equal. now apply (lookup_sorted_In comparator STO).
Qed.

(** What holds of the two halves of a split: an inner node with two or
    more children, and a leaf with three or more entries, split into two
    nodes with at least one child, respectively one entry, each. *)
Lemma leaf_shape_key_count (n : @Node KeyT ValueT) lv kvs :
  leaf_shape kCapacity n lv kvs -> key_count n = Z.of_nat (length kvs).
Proof. intros (krest & vrest & -> & _). reflexivity. Qed.

Lemma split_halves_nonempty :
  kCapacity <= 65535 ->
  (forall (n : @Node KeyT ValueT) lv seps cs,
      inner_shape kCapacity n lv seps cs -> (2 <= length cs)%nat ->
      exists l r s, inner_split n (new_InnerNode kCapacity) = Some (l, r, s)
        /\ 1 <= key_count l /\ 1 <= key_count r)
  /\ (forall (n : @Node KeyT ValueT) lv kvs,
      leaf_shape kCapacity n lv kvs -> (3 <= length kvs)%nat ->
      exists l r s, leaf_split n (new_LeafNode kCapacity) = Some (l, r, s)
        /\ 1 <= key_count l /\ 1 <= key_count r).
Proof.
  intros Hcap. split.
  - intros n lv seps cs Hshape Hn.
    destruct (inner_split_shape kCapacity Hcap n lv seps cs Hshape Hn)
      as (l & r & s & E & Hl & Hr & _).
    exists l, r, s. split; [exact E|].
    destruct (key_count_inner_shape _ _ _ _ _ Hl) as [-> _].
    destruct (key_count_inner_shape _ _ _ _ _ Hr) as [-> _].
    rewrite length_firstn, length_skipn.
    assert (S ((length cs - 1) / 2) < length cs)%nat; [|lia].
    pose proof (Nat.div_mod_eq (length cs - 1) 2).
    pose proof (Nat.mod_upper_bound (length cs - 1) 2). lia.
  - intros n lv kvs Hshape Hn.
    destruct (leaf_split_shape kCapacity Hcap n lv kvs Hshape)
      as (l & r & s & vs & E & Hl & Hr & _); [lia|].
    exists l, r, s. split; [exact E|].
    rewrite (leaf_shape_key_count _ _ _ Hl), (leaf_shape_key_count _ _ _ Hr).
    rewrite length_firstn, length_skipn.
    assert (S (length kvs / 2) < length kvs)%nat; [|lia].
    pose proof (Nat.div_mod_eq (length kvs) 2).
    pose proof (Nat.mod_upper_bound (length kvs) 2). lia.
Qed.
End Properties.

(** * The tree on integer keys *)

Lemma Zltb_strict_total_order : strict_total_order Z.ltb.
Proof.
  constructor.
  - intros a. apply Z.ltb_irrefl.
  - intros a b c H1 H2. apply Z.ltb_lt in H1, H2. apply Z.ltb_lt. lia.
  - intros a b H1 H2. apply Z.ltb_ge in H1, H2. lia.
Qed.

Definition example_puts : list (Z * Z) :=
  [(1, 10); (2, 20); (3, 30); (4, 40); (2, 21); (7, 70); (5, 50); (6, 60)].

Definition example_ops : list (@op Z Z) :=
  [Put 1 10; Put 2 20; Get 2; Put 3 30; Put 4 40; Get 9; Put 2 21;
   Put 7 70; Put 5 50; Put 6 60].

Lemma put_get_roundtrip_witness :
  exists t, put_all Z.ltb 3 new_Btree example_puts = Some t
    /\ forall k, get Z.ltb t k = Some (last_put Z.ltb k example_puts).
Proof.
  apply put_get_roundtrip;
    [exact Zltb_strict_total_order | lia | simpl; lia].
Defined.


Lemma key_count_counts_witness :
  exists t, run Z.ltb 3 new_Btree example_ops = Some t
    /\ forall r m, t = Some r -> in_tree m r -> counts_ok 3 m.
Proof.
  apply key_count_counts;
    [exact Zltb_strict_total_order | lia | simpl; lia].
Defined.

Lemma levels_stay_consistent_witness :
  exists t, run Z.ltb 3 new_Btree example_ops = Some t
    /\ forall r m, t = Some r -> in_tree m r -> levels_ok m.
Proof.
  apply levels_stay_consistent;
    [exact Zltb_strict_total_order | lia | simpl; lia].
Defined.

(** The tree after [example_puts], with capacity 3. *)
Definition example_tree : @Btree Z Z :=
  Eval vm_compute in
    match put_all Z.ltb 3 new_Btree example_puts with
    | Some t => t
    | None => None
    end.

Lemma example_tree_well_formed : well_formed Z.ltb 3 example_tree.
Proof.
  destruct (run_rep Z.ltb 3 Zltb_strict_total_order ltac:(lia) ltac:(lia)
              (map put_op example_puts) new_Btree [])
    as (t & E & Ht & _); [reflexivity|simpl; lia|].
  rewrite <- put_all_run in E. vm_compute in E. injection E as <-.
  eexists. exact Ht.
Qed.


Lemma put_twice_overwrites_witness :
  exists t t1 t2,
    run Z.ltb 3 new_Btree example_ops = Some t
    /\ put Z.ltb 3 t 4 41 = Some t1
    /\ put Z.ltb 3 t1 4 42 = Some t2
    /\ get Z.ltb t2 4 = Some (Some 42)
    /\ In 4 (map fst (tree_entries t1))
    /\ map fst (tree_entries t2) = map fst (tree_entries t1)
    /\ sorted Z.ltb (map fst (tree_entries t2)).
Proof.
  apply put_twice_overwrites;
    [exact Zltb_strict_total_order | lia | simpl; lia].
Defined.

(** C6, as it is stated, fails: with capacity 3, after [put]s of 1 and 2
    the first [put(3, 30)] fills the leaf ([key_count] 3); the second
    [put(3, 31)] splits the full leaf before it overwrites, and the leaf
    that then holds 3 has [key_count] 1. *)
Lemma put_twice_splits_full_leaf :
  exists t t1 t2 l1 l2,
    put_all Z.ltb 3 new_Btree [(1, 10); (2, 20)] = Some t
    /\ put Z.ltb 3 t 3 30 = Some t1
    /\ put Z.ltb 3 t1 3 31 = Some t2
    /\ leaf_of Z.ltb t1 3 = Some l1 /\ leaf_of Z.ltb t2 3 = Some l2
    /\ key_count l1 = 3 /\ key_count l2 = 1
    /\ key_count l2 <> key_count l1.
Proof.
  do 5 eexists. repeat split; try (vm_compute; reflexivity). discriminate.
Qed.

(** C7, as it is stated, fails for inner nodes: with capacity 3, the root
    after four [put]s is an inner node whose [keys] array holds one
    separator, and its [key_count] is 2, the number of its children. *)
Lemma key_count_is_not_separator_count :
  exists r,
    put_all Z.ltb 3 new_Btree [(1, 10); (2, 20); (3, 30); (4, 40)]
    = Some (Some r)
    /\ is_LeafNode r = false
    /\ keys_of r = [Some 2; None; None]
    /\ length (children_of r) = 2%nat
    /\ key_count r = 2
    /\ key_count r <> Z.of_nat (length (slots_take 3 (keys_of r))).
Proof.
  eexists. repeat split; try (vm_compute; reflexivity). discriminate.
Qed.




(** C3.  At capacity 2 a full leaf does not split in two: [LeafNode::split]
    takes [key_count / 2] as the middle, keeps both entries in the node and
    gives its new right neighbour none, while [InnerNode::split], which
    takes [(key_count - 1) / 2], halves a node with two children.  The leaf
    stays full, and the next [insert] of a smaller key writes past its
    arrays. *)
Theorem leaf_split_capacity_two :
  (exists l r s,
     leaf_split (Leaf 0 2 [Some 1; Some 3] [Some 10; Some 30])
                (@new_LeafNode Z Z 2) = Some (l, r, s)
     /\ key_count l = 2 /\ key_count r = 0)
  /\ (forall a b : @Node Z Z, exists l r s,
        inner_split (Inner 1 2 [Some 2; None] [Some a; Some b])
                    (new_InnerNode 2) = Some (l, r, s)
        /\ key_count l = 1 /\ key_count r = 1)
  /\ put_all Z.ltb 2 (@new_Btree Z Z) [(1, 10); (3, 30); (2, 20)] = None.
Proof.
  split; [|split].
  - do 3 eexists. repeat split; vm_compute; reflexivity.
  - intros a b. do 3 eexists. repeat split; reflexivity.
  - vm_compute. reflexivity.
Qed.

Lemma split_after_capacity_plus_one_witness :
  exists root l r,
    put_all Z.ltb 2 new_Btree [(1, 10); (2, 20); (3, 30)] = Some (Some root)
    /\ is_LeafNode root = false /\ level root = 1
    /\ children_of root = [l; r]
    /\ is_LeafNode l = true /\ level l = 0
    /\ is_LeafNode r = true /\ level r = 0
    /\ forall k v, In (k, v) [(1, 10); (2, 20); (3, 30)] ->
         get Z.ltb (Some root) k = Some (Some v).
Proof.
  apply split_after_capacity_plus_one.
  - exact Zltb_strict_total_order.
  - lia.
  - reflexivity.
  - repeat constructor.
Defined.

(** ** A capacity that [key_count] cannot count

    [key_count] is a [uint16_t]: with [kCapacity = 65536] the test
    [kCapacity <= key_count] of [put] never holds and the root stays a
    leaf, whatever is put. *)

Definition small_leaf_root (t : @Btree Z Z) : Prop :=
  match t with
  | None => True
  | Some (Leaf lv kc _ _) => lv = 0 /\ 0 <= kc < 65536
  | Some (Inner _ _ _ _) => False
  end.

Lemma leaf_insert_kind lv kc ks vs k v (n' : @Node Z Z) :
  leaf_insert Z.ltb (Leaf lv kc ks vs) k v = Some n' ->
  exists kc' ks' vs',
    n' = Leaf lv kc' ks' vs' /\ (kc' = kc \/ kc' = u16 (kc + 1)).
Proof.
  unfold leaf_insert.
  destruct (leaf_lower_bound Z.ltb kc ks k) as [[index [|]]|]; cbn [bind];
    try discriminate.
  - destruct (wr vs index v); cbn [bind]; [|discriminate].
    intros [= <-]. eauto 6.
  - destruct (shift_up _ kc ks); cbn [bind]; [|discriminate].
    destruct (shift_up _ kc vs); cbn [bind]; [|discriminate].
    destruct (wr _ index k); cbn [bind]; [|discriminate].
    destruct (wr _ index v); cbn [bind]; [|discriminate].
    intros [= <-]. eauto 6.
Qed.

Lemma put_small_leaf_root t k v t' :
  small_leaf_root t -> put Z.ltb 65536 t k v = Some t' -> small_leaf_root t'.
Proof.
  assert (Hu : forall z, 0 <= u16 z < 65536)
    by (intros z; unfold u16; apply Z.mod_pos_bound; lia).
  destruct t as [[lv kc ks vs|]|]; cbn [small_leaf_root]; intros H E;
    try contradiction; unfold put in E.
  - destruct H as [-> Hkc]. unfold is_leaf in E. cbn [level] in E.
    change (0 =? 0) with true in E. cbn iota in E.
    destruct (Z.leb_spec 65536 kc); [lia|].
    destruct (leaf_insert Z.ltb (Leaf 0 kc ks vs) k v) as [n'|] eqn:En;
      cbn [bind] in E; [|discriminate].
    injection E as <-.
    destruct (leaf_insert_kind _ _ _ _ _ _ _ En)
      as (kc' & ks' & vs' & -> & [->| ->]);
      cbn [small_leaf_root]; auto.
  - unfold new_LeafNode in E.
    destruct (leaf_insert Z.ltb _ k v) as [n'|] eqn:En;
      cbn [bind] in E; [|discriminate].
    injection E as <-.
    destruct (leaf_insert_kind _ _ _ _ _ _ _ En)
      as (kc' & ks' & vs' & -> & [->| ->]);
      cbn [small_leaf_root]; split; auto; try lia.
Qed.

Lemma put_all_small_leaf_root ops : forall t t',
  small_leaf_root t -> put_all Z.ltb 65536 t ops = Some t' ->
  small_leaf_root t'.
Proof.
  induction ops as [|[k v] ops IH]; intros t t' H E; cbn [put_all] in E.
  - now injection E as <-.
  - destruct (put Z.ltb 65536 t k v) as [t1|] eqn:E1; cbn [bind] in E;
      [|discriminate].
    eapply IH; [|exact E]. eapply put_small_leaf_root; eauto.
Qed.

(** The 65537 keys 0, 1, ..., 65536, each with the value 0. *)
Definition many_increasing_puts : list (Z * Z) :=
  map (fun i => (Z.of_nat i, 0)) (seq 0 (Z.to_nat 65537)).

(** C5, as it is stated, fails at capacity 65536: [kCapacity + 1]
    increasing keys do not give a root that is an inner node. *)
Lemma no_split_at_capacity_65536 :
  ~ exists root,
      put_all Z.ltb 65536 new_Btree many_increasing_puts = Some (Some root)
      /\ is_LeafNode root = false.
Proof.
  intros (root & E & Hk).
  apply put_all_small_leaf_root in E; [|exact I].
  destruct root; [discriminate|contradiction].
Qed.

(** ** The level of the root wraps around

    With capacity 2 the root of a tree of height 2 or more always has two
    children and is split by every [put], so each [put] adds a level.
    The tree after the [put]s of 1, 2, 3 and [j] more [put]s of 3 is
    [level_root j]; its [level] is [j + 1] modulo 2^16. *)

Definition spine_leaf : @Node Z Z := Leaf 0 1 [Some 3; None] [Some 0; None].

Fixpoint spine (j : nat) : @Node Z Z :=
  match j with
  | O => spine_leaf
  | S j' => Inner (Z.of_nat j) 1 [None; None] [Some (spine j'); None]
  end.

Definition left_leaf : @Node Z Z := Leaf 0 2 [Some 1; Some 2] [Some 0; Some 0].

Fixpoint left_part (j : nat) : @Node Z Z :=
  match j with
  | O => left_leaf
  | S j' => Inner (Z.of_nat j) 1 [Some 2; None]
                  [Some (left_part j'); Some (spine j')]
  end.

Definition level_root (j : nat) : @Node Z Z :=
  Inner (u16 (Z.of_nat (S j))) 2 [Some 2; None]
        [Some (left_part j); Some (spine j)].

Lemma level_root_0 :
  put_all Z.ltb 2 new_Btree [(1, 0); (2, 0); (3, 0)] = Some (Some (level_root 0)).
Proof. reflexivity. Qed.

Lemma height_spine j : height (spine j) = j.
Proof.
  induction j as [|j IH]; [reflexivity|].
  cbn [spine height fold_right]. rewrite IH. lia.
Qed.

Lemma height_level_root j : (S j <= height (level_root j))%nat.
Proof.
  unfold level_root. cbn [height fold_right]. rewrite height_spine. lia.
Qed.

(** The descent of [put(3, 0)] through a node with one child. *)
Lemma put_loop_one_child (lv : Z) (c : @Node Z Z) clv ckeys cchildren fuel :
  lv <> 1 ->
  c = Inner clv 1 ckeys cchildren ->
  put_loop Z.ltb 2 fuel c 3 0 = Some c ->
  put_loop Z.ltb 2 (S fuel) (Inner lv 1 [None; None] [Some c; None]) 3 0
  = Some (Inner lv 1 [None; None] [Some c; None]).
Proof.
  intros Hlv -> Hc.
  cbn [put_loop].
  change (inner_lower_bound Z.ltb 1 [None; None] 3) with (Some (0, false)).
  cbn [bind].
  change (rd [Some (Inner clv 1 ckeys cchildren); None] 0)
    with (Some (Inner clv 1 ckeys cchildren)).
  cbn [bind].
  destruct (Z.eqb_spec lv 1) as [|_]; [contradiction|].
  change (2 <=? 1) with false. cbn iota.
  rewrite Hc. reflexivity.
Qed.

Lemma put_loop_spine j : forall fuel,
  (S j <= fuel)%nat ->
  put_loop Z.ltb 2 fuel (spine (S j)) 3 0 = Some (spine (S j)).
Proof.
  induction j as [|j IH]; intros fuel Hf.
  - destruct fuel as [|fuel]; [lia|]. reflexivity.
  - destruct fuel as [|fuel]; [lia|].
    change (spine (S (S j)))
      with (Inner (Z.of_nat (S (S j))) 1 [None; None] [Some (spine (S j)); None]).
    apply (put_loop_one_child _ _ (Z.of_nat (S j)) [None; None]
             [Some (spine j); None]).
    + lia.
    + reflexivity.
    + apply IH. lia.
Qed.

(** [put(3, 0)] on a root with two children, the right one a spine. *)
Lemma put_two_children (lv : Z) (x c r' : @Node Z Z) :
  lv <> 0 ->
  put_loop Z.ltb 2
    (S (height (Inner lv 2 [Some 2; None] [Some x; Some c])))
    (Inner lv 1 [None; None] [Some c; None]) 3 0 = Some r' ->
  put Z.ltb 2 (Some (Inner lv 2 [Some 2; None] [Some x; Some c])) 3 0
  = Some (Some (Inner (u16 (lv + 1)) 2 [Some 2; None]
                  [Some (Inner lv 1 [Some 2; None] [Some x; Some c]);
                   Some r'])).
Proof.
  intros Hlv Hloop.
  unfold put, is_leaf. cbn [level].
  destruct (Z.eqb_spec lv 0) as [|_]; [contradiction|].
  change (2 <=? 2) with true. cbn iota.
  change (inner_split (Inner lv 2 [Some 2; None] [Some x; Some c])
                      (new_InnerNode 2))
    with (Some (Inner lv 1 [Some 2; None] [Some x; Some c],
                @Inner Z Z 1 1 [None; None] [Some c; None], 2)).
  cbn [bind level set_level].
  change (2 <? 3) with true. cbn iota.
  rewrite Hloop. cbn [bind].
  reflexivity.
Qed.

Lemma put_level_root j :
  Z.of_nat (S j) <= 65535 ->
  put Z.ltb 2 (Some (level_root j)) 3 0 = Some (Some (level_root (S j))).
Proof.
  intros Hj. unfold level_root.
  rewrite (u16_small (Z.of_nat (S j))) by lia.
  rewrite (put_two_children (Z.of_nat (S j)) (left_part j) (spine j)
             (spine (S j))).
  - replace (Z.of_nat (S j) + 1) with (Z.of_nat (S (S j))) by lia.
    reflexivity.
  - lia.
  - apply put_loop_spine.
    pose proof (height_level_root j) as H. unfold level_root in H.
    rewrite (u16_small (Z.of_nat (S j))) in H by lia. lia.
Qed.

Lemma put_all_level_root n : forall j,
  Z.of_nat (j + n) <= 65535 ->
  put_all Z.ltb 2 (Some (level_root j)) (repeat (3, 0) n)
  = Some (Some (level_root (j + n))).
Proof.
  induction n as [|n IH]; intros j Hj.
  - rewrite Nat.add_0_r. reflexivity.
  - cbn [repeat put_all]. rewrite put_level_root by lia. cbn [bind].
    rewrite IH by lia. now rewrite Nat.add_succ_r.
Qed.

(** The [put]s of 1, 2 and 3, and 65535 more [put]s of 3. *)
Definition level_wrap_puts : list (Z * Z) :=
  [(1, 0); (2, 0); (3, 0)] ++ repeat (3, 0) (Z.to_nat 65535).

Definition wrapped_root : @Node Z Z := level_root (Z.to_nat 65535).

Lemma put_all_level_wrap :
  put_all Z.ltb 2 new_Btree level_wrap_puts = Some (Some wrapped_root).
Proof.
  unfold level_wrap_puts.
  rewrite (put_all_app Z.ltb 2), level_root_0. cbn [bind].
  apply (put_all_level_root (Z.to_nat 65535) 0). lia.
Qed.

(** The root after [level_wrap_puts]: an inner node of level 0. *)
Lemma wrapped_root_eq :
  wrapped_root
  = Inner 0 2 [Some 2; None]
          [Some (left_part (Z.to_nat 65535)); Some (spine (Z.to_nat 65535))].
Proof.
  assert (Hu : u16 (Z.of_nat (S (Z.to_nat 65535))) = 0).
  { rewrite Nat2Z.inj_succ, Z2Nat.id by lia. reflexivity. }
  unfold wrapped_root, level_root. rewrite Hu. reflexivity.
Qed.

Lemma get_inner_level_0 kc keys children k :
  get Z.ltb (Some (@Inner Z Z 0 kc keys children)) k = None.
Proof. unfold get. cbn [height get_loop]. reflexivity. Qed.

Lemma get_wrapped_root k : get Z.ltb (Some wrapped_root) k = None.
Proof. rewrite wrapped_root_eq. apply get_inner_level_0. Qed.





Lemma run_level_wrap :
  run Z.ltb 2 new_Btree (map put_op level_wrap_puts) = Some (Some wrapped_root).
Proof. rewrite <- put_all_run. exact put_all_level_wrap. Qed.

(** C1, as it is stated, fails at capacity 2: after [level_wrap_puts],
    which put the key 3 (always with the value 0), the level of the root
    has wrapped to 0, [get] takes the inner root for a leaf, and [get(3)]
    does not return 0. *)
Lemma get_fails_after_level_wrap :
  In (3, 0) level_wrap_puts
  /\ ~ exists t, put_all Z.ltb 2 new_Btree level_wrap_puts = Some t
                 /\ get Z.ltb t 3 = Some (Some 0).
Proof.
  split.
  - unfold level_wrap_puts. apply in_or_app. left. simpl. auto.
  - intros (t & E & Hg). rewrite put_all_level_wrap in E.
    injection E as <-. rewrite get_wrapped_root in Hg. discriminate Hg.
Qed.


(** C8, as it is stated, fails at capacity 2: the tree after
    [level_wrap_puts] has an inner node, its root, of level 0. *)
Lemma inner_root_of_level_0 :
  ~ exists t,
      run Z.ltb 2 new_Btree (map put_op level_wrap_puts) = Some t
      /\ forall r m, t = Some r -> in_tree m r -> levels_ok m.
Proof.
  intros (t & E & H). rewrite run_level_wrap in E. injection E as <-.
  specialize (H wrapped_root wrapped_root eq_refl (in_tree_self _)).
  rewrite wrapped_root_eq in H.
  destruct H as (_ & [H _] & _).
  specialize (H eq_refl). discriminate H.
Qed.

(** * More of the code

    The rest of the development states what the member functions do one
    by one, laws of [get] and [put] on any well-formed tree, the locks
    the two take, and the helpers of the test driver. *)

(** Case analysis on an operation that returned: every step of it did. *)
Ltac bind_inv :=
  repeat match goal with
  | H : bind ?m _ = Some _ |- _ =>
      let E := fresh "E" in
      destruct m eqn:E; cbn [bind] in H; [|discriminate H]
  | H : match ?x with _ => _ end = Some _ |- _ =>
      let E := fresh "E" in destruct x eqn:E; try discriminate H
  end.

(** * Contracts of the node operations

    What each member function of [LeafNode] and [InnerNode] does on a node
    whose arrays are filled as the tree fills them, and where it leaves
    the arrays. *)

Section NodeContracts.
Context {KeyT ValueT : Type}.
Variable comparator : KeyT -> KeyT -> bool.
Variable kCapacity : Z.
Hypothesis STO : strict_total_order comparator.

Lemma found_at_In (l : list KeyT) key :
  sorted comparator l -> (found_at comparator l key = true <-> In key l).
Proof.
  intros Hs. split.
  - unfold found_at.
    destruct (nth_error l (lb comparator l key)) as [kf|] eqn:E; [|discriminate].
    intros H. apply andb_prop in H as [H1 H2].
    apply negb_true_iff in H1, H2.
    rewrite <- (lt_total _ STO _ _ H1 H2).
    eapply nth_error_In; eauto.
  - intros Hin. apply In_nth_error in Hin as [i Hi].
    eapply found_at_key; eauto.
Qed.

(** X1.  [LeafNode::lower_bound] on a leaf whose [key_count] keys are
    ascending: the index it returns is the first one whose key is not less
    than [key] ([key_count] when there is none), whatever the slots behind
    the keys hold, and [found] says whether [key] is one of the keys. *)
Theorem leaf_lower_bound_first_not_less (l : list KeyT) rest key :
  sorted comparator l ->
  exists i found,
    leaf_lower_bound comparator (Z.of_nat (length l)) (arr l rest) key
    = Some (Z.of_nat i, found)
    /\ (i <= length l)%nat
    /\ (forall j x, (j < i)%nat -> nth_error l j = Some x ->
          comparator x key = true)
    /\ (forall j x, (i <= j)%nat -> nth_error l j = Some x ->
          comparator x key = false)
    /\ (found = true <-> In key l).
Proof.
  intros Hs.
  exists (lb comparator l key), (found_at comparator l key).
  split; [|split; [|split; [|split]]].
  - now apply leaf_lower_bound_spec.
  - apply lb_le_length.
  - intros j x. apply lb_below.
  - intros j x. now apply lb_above.
  - now apply found_at_In.
Qed.

(** X2.  [InnerNode::lower_bound] on an inner node with ascending
    separators: [key_count] counts the children, the separators are the
    first [key_count - 1] keys, and the index returned is the number of
    separators less than [key].  It is at most [key_count - 1], so it
    names a child, and the flag says whether a separator not less than
    [key] exists.  With a single child no key is read at all. *)
Theorem inner_lower_bound_child_index (seps : list KeyT) rest key :
  sorted comparator seps ->
  (exists i found,
    inner_lower_bound comparator (Z.of_nat (length seps) + 1)
                      (arr seps rest) key
    = Some (Z.of_nat i, found)
    /\ (i <= length seps)%nat
    /\ (forall j x, (j < i)%nat -> nth_error seps j = Some x ->
          comparator x key = true)
    /\ (forall j x, (i <= j)%nat -> nth_error seps j = Some x ->
          comparator x key = false)
    /\ (found = true <-> (i < length seps)%nat))
  /\ (forall keys, inner_lower_bound comparator 1 keys key = Some (0, false)).
Proof.
  intros Hs. split; [|reflexivity].
  exists (lb comparator seps key), (lb comparator seps key <? length seps)%nat.
  split; [|split; [|split; [|split]]].
  - now apply inner_lower_bound_exact.
  - apply lb_le_length.
  - intros j x. apply lb_below.
  - intros j x. now apply lb_above.
  - apply Nat.ltb_lt.
Qed.

(** ** [LeafNode::insert] *)

Lemma leaf_shape_entries (n : @Node KeyT ValueT) lv kvs :
  leaf_shape kCapacity n lv kvs ->
  entries n = kvs /\ key_count n = Z.of_nat (length kvs) /\ level n = lv.
Proof.
  intros (krest & vrest & -> & _ & _). split; [|split; reflexivity].
  cbn [entries]. rewrite Nat2Z.id.
  rewrite !slots_take_arr_n by (now rewrite length_map).
  clear. induction kvs as [|[k v] t IHt]; simpl; congruence.
Qed.

Lemma found_at_cons (a : KeyT) l key :
  found_at comparator (a :: l) key
  = if comparator a key then found_at comparator l key
    else negb (comparator key a).
Proof.
  unfold found_at. cbn [lb].
  destruct (comparator a key) eqn:E; cbn [nth_error]; [reflexivity|].
  now rewrite E.
Qed.

Lemma upsert_length k (v : ValueT) kvs :
  length (upsert comparator k v kvs)
  = if found_at comparator (map fst kvs) k then length kvs
    else S (length kvs).
Proof.
  induction kvs as [|[a va] t IH]; [reflexivity|].
  cbn [upsert map fst]. rewrite found_at_cons.
  destruct (comparator a k) eqn:E1.
  - cbn [length]. rewrite IH.
    destruct (found_at comparator (map fst t) k); reflexivity.
  - destruct (comparator k a); reflexivity.
Qed.

Lemma shift_up_overrun {A : Type} n hi (a : list (option A)) :
  (0 < n)%nat -> Z.of_nat (length a) <= hi -> shift_up n hi a = None.
Proof.
  intros Hn Hhi. destruct n as [|n]; [lia|].
  cbn [shift_up]. destruct (slot a (hi - 1)); cbn [bind]; [|reflexivity].
  now rewrite put_slot_end.
Qed.

(** X3.  [LeafNode::insert] on a leaf with ascending keys and a free
    slot: the entries of the leaf become the old ones with [key] mapped to
    [value], still ascending; [key_count] grows by one for a new key and
    stays for a key of the leaf; the level stays. *)
Theorem leaf_insert_upserts (n : @Node KeyT ValueT) lv kvs k v :
  kCapacity <= 65535 ->
  leaf_shape kCapacity n lv kvs ->
  sorted comparator (map fst kvs) ->
  Z.of_nat (length kvs) < kCapacity ->
  exists n', leaf_insert comparator n k v = Some n'
    /\ leaf_shape kCapacity n' lv (entries n')
    /\ entries n' = upsert comparator k v (entries n)
    /\ sorted comparator (map fst (entries n'))
    /\ lookup comparator k (entries n') = Some v
    /\ (forall k', k' <> k ->
          lookup comparator k' (entries n') = lookup comparator k' (entries n))
    /\ (In k (map fst kvs) -> key_count n' = key_count n)
    /\ (~ In k (map fst kvs) -> key_count n' = key_count n + 1)
    /\ level n' = level n.
Proof.
  intros Hcap Hshape Hs Hroom.
  destruct (leaf_insert_shape comparator kCapacity STO Hcap n lv kvs k v
              Hshape Hs Hroom) as (n' & E & Hshape').
  destruct (leaf_shape_entries _ _ _ Hshape) as (He & Hkc & Hlv).
  destruct (leaf_shape_entries _ _ _ Hshape') as (He' & Hkc' & Hlv').
  exists n'. rewrite He, He', Hkc, Hkc', Hlv, Hlv', upsert_length.
  repeat split; auto.
  - now apply upsert_sorted.
  - now apply lookup_upsert_same.
  - intros k' Hne. apply lookup_upsert_other; auto.
  - intros Hin. apply (found_at_In _ _ Hs) in Hin. now rewrite Hin.
  - intros Hin.
    destruct (found_at comparator (map fst kvs) k) eqn:Ef; [|lia].
    apply (found_at_In _ _ Hs) in Ef. contradiction.
Qed.

(** X4.  [LeafNode::insert] does not look at the capacity.  On a full
    leaf it overwrites the value of a key that is there, in place; for
    any other key it moves the entries one slot up, past the end of
    [keys] and [values]. *)
Theorem leaf_insert_full_leaf (n : @Node KeyT ValueT) lv kvs k v :
  leaf_shape kCapacity n lv kvs ->
  sorted comparator (map fst kvs) ->
  Z.of_nat (length kvs) = kCapacity ->
  (In k (map fst kvs) ->
     exists n', leaf_insert comparator n k v = Some n'
       /\ key_count n' = key_count n
       /\ map fst (entries n') = map fst (entries n)
       /\ lookup comparator k (entries n') = Some v)
  /\ (~ In k (map fst kvs) -> leaf_insert comparator n k v = None).
Proof.
  intros Hshape Hs Hfull.
  destruct (leaf_shape_entries _ _ _ Hshape) as (He & Hkc & _).
  destruct Hshape as (krest & vrest & -> & Hcap & Hlen).
  split; intros Hin.
  - apply (found_at_In _ _ Hs) in Hin.
    destruct (leaf_insert_found comparator STO lv kvs krest vrest k v Hs Hin)
      as (E & Hkeys & Hl).
    eexists. split; [exact E|].
    assert (Hshape' : leaf_shape kCapacity
              (Leaf lv (Z.of_nat (length kvs))
                 (arr (map fst (upsert comparator k v kvs)) krest)
                 (arr (map snd (upsert comparator k v kvs)) vrest))
              lv (upsert comparator k v kvs)).
    { exists krest, vrest. rewrite Hl. auto. }
    destruct (leaf_shape_entries _ _ _ Hshape') as (He' & _ & _).
    rewrite He, He', Hkeys. repeat split.
    now apply lookup_upsert_same.
  - assert (Ef : found_at comparator (map fst kvs) k = false).
    { destruct (found_at comparator (map fst kvs) k) eqn:Ef; [|reflexivity].
      apply (found_at_In _ _ Hs) in Ef. contradiction. }
    assert (krest = []) as -> by (destruct krest; [reflexivity|simpl in Hcap; lia]).
    unfold leaf_insert.
    rewrite (leaf_lower_bound_spec comparator STO (map fst kvs) [] k _ Hs)
      by (now rewrite length_map).
    cbn [bind]. rewrite Ef.
    pose proof (lb_map_length comparator kvs k) as Hi.
    assert (Hk : length (arr (map fst kvs) []) = length kvs)
      by (rewrite arr_length, length_map; simpl; lia).
    destruct (Nat.eq_dec (lb comparator (map fst kvs) k) (length kvs)) as [Eq|Ne].
    + rewrite Eq, Z.sub_diag. cbn [Z.to_nat shift_up bind].
      unfold wr. rewrite put_slot_end by lia. reflexivity.
    + rewrite shift_up_overrun by lia. reflexivity.
Qed.

(** ** The two [split]s *)

Lemma inner_shape_children (n : @Node KeyT ValueT) lv seps cs :
  inner_shape kCapacity n lv seps cs ->
  children_of n = cs /\ key_count n = Z.of_nat (length cs) /\ level n = lv.
Proof.
  intros (krest & crest & -> & _). split; [|split; reflexivity].
  cbn [children_of]. rewrite Nat2Z.id. apply slots_take_arr.
Qed.

Lemma sorted_around (l : list KeyT) i s :
  sorted comparator l -> nth_error l i = Some s ->
  Forall (fun x => comparator s x = false) (firstn (S i) l)
  /\ Forall (fun x => comparator s x = true) (skipn (S i) l).
Proof.
  intros Hs Hi. split; apply Forall_forall; intros x Hx;
    apply In_nth_error in Hx as [j Hj].
  - rewrite nth_error_firstn in Hj.
    destruct (Nat.ltb_spec j (S i)) as [Hlt|]; [|discriminate].
    destruct (Nat.eq_dec j i) as [->|Hne].
    + assert (x = s) as -> by congruence. apply (lt_irrefl _ STO).
    + apply (lt_asym _ STO).
      apply (sorted_nth comparator l Hs j i); auto. lia.
  - rewrite nth_error_skipn in Hj.
    apply (sorted_nth comparator l Hs i (S i + j)); auto. lia.
Qed.

(** X5.  [LeafNode::split] of a leaf with at least one entry: the first
    [key_count / 2 + 1] entries stay, the others go to the right
    neighbour in the same order, and no entry is lost or doubled.  The
    separator returned is not less than any key that stays and less
    than every key that moves, when the keys are ascending. *)
Theorem leaf_split_partitions (n : @Node KeyT ValueT) lv kvs :
  kCapacity <= 65535 ->
  leaf_shape kCapacity n lv kvs -> (1 <= length kvs)%nat ->
  exists l r sep,
    leaf_split n (new_LeafNode kCapacity) = Some (l, r, sep)
    /\ entries l ++ entries r = entries n
    /\ key_count l = Z.of_nat (length kvs / 2) + 1
    /\ key_count l + key_count r = key_count n
    /\ level l = level n /\ level r = 0
    /\ leaf_shape kCapacity l lv (entries l)
    /\ leaf_shape kCapacity r 0 (entries r)
    /\ (sorted comparator (map fst kvs) ->
          Forall (fun x => comparator sep x = false) (map fst (entries l))
          /\ Forall (fun x => comparator sep x = true) (map fst (entries r))).
Proof.
  intros Hcap Hshape Hn.
  destruct (leaf_split_shape kCapacity Hcap n lv kvs Hshape Hn)
    as (l & r & sep & vsep & E & Hl & Hr & Hsep).
  destruct (leaf_shape_entries _ _ _ Hshape) as (He & Hkc & Hlv).
  destruct (leaf_shape_entries _ _ _ Hl) as (Hel & Hkcl & Hlvl).
  destruct (leaf_shape_entries _ _ _ Hr) as (Her & Hkcr & Hlvr).
  assert (Hm : (S (length kvs / 2) <= length kvs)%nat).
  { pose proof (Nat.div_lt (length kvs) 2). lia. }
  exists l, r, sep.
  rewrite He, Hel, Her, Hkc, Hkcl, Hkcr, Hlv, Hlvl, Hlvr.
  rewrite length_firstn, length_skipn, Nat.min_l by exact Hm.
  split; [exact E|]. split; [apply firstn_skipn|].
  split; [lia|]. split; [lia|]. split; [reflexivity|]. split; [reflexivity|].
  split; [exact Hl|]. split; [exact Hr|].
  intros Hs. rewrite <- firstn_map, <- skipn_map.
  apply sorted_around; [exact Hs|].
  rewrite nth_error_map, Hsep. reflexivity.
Qed.

(** X6.  [InnerNode::split] of an inner node with at least two
    children: the first [(key_count - 1) / 2 + 1] children stay, the
    others go to the right neighbour in the same order, with the
    separators between them.  The separator between the two halves is
    returned and is a separator of neither half.  Both halves keep a
    child.  The level of the right neighbour is still the 1 of its
    constructor. *)
Theorem inner_split_partitions (n : @Node KeyT ValueT) lv seps cs :
  kCapacity <= 65535 ->
  inner_shape kCapacity n lv seps cs -> (2 <= length cs)%nat ->
  exists l r sep seps_l seps_r,
    inner_split n (new_InnerNode kCapacity) = Some (l, r, sep)
    /\ seps = seps_l ++ sep :: seps_r
    /\ children_of l ++ children_of r = children_of n
    /\ inner_shape kCapacity l lv seps_l (children_of l)
    /\ inner_shape kCapacity r 1 seps_r (children_of r)
    /\ key_count l = Z.of_nat ((length cs - 1) / 2) + 1
    /\ key_count l + key_count r = key_count n
    /\ 1 <= key_count l /\ 1 <= key_count r.
Proof.
  intros Hcap Hshape Hn.
  destruct (inner_split_shape kCapacity Hcap n lv seps cs Hshape Hn)
    as (l & r & sep & E & Hl & Hr & Hsep).
  destruct (inner_shape_children _ _ _ _ Hshape) as (Hc & Hkc & _).
  destruct (inner_shape_children _ _ _ _ Hl) as (Hcl & Hkcl & _).
  destruct (inner_shape_children _ _ _ _ Hr) as (Hcr & Hkcr & _).
  assert (Hm : (S ((length cs - 1) / 2) < length cs)%nat).
  { pose proof (Nat.div_lt (length cs - 1) 2).
    pose proof (Nat.div_mod_eq (length cs - 1) 2).
    pose proof (Nat.mod_upper_bound (length cs - 1) 2). lia. }
  exists l, r, sep, (firstn ((length cs - 1) / 2) seps),
         (skipn (S ((length cs - 1) / 2)) seps).
  rewrite Hc, Hcl, Hcr, Hkc, Hkcl, Hkcr.
  rewrite length_firstn, length_skipn, Nat.min_l by lia.
  split; [exact E|]. split; [now apply nth_error_decomp|].
  split; [apply firstn_skipn|]. split; [exact Hl|]. split; [exact Hr|].
  lia.
Qed.

(** ** [InnerNode::insert_split] *)

Lemma insert_sorted (l : list KeyT) key :
  sorted comparator l -> ~ In key l ->
  sorted comparator
    (firstn (lb comparator l key) l ++ key :: skipn (lb comparator l key) l).
Proof.
  intros Hs Hin.
  set (kvs := map (fun s => (s, tt)) l).
  assert (Hk : map fst kvs = l).
  { unfold kvs. rewrite map_map. apply map_id. }
  assert (Ef : found_at comparator (map fst kvs) key = false).
  { rewrite Hk. destruct (found_at comparator l key) eqn:Ef; [|reflexivity].
    apply (found_at_In _ _ Hs) in Ef. contradiction. }
  pose proof (upsert_sorted comparator STO key tt kvs) as Hu.
  rewrite (upsert_new comparator key tt kvs Ef) in Hu.
  rewrite map_app in Hu. cbn [map fst] in Hu.
  rewrite <- firstn_map, <- skipn_map, Hk in Hu.
  apply Hu. exact Hs.
Qed.

(** X7.  [InnerNode::insert_split] on an inner node with ascending
    separators and a free slot: with [i] the number of separators less
    than [key], the key becomes separator [i] and [split_child] child
    [i + 1]; what was behind them moves up by one, nothing else changes,
    and [key_count] grows by one.  The separators stay ascending when
    [key] is not one of them. *)
Theorem insert_split_inserts (n : @Node KeyT ValueT) lv seps cs key c :
  kCapacity <= 65535 ->
  inner_shape kCapacity n lv seps cs ->
  sorted comparator seps ->
  Z.of_nat (length cs) < kCapacity ->
  exists n' i,
    insert_split comparator n key c = Some n'
    /\ (i <= length seps)%nat
    /\ Forall (fun x => comparator x key = true) (firstn i seps)
    /\ Forall (fun x => comparator x key = false) (skipn i seps)
    /\ inner_shape kCapacity n' lv (firstn i seps ++ key :: skipn i seps)
                   (children_of n')
    /\ children_of n'
       = firstn (S i) (children_of n) ++ c :: skipn (S i) (children_of n)
    /\ key_count n' = key_count n + 1
    /\ level n' = level n
    /\ (~ In key seps ->
          sorted comparator (firstn i seps ++ key :: skipn i seps)).
Proof.
  intros Hcap Hshape Hs Hroom.
  destruct (insert_split_shape comparator kCapacity STO Hcap n lv seps cs
              key c Hshape Hs Hroom) as (n' & E & Hshape').
  destruct (inner_shape_children _ _ _ _ Hshape) as (Hc & Hkc & Hlv).
  destruct (inner_shape_children _ _ _ _ Hshape') as (Hc' & Hkc' & Hlv').
  pose proof (lb_le_length comparator seps key) as Hi.
  destruct Hshape as (_ & _ & _ & Hlen & _).
  exists n', (lb comparator seps key).
  rewrite Hc, Hc', Hkc, Hkc', Hlv, Hlv'.
  split; [exact E|]. split; [exact Hi|].
  split; [|split; [|split; [exact Hshape'|split; [reflexivity|split;
    [|split; [reflexivity|now apply insert_sorted]]]]]].
  - apply Forall_forall. intros x Hx. apply In_nth_error in Hx as [j Hj].
    rewrite nth_error_firstn in Hj.
    destruct (Nat.ltb_spec j (lb comparator seps key)); [|discriminate].
    eapply lb_below; eauto.
  - apply Forall_forall. intros x Hx. apply In_nth_error in Hx as [j Hj].
    rewrite nth_error_skipn in Hj.
    apply (lb_above comparator STO seps key Hs (lb comparator seps key + j) x);
      [lia|exact Hj].
  - rewrite length_app. cbn [length]. rewrite length_firstn, length_skipn. lia.
Qed.

(** X8.  [InnerNode::insert_split] does not look at the capacity and
    needs a child to start from.  On a full node it writes
    [children[kCapacity]], past the end of the array; on a node fresh
    from the constructor ([key_count] 0) its loop counts down from
    [key_count - 1] taken as a [size_t] and leaves the arrays as well. *)
Theorem insert_split_overruns (n : @Node KeyT ValueT) lv seps cs key c :
  inner_shape kCapacity n lv seps cs ->
  sorted comparator seps ->
  Z.of_nat (length cs) = kCapacity ->
  insert_split comparator n key c = None
  /\ insert_split comparator (new_InnerNode kCapacity) key c = None.
Proof.
  intros (krest & crest & -> & Hlen & Hk & Hc) Hs Hfull.
  split; [|reflexivity].
  assert (crest = []) as ->
    by (destruct crest; [reflexivity|simpl in Hc; lia]).
  destruct krest as [|ks kr]; [simpl in Hk; lia|].
  pose proof (lb_le_length comparator seps key) as Hi.
  unfold insert_split.
  destruct (inner_lower_bound_spec comparator STO seps (ks :: kr) key
              (Z.of_nat (length cs)) Hs) as [b E]; [lia|].
  rewrite E. cbn [bind].
  destruct (Z.leb_spec 1 (Z.of_nat (length cs))); [|lia].
  cbn [guard bind].
  rewrite (shift_gap seps ks kr (lb comparator seps key)) by lia.
  cbn [bind].
  assert (Hl : length (arr cs []) = length cs)
    by (rewrite arr_length; simpl; lia).
  destruct (Nat.eq_dec (lb comparator seps key) (length seps)) as [Eq|Ne].
  - replace (Z.of_nat (length cs) - 1 - Z.of_nat (lb comparator seps key))
      with 0 by lia.
    cbn [Z.to_nat shift_up bind].
    rewrite wr_gap by lia. cbn [bind].
    unfold wr. rewrite put_slot_end by lia. reflexivity.
  - rewrite (shift_up_overrun _ _ (arr cs [])) by lia. reflexivity.
Qed.

End NodeContracts.

(** * Laws of [get] and [put] on well-formed trees *)

Section TreeLaws.
Context {KeyT ValueT : Type}.
Variable comparator : KeyT -> KeyT -> bool.
Variable kCapacity : Z.
Hypothesis STO : strict_total_order comparator.

Implicit Types (kvs : list (KeyT * ValueT)).

(** X9.  [put] on any well-formed tree whose root level can still grow:
    it returns, the tree stays well-formed, [get] of the key returns the
    value put, and [get] of every other key returns what it returned
    before. *)
Theorem put_then_get (t : @Btree KeyT ValueT) k v :
  3 <= kCapacity <= 65535 ->
  well_formed comparator kCapacity t -> root_level t < 65535 ->
  exists t', put comparator kCapacity t k v = Some t'
    /\ well_formed comparator kCapacity t'
    /\ get comparator t' k = Some (Some v)
    /\ forall k', k' <> k -> get comparator t' k' = get comparator t k'.
Proof.
  intros [Hc1 Hc2] [kvs Ht] Hlv.
  destruct (put_rep comparator kCapacity STO Hc1 Hc2 t kvs k v Ht Hlv)
    as (t' & E & Ht' & _).
  exists t'. split; [exact E|]. split; [exists (upsert comparator k v kvs); exact Ht'|].
  rewrite (get_rep comparator kCapacity STO t' _ k Ht'). split.
  - now rewrite lookup_upsert_same.
  - intros k' Hne.
    rewrite (get_rep comparator kCapacity STO t' _ k' Ht').
    rewrite (get_rep comparator kCapacity STO t kvs k' Ht).
    now rewrite lookup_upsert_other by auto.
Qed.

Lemma upsert_keys k (v : ValueT) kvs x :
  In x (map fst (upsert comparator k v kvs)) <-> x = k \/ In x (map fst kvs).
Proof.
  induction kvs as [|[a va] t IH]; cbn [upsert map fst In].
  - intuition congruence.
  - destruct (comparator a k) eqn:E1; cbn [map fst In].
    + rewrite IH. tauto.
    + destruct (comparator k a) eqn:E2; cbn [map fst In].
      * intuition congruence.
      * assert (a = k) as -> by (apply (lt_total _ STO); assumption).
        intuition congruence.
Qed.

Lemma fold_apply_keys (ops : list (@op KeyT ValueT)) : forall kvs x,
  In x (map fst (fold_left (apply_op comparator) ops kvs))
  <-> In x (map fst kvs) \/ exists v, In (Put x v) ops.
Proof.
  induction ops as [|[k|k v] ops IH]; intros kvs x; cbn [fold_left apply_op].
  - split; [auto|]. intros [H|[v []]]. exact H.
  - rewrite IH. split; intros [H|[v H]]; auto.
    + right. exists v. now right.
    + destruct H as [H|H]; [discriminate|]. right. now exists v.
  - rewrite IH, upsert_keys. split.
    + intros [[->|H]|[w H]]; auto.
      * right. exists v. now left.
      * right. exists w. now right.
    + intros [H|[w [H|H]]]; auto.
      * injection H as -> ->. auto.
      * right. now exists w.
Qed.

Lemma lookup_In k (v : ValueT) kvs :
  lookup comparator k kvs = Some v -> In (k, v) kvs.
Proof.
  induction kvs as [|[a va] t IH]; cbn [lookup]; [discriminate|].
  destruct (comparator a k) eqn:E1; [intros H; right; auto|].
  destruct (comparator k a) eqn:E2; [discriminate|].
  intros H. injection H as ->. left.
  now rewrite (lt_total _ STO _ _ E1 E2).
Qed.

(** X10.  After a run of at most 65535 calls on a fresh tree (capacity
    3 to 65535), the entries of the leaves, read from the leftmost leaf
    to the rightmost, have strictly ascending keys, so no key is stored
    twice; the keys stored are the keys that were put; and the entries
    stored are the ones [get] returns. *)
Theorem entries_after_run (ops : list (@op KeyT ValueT)) :
  3 <= kCapacity <= 65535 -> Z.of_nat (length ops) <= 65535 ->
  exists t, run comparator kCapacity new_Btree ops = Some t
    /\ sorted comparator (map fst (tree_entries t))
    /\ (forall k, In k (map fst (tree_entries t))
                  <-> exists v, In (Put k v) ops)
    /\ (forall k v, In (k, v) (tree_entries t)
                    <-> get comparator t k = Some (Some v)).
Proof.
  intros [Hc1 Hc2] Hlen.
  destruct (run_rep comparator kCapacity STO Hc1 Hc2 ops new_Btree [])
    as (t & E & Ht & _); [reflexivity|simpl; lia|].
  exists t. split; [exact E|].
  rewrite (tree_rep_entries _ _ _ _ Ht).
  pose proof (tree_rep_sorted comparator kCapacity STO t _ Ht) as Hs.
  split; [exact Hs|]. split.
  - intros k. rewrite fold_apply_keys. cbn [map In]. tauto.
  - intros k v. rewrite (get_rep comparator kCapacity STO t _ k Ht). split.
    + intros Hin. f_equal. now apply lookup_sorted_In.
    + intros H. injection H as H. now apply lookup_In.
Qed.

(** ** Where the tree grows *)

Lemma set_child_level (n : @Node KeyT ValueT) pos c n' :
  set_child n pos c = Some n' -> level n' = level n.
Proof.
  destruct n; cbn [set_child]; intros H; try discriminate H; bind_inv.
  injection H as <-. reflexivity.
Qed.

Lemma insert_split_level (n : @Node KeyT ValueT) key c n' :
  insert_split comparator n key c = Some n' -> level n' = level n.
Proof.
  destruct n; cbn [insert_split]; intros H; try discriminate H; bind_inv.
  injection H as <-. reflexivity.
Qed.

Lemma leaf_insert_level (n : @Node KeyT ValueT) k v n' :
  leaf_insert comparator n k v = Some n' -> level n' = level n.
Proof.
  destruct n; cbn [leaf_insert]; intros H; try discriminate H; bind_inv;
    injection H as <-; reflexivity.
Qed.

Lemma inner_split_level (n : @Node KeyT ValueT) l r s :
  inner_split n (new_InnerNode kCapacity) = Some (l, r, s) ->
  level l = level n.
Proof.
  destruct n; cbn [inner_split new_InnerNode]; intros H; try discriminate H;
    bind_inv.
  injection H as <- _ _. reflexivity.
Qed.

Lemma insert_split_count (n : @Node KeyT ValueT) key c n' :
  insert_split comparator n key c = Some n' ->
  key_count n' = u16 (key_count n + 1).
Proof.
  destruct n; cbn [insert_split]; intros H; try discriminate H; bind_inv.
  injection H as <-. reflexivity.
Qed.

Lemma make_root_fields lv (old : @Node KeyT ValueT) s r root :
  make_root comparator kCapacity lv old s r = Some root ->
  level root = u16 lv /\ key_count root = 2.
Proof.
  unfold make_root, new_InnerNode. intros H. bind_inv.
  split; [now apply insert_split_level in H|].
  now apply insert_split_count in H.
Qed.

Lemma put_loop_level fuel (n : @Node KeyT ValueT) k v n' :
  put_loop comparator kCapacity fuel n k v = Some n' -> level n' = level n.
Proof.
  destruct fuel as [|fuel]; [discriminate|].
  destruct n as [|lv kc keys children]; [discriminate|].
  cbn [put_loop]. intros H. bind_inv;
    repeat match goal with
    | H : insert_split _ _ _ _ = Some _ |- _ => apply insert_split_level in H
    | H : set_child _ _ _ = Some _ |- _ => apply set_child_level in H
    end; congruence.
Qed.

Ltac levels :=
  repeat match goal with
  | H : make_root _ _ _ _ _ _ = Some _ |- _ =>
      apply make_root_fields in H; destruct H
  | H : inner_split _ _ = Some _ |- _ => apply inner_split_level in H
  | H : leaf_insert _ _ _ _ = Some _ |- _ => apply leaf_insert_level in H
  | H : put_loop _ _ _ _ _ _ = Some _ |- _ => apply put_loop_level in H
  end.

(** X11.  [put] never leaves the tree empty, and it changes the level
    of the root in one case only: when the root is full as [put] starts
    (whether or not the key is in the tree), the tree gets a new root with
    two children, one level above the old one, in 16 bits.  The first
    [put] makes a leaf root with the one entry. *)
Theorem put_grows_at_root (t : @Btree KeyT ValueT) k v t' :
  put comparator kCapacity t k v = Some t' ->
  exists r', t' = Some r'
    /\ match t with
       | None => level r' = 0 /\ key_count r' = 1 /\ entries r' = [(k, v)]
       | Some r =>
           if kCapacity <=? key_count r
           then level r' = u16 (level r + 1) /\ key_count r' = 2
           else level r' = level r
       end.
Proof.
  destruct t as [r|]; cbn [put].
  - destruct (is_leaf r) eqn:El.
    + apply Z.eqb_eq in El.
      destruct r as [lv kc keys values|]; [|discriminate].
      cbn [key_count level] in *. subst lv. intros H. bind_inv;
        injection H as <-; (eexists; split; [reflexivity|]); levels;
        try split; first [assumption | cbn [level] in *; congruence].
    + destruct r as [|lv kc keys children]; [discriminate|].
      cbn [key_count]. intros H. bind_inv;
        injection H as <-; (eexists; split; [reflexivity|]); levels;
        try split; first [assumption | cbn [level] in *; congruence].
  - unfold new_LeafNode, leaf_insert.
    change (leaf_lower_bound comparator 0 (fresh_array kCapacity) k)
      with (Some (0, false)).
    cbn [bind]. change (Z.to_nat (0 - 0)) with O. cbn [shift_up bind].
    intros H. bind_inv.
    repeat match goal with
    | H : Some _ = Some _ |- _ => injection H as <-
    end.
    eexists; split; [reflexivity|].
    cbn [level key_count entries].
    split; [reflexivity|]. split; [reflexivity|].
    change (Z.to_nat (u16 (0 + 1))) with 1%nat.
    unfold wr, put_slot in *.
    destruct (fresh_array (A:=KeyT) kCapacity) as [|ks kr];
      [discriminate|].
    destruct (fresh_array (A:=ValueT) kCapacity) as [|vs vr];
      [discriminate|].
    repeat match goal with
    | H : (if ?b then _ else _) = Some _ |- _ =>
        destruct b; [injection H as <-|discriminate H]
    end.
    reflexivity.
Qed.

(** ** The entries do not depend on the order of the [put]s *)

Lemma lookup_head k (v : ValueT) kvs :
  sorted comparator (map fst ((k, v) :: kvs)) ->
  lookup comparator k ((k, v) :: kvs) = Some v.
Proof. intros Hs. apply lookup_sorted_In; auto. now left. Qed.

Lemma sorted_head_lt a (va : ValueT) kvs k v :
  sorted comparator (map fst ((a, va) :: kvs)) -> In (k, v) kvs ->
  comparator a k = true.
Proof.
  intros Hs Hin. inversion Hs as [|? ? _ Hall]; subst.
  rewrite Forall_forall in Hall. apply Hall.
  change k with (fst (k, v)). now apply in_map.
Qed.

Lemma lookup_ext kvs1 : forall kvs2,
  sorted comparator (map fst kvs1) -> sorted comparator (map fst kvs2) ->
  (forall k, lookup comparator k kvs1 = lookup comparator k kvs2) ->
  kvs1 = kvs2.
Proof.
  induction kvs1 as [|[a va] t1 IH]; intros [|[b vb] t2] Hs1 Hs2 Hl.
  - reflexivity.
  - specialize (Hl b). rewrite (lookup_head b vb t2 Hs2) in Hl. discriminate.
  - specialize (Hl a). rewrite (lookup_head a va t1 Hs1) in Hl. discriminate.
  - assert (Ha : In (a, va) ((b, vb) :: t2)).
    { apply lookup_In. rewrite <- Hl. now apply lookup_head. }
    assert (Hb : In (b, vb) ((a, va) :: t1)).
    { apply lookup_In. rewrite Hl. now apply lookup_head. }
    assert (Heq : (a, va) = (b, vb)).
    { destruct Ha as [Ha|Ha]; [now symmetry|].
      pose proof (sorted_head_lt _ _ _ _ _ Hs2 Ha) as Hba.
      destruct Hb as [Hb|Hb].
      - injection Hb as -> _. now rewrite (lt_irrefl _ STO) in Hba.
      - pose proof (sorted_head_lt _ _ _ _ _ Hs1 Hb) as Hab.
        now rewrite (lt_asym _ STO _ _ Hab) in Hba. }
    injection Heq as <- <-. f_equal.
    inversion Hs1 as [|? ? Hs1' Hall1]; subst.
    inversion Hs2 as [|? ? Hs2' Hall2]; subst.
    apply IH; auto. intros k.
    specialize (Hl k). cbn [lookup] in Hl.
    destruct (comparator a k) eqn:E; [exact Hl|].
    rewrite !lookup_absent; auto; intros Hin.
    + rewrite Forall_forall in Hall2. rewrite (Hall2 _ Hin) in E. discriminate.
    + rewrite Forall_forall in Hall1. rewrite (Hall1 _ Hin) in E. discriminate.
Qed.

(** X12.  The entries of the leaves depend only on the last value put
    for each key: two runs of [put]s on fresh trees that agree on it
    leave the same entries in the same order, whatever the order of
    the calls and the shapes of the two trees. *)
Theorem entries_depend_on_last_puts (ops1 ops2 : list (KeyT * ValueT)) :
  3 <= kCapacity <= 65535 ->
  Z.of_nat (length ops1) <= 65535 -> Z.of_nat (length ops2) <= 65535 ->
  (forall k, last_put comparator k ops1 = last_put comparator k ops2) ->
  exists t1 t2,
    put_all comparator kCapacity new_Btree ops1 = Some t1
    /\ put_all comparator kCapacity new_Btree ops2 = Some t2
    /\ tree_entries t1 = tree_entries t2.
Proof.
  intros [Hc1 Hc2] Hl1 Hl2 Hlast.
  destruct (run_rep comparator kCapacity STO Hc1 Hc2 (map put_op ops1)
              new_Btree []) as (t1 & E1 & Ht1 & _);
    [reflexivity|rewrite length_map; simpl; lia|].
  destruct (run_rep comparator kCapacity STO Hc1 Hc2 (map put_op ops2)
              new_Btree []) as (t2 & E2 & Ht2 & _);
    [reflexivity|rewrite length_map; simpl; lia|].
  exists t1, t2. rewrite !put_all_run.
  split; [exact E1|]. split; [exact E2|].
  rewrite (tree_rep_entries _ _ _ _ Ht1), (tree_rep_entries _ _ _ _ Ht2).
  apply lookup_ext.
  - apply (tree_rep_sorted comparator kCapacity STO t1 _ Ht1).
  - apply (tree_rep_sorted comparator kCapacity STO t2 _ Ht2).
  - intros k. rewrite !(lookup_puts comparator STO). now rewrite Hlast.
Qed.

End TreeLaws.

(** * The search order of the tree *)

Section SearchOrder.
Context {KeyT ValueT : Type}.
Variable comparator : KeyT -> KeyT -> bool.
Variable kCapacity : Z.
Hypothesis STO : strict_total_order comparator.

(** The separators of an inner node: the first [key_count - 1] keys. *)
Definition separators (n : @Node KeyT ValueT) : list KeyT :=
  match n with
  | Leaf _ _ _ _ => []
  | Inner _ kc keys _ => slots_take (Z.to_nat (kc - 1)) keys
  end.

Lemma chain_nth (R : option KeyT -> option KeyT -> @Node KeyT ValueT ->
                     list (KeyT * ValueT) -> Prop) lo hi seps cs kvs :
  chain comparator R lo hi seps cs kvs ->
  forall i c, nth_error cs i = Some c ->
  exists kvs',
    R (match i with O => lo | S j => nth_error seps j end)
      (match nth_error seps i with Some s => Some s | None => hi end)
      c kvs'.
Proof.
  induction 1 as [lo hi c0 kvs HR
                 |lo hi s seps c0 cs kvs1 kvs2 HR Ha Hb Hc IH];
    intros [|i] c Hi; cbn [nth_error] in *.
  - injection Hi as <-. eauto.
  - destruct i; discriminate Hi.
  - injection Hi as <-. eauto.
  - destruct (IH i c Hi) as [kvs' H']. exists kvs'.
    destruct i; exact H'.
Qed.

(** X21.  The search order after any run of at most 65535 calls on a
    fresh tree (capacity 3 to 65535): in every inner node, every key
    stored in the leaves below child [i] is greater than separator
    [i - 1] and not greater than separator [i], where these exist. *)
Theorem keys_between_separators (ops : list (@op KeyT ValueT)) :
  3 <= kCapacity <= 65535 -> Z.of_nat (length ops) <= 65535 ->
  exists t, run comparator kCapacity new_Btree ops = Some t
    /\ forall r m, t = Some r -> in_tree m r ->
       forall i c k,
         nth_error (children_of m) i = Some c ->
         In k (map fst (entries c)) ->
         (forall s, nth_error (separators m) i = Some s ->
                    comparator s k = false)
         /\ (forall j s, i = S j -> nth_error (separators m) j = Some s ->
                         comparator s k = true).
Proof.
  intros Hcap Hlen.
  destruct (run_well_formed comparator kCapacity STO ops Hcap Hlen)
    as (t & E & _ & Hn).
  exists t. split; [exact E|].
  intros r m Hr Hin i c k Hc Hk.
  destruct (Hn r m Hr Hin) as (h & lo & hi & kvs & Hrep).
  destruct h as [|h].
  - destruct Hrep as ((krest & vrest & -> & _) & _).
    destruct i; discriminate Hc.
  - destruct Hrep as (seps & cs & (krest & crest & -> & Hl & _) & _ & Hch).
    cbn [children_of separators] in *.
    rewrite Nat2Z.id, slots_take_arr in Hc.
    replace (Z.to_nat (Z.of_nat (length cs) - 1)) with (length seps) by lia.
    rewrite slots_take_arr.
    destruct (chain_nth _ _ _ _ _ _ Hch i c Hc) as [kvs' Hrc].
    pose proof (rep_range comparator kCapacity STO h _ _ _ _ Hrc) as Hrange.
    rewrite <- (rep_entries comparator kCapacity h _ _ _ _ Hrc) in Hrange.
    rewrite Forall_forall in Hrange. destruct (Hrange k Hk) as [Hab Hbe].
    split.
    + intros s Hs. rewrite Hs in Hbe. exact Hbe.
    + intros j s -> Hs. rewrite Hs in Hab. exact Hab.
Qed.

End SearchOrder.

(** * Separators and the keys below them *)

Section Occupancy.
Context {KeyT ValueT : Type}.
Variable comparator : KeyT -> KeyT -> bool.
Variable kCapacity : Z.
Hypothesis STO : strict_total_order comparator.

Implicit Types (kvs : list (KeyT * ValueT)) (lo hi : option KeyT).

(** The key of the last of a list of entries. *)
Definition last_key kvs : option KeyT :=
  match rev kvs with
  | [] => None
  | p :: _ => Some (fst p)
  end.

(** Each separator is the key of the last entry below the child left
    of it. *)
Fixpoint tops (seps : list KeyT) (cs : list (@Node KeyT ValueT)) : Prop :=
  match seps, cs with
  | s :: seps', c :: cs' => last_key (entries c) = Some s /\ tops seps' cs'
  | _, _ => True
  end.

(** [occ h n]: in the subtree of height [h] below [n], no leaf is empty
    and every inner node has its separators at the top of the children
    left of them. *)
Fixpoint occ (h : nat) (n : @Node KeyT ValueT) : Prop :=
  match h with
  | O => 1 <= key_count n
  | S h' =>
      Forall (occ h') (children_of n)
      /\ tops (separators n) (children_of n)
  end.

Lemma last_key_app kvs1 kvs2 :
  kvs2 <> [] -> last_key (kvs1 ++ kvs2) = last_key kvs2.
Proof.
  intros Hne. unfold last_key. rewrite rev_app_distr.
  destruct (rev kvs2) as [|p t] eqn:E; [|reflexivity].
  apply (f_equal (@rev _)) in E. rewrite rev_involutive in E.
  contradiction.
Qed.

Lemma last_key_cons p kvs : kvs <> [] -> last_key (p :: kvs) = last_key kvs.
Proof. apply (last_key_app [p]). Qed.

Lemma last_key_snoc kvs k v : last_key (kvs ++ [(k, v)]) = Some k.
Proof. rewrite last_key_app by discriminate. reflexivity. Qed.

Lemma last_key_nonempty kvs s : last_key kvs = Some s -> kvs <> [].
Proof. intros H ->. discriminate H. Qed.

Lemma last_key_firstn kvs i k v :
  nth_error kvs i = Some (k, v) -> last_key (firstn (S i) kvs) = Some k.
Proof.
  intros H. rewrite (firstn_S_nth _ _ _ H). apply last_key_snoc.
Qed.

Lemma upsert_nonempty k v kvs : upsert comparator k v kvs <> [].
Proof.
  destruct kvs as [|[a va] t]; cbn [upsert]; [discriminate|].
  destruct (comparator a k); [discriminate|].
  destruct (comparator k a); discriminate.
Qed.

(** Putting a key that is not greater than the last one keeps the last
    key. *)
Lemma upsert_last_key k v kvs s :
  last_key kvs = Some s -> comparator s k = false ->
  last_key (upsert comparator k v kvs) = Some s.
Proof.
  induction kvs as [|[a va] t IH]; intros Hl Hs; [discriminate Hl|].
  cbn [upsert]. destruct (comparator a k) eqn:E1.
  - destruct t as [|p t'].
    + injection Hl as <-. congruence.
    + rewrite last_key_cons in Hl by discriminate.
      rewrite last_key_cons by apply upsert_nonempty. auto.
  - destruct (comparator k a) eqn:E2.
    + rewrite last_key_cons by discriminate. exact Hl.
    + destruct t as [|p t']; [exact Hl|].
      rewrite last_key_cons in * by discriminate. exact Hl.
Qed.

Lemma tops_app sL : forall cL sR cR,
  length sL = length cL ->
  (tops (sL ++ sR) (cL ++ cR) <-> tops sL cL /\ tops sR cR).
Proof.
  induction sL as [|s sL IH]; intros [|c cL] sR cR Hl; try discriminate Hl.
  - cbn [app tops]. tauto.
  - cbn [app tops]. injection Hl as Hl. rewrite (IH cL sR cR Hl). tauto.
Qed.

Lemma tops_firstn seps : forall cs a b,
  tops seps cs -> tops (firstn a seps) (firstn b cs).
Proof.
  induction seps as [|s seps IH]; intros cs a b H.
  - rewrite firstn_nil. exact I.
  - destruct a; [exact I|]. destruct cs as [|c cs]; [now rewrite firstn_nil|].
    destruct b; [exact I|]. cbn [firstn tops] in *. split; [apply H|].
    apply IH, H.
Qed.

Lemma tops_skipn seps : forall cs a,
  tops seps cs -> tops (skipn a seps) (skipn a cs).
Proof.
  induction seps as [|s seps IH]; intros cs a H.
  - rewrite skipn_nil. exact I.
  - destruct a; [exact H|]. destruct cs as [|c cs].
    + rewrite skipn_nil. destruct (skipn (S a) (s :: seps)); exact I.
    + cbn [skipn tops] in *. apply IH, H.
Qed.

Lemma tops_nth seps : forall cs i s c,
  tops seps cs -> nth_error seps i = Some s -> nth_error cs i = Some c ->
  last_key (entries c) = Some s.
Proof.
  induction seps as [|s0 seps IH]; intros cs i s c H Hs Hc.
  - destruct i; discriminate Hs.
  - destruct cs as [|c0 cs]; [destruct i; discriminate Hc|].
    destruct i; cbn [nth_error tops] in *.
    + injection Hs as <-. injection Hc as <-. apply H.
    + eapply IH; eauto. apply H.
Qed.

Lemma inner_shape_separators (n : @Node KeyT ValueT) lv seps cs :
  inner_shape kCapacity n lv seps cs ->
  separators n = seps /\ children_of n = cs.
Proof.
  intros (krest & crest & -> & Hl & _). cbn [separators children_of].
  rewrite Nat2Z.id.
  replace (Z.to_nat (Z.of_nat (length cs) - 1)) with (length seps) by lia.
  now rewrite !slots_take_arr.
Qed.

Lemma fields_set_level (n : @Node KeyT ValueT) lv :
  children_of (set_level n lv) = children_of n
  /\ separators (set_level n lv) = separators n.
Proof. destruct n; split; reflexivity. Qed.

Local Abbreviation REP := (rep comparator kCapacity).

Lemma rep_leaf_count lo hi (n : @Node KeyT ValueT) kvs :
  REP 0%nat lo hi n kvs -> key_count n = Z.of_nat (length kvs).
Proof. intros ((krest & vrest & -> & _) & _). reflexivity. Qed.

Lemma occ_leaf lo hi (n : @Node KeyT ValueT) kvs :
  REP 0%nat lo hi n kvs -> kvs <> [] -> occ 0 n.
Proof.
  intros H Hne. cbn [occ]. rewrite (rep_leaf_count _ _ _ _ H).
  destruct kvs; [contradiction|simpl; lia].
Qed.

Lemma occ_entries h : forall lo hi (n : @Node KeyT ValueT) kvs,
  REP h lo hi n kvs -> occ h n -> kvs <> [].
Proof.
  induction h as [|h IH]; intros lo hi n kvs H Ho.
  - cbn [occ] in Ho. rewrite (rep_leaf_count _ _ _ _ H) in Ho.
    intros ->. simpl in Ho. lia.
  - destruct H as (seps & cs & Hshape & _ & Hc).
    destruct Ho as [Hall _].
    rewrite (proj2 (inner_shape_separators _ _ _ _ Hshape)) in Hall.
    destruct Hc as [lo hi c kvs HR|lo hi s seps c cs kvs1 kvs2 HR _ _ _].
    + inversion Hall; subst. eapply IH; eauto.
    + inversion Hall; subst. intros E. apply app_eq_nil in E as [E _].
      revert E. eapply IH; eauto.
Qed.

Hypothesis cap_min : 3 <= kCapacity.
Hypothesis cap_u16 : kCapacity <= 65535.

(** A full leaf splits into two leaves that are not empty; the
    separator is the last key of the left one. *)
Lemma leaf_split_occ lo hi (n : @Node KeyT ValueT) kvs :
  REP 0%nat lo hi n kvs -> Z.of_nat (length kvs) = kCapacity ->
  exists l r sep k1 k2,
    leaf_split n (new_LeafNode kCapacity) = Some (l, r, sep)
    /\ kvs = k1 ++ k2
    /\ REP 0%nat lo (Some sep) l k1 /\ REP 0%nat (Some sep) hi r k2
    /\ above comparator lo sep /\ sbelow comparator sep hi
    /\ Z.of_nat (length k1) < kCapacity
    /\ Z.of_nat (length k2) < kCapacity
    /\ last_key k1 = Some sep
    /\ k2 <> []
    /\ last_key k2 = last_key kvs.
Proof.
  intros Hrep Hfull.
  assert (Hdiv : (S (length kvs / 2) < length kvs)%nat).
  { assert (3 <= length kvs)%nat by lia.
    pose proof (Nat.div_mod_eq (length kvs) 2).
    pose proof (Nat.mod_upper_bound (length kvs) 2). lia. }
  destruct (leaf_split_rep_gen comparator kCapacity STO cap_u16
              lo hi n kvs Hrep)
    as (l & r & sep & vsep & E & Hnth & Hl & Hr & Ha & Hb); [lia|auto|].
  assert (Hk2 : skipn (S (length kvs / 2)) kvs <> []).
  { intros E0. apply (f_equal (@length _)) in E0.
    rewrite length_skipn in E0. cbn [length] in E0. lia. }
  exists l, r, sep, (firstn (S (length kvs / 2)) kvs),
         (skipn (S (length kvs / 2)) kvs).
  split; [exact E|]. split; [symmetry; apply firstn_skipn|].
  split; [exact Hl|]. split; [exact Hr|]. split; [exact Ha|].
  split; [exact Hb|].
  split; [rewrite length_firstn; lia|].
  split; [rewrite length_skipn; lia|].
  split; [eapply last_key_firstn; eauto|].
  split; [exact Hk2|].
  transitivity (last_key (firstn (S (length kvs / 2)) kvs
                            ++ skipn (S (length kvs / 2)) kvs)).
  - symmetry. now apply last_key_app.
  - now rewrite firstn_skipn.
Qed.

Lemma leaf_insert_occ lo hi (n : @Node KeyT ValueT) kvs k v :
  REP 0%nat lo hi n kvs -> in_range comparator lo hi k ->
  Z.of_nat (length kvs) < kCapacity ->
  exists n', leaf_insert comparator n k v = Some n'
    /\ REP 0%nat lo hi n' (upsert comparator k v kvs)
    /\ occ 0 n'.
Proof.
  intros H Hk Hroom.
  destruct (leaf_insert_rep comparator kCapacity STO cap_u16
              lo hi n kvs k v H Hk Hroom) as (n' & E & H').
  exists n'. split; [exact E|]. split; [exact H'|].
  eapply occ_leaf; [exact H'|apply upsert_nonempty].
Qed.

Lemma entries_inner_shape (n : @Node KeyT ValueT) lv seps cs :
  inner_shape kCapacity n lv seps cs ->
  entries n = flat_map (@entries KeyT ValueT) cs.
Proof.
  intros (krest & crest & -> & _). cbn [entries].
  rewrite Nat2Z.id. apply entries_below.
Qed.

(** A full inner node splits into two nodes that keep the property;
    the separator moved up is the last key below the left one. *)
Lemma inner_split_occ h lo hi (n : @Node KeyT ValueT) kvs :
  REP (S h) lo hi n kvs -> occ (S h) n -> key_count n = kCapacity ->
  exists l r0 sep k1 k2,
    inner_split n (new_InnerNode kCapacity) = Some (l, r0, sep)
    /\ kvs = k1 ++ k2
    /\ REP (S h) lo (Some sep) l k1
    /\ REP (S h) (Some sep) hi (set_level r0 (level l)) k2
    /\ above comparator lo sep /\ sbelow comparator sep hi
    /\ key_count l < kCapacity
    /\ key_count (set_level r0 (level l)) < kCapacity
    /\ occ (S h) l /\ occ (S h) (set_level r0 (level l))
    /\ last_key k1 = Some sep
    /\ last_key k2 = last_key kvs.
Proof.
  intros Hrep Ho Hfull.
  destruct (inner_split_rep comparator kCapacity STO cap_min cap_u16
              h lo hi n kvs Hrep Hfull)
    as (l & r0 & sep & k1 & k2 & E & Ek & Hl & Hr & Ha & Hb & Hl1 & Hl2).
  destruct Hrep as (seps & cs & Hshape & _ & _).
  destruct (inner_shape_separators _ _ _ _ Hshape) as [Es Ec].
  destruct Ho as [Hall Htops]. rewrite Es, Ec in *.
  assert (Hn : (2 <= length cs)%nat).
  { rewrite (proj1 (key_count_inner_shape _ _ _ _ _ Hshape)) in Hfull. lia. }
  destruct (inner_split_shape kCapacity cap_u16 n _ seps cs Hshape Hn)
    as (l' & r' & sep' & E' & Hsl & Hsr & Hsep).
  rewrite E in E'. injection E' as <- <- <-.
  set (mid := ((length cs - 1) / 2)%nat) in *.
  assert (Hmid : (S mid < length cs)%nat).
  { unfold mid. pose proof (Nat.div_mod_eq (length cs - 1) 2).
    pose proof (Nat.mod_upper_bound (length cs - 1) 2). lia. }
  destruct (inner_shape_separators _ _ _ _ Hsl) as [Esl Ecl].
  destruct (inner_shape_separators _ _ _ _ Hsr) as [Esr Ecr].
  destruct (fields_set_level r0 (level l)) as [Ecs' Ess'].
  assert (Hol : occ (S h) l).
  { cbn [occ]. rewrite Esl, Ecl. split.
    - rewrite <- (firstn_skipn (S mid) cs) in Hall.
      now apply Forall_app in Hall.
    - now apply tops_firstn. }
  assert (Hor : occ (S h) (set_level r0 (level l))).
  { cbn [occ]. rewrite Ecs', Ess', Esr, Ecr. split.
    - rewrite <- (firstn_skipn (S mid) cs) in Hall.
      now apply Forall_app in Hall.
    - now apply tops_skipn. }
  exists l, r0, sep, k1, k2.
  repeat (split; [assumption|]). split.
  - (* the last key below the left half *)
    rewrite <- (rep_entries comparator kCapacity _ _ _ _ _ Hl).
    rewrite (entries_inner_shape _ _ _ _ Hsl).
    destruct (nth_error cs mid) as [cm|] eqn:Ecm.
    2:{ apply nth_error_None in Ecm. lia. }
    rewrite (firstn_S_nth _ _ _ Ecm), flat_map_app. cbn [flat_map].
    rewrite app_nil_r.
    pose proof (tops_nth _ _ _ _ _ Htops Hsep Ecm) as Hlast.
    rewrite last_key_app by (eapply last_key_nonempty; eauto).
    exact Hlast.
  - rewrite Ek. symmetry. apply last_key_app.
    eapply occ_entries; eauto.
Qed.

(** One step of a descent, as in [descend], with the property kept:
    [top] is the separator right of the child the key is routed to. *)
Lemma descend_occ h lo hi (cur : @Node KeyT ValueT) kvs k :
  REP (S h) lo hi cur kvs -> occ (S h) cur -> key_count cur < kCapacity ->
  in_range comparator lo hi k ->
  exists kc keys children pos b c kvL kvC kvR lo' hi' top,
    cur = Inner (Z.of_nat (S h)) kc keys children
    /\ inner_lower_bound comparator kc keys k = Some (pos, b)
    /\ rd children pos = Some c
    /\ kvs = kvL ++ kvC ++ kvR
    /\ REP h lo' hi' c kvC /\ occ h c
    /\ in_range comparator lo' hi' k
    /\ Forall (fun x => comparator x k = true) (map fst kvL)
    /\ Forall (fun x => comparator k x = true) (map fst kvR)
    /\ (forall s, top = Some s ->
          last_key kvC = Some s /\ comparator s k = false)
    /\ (forall c' kvC',
          REP h lo' hi' c' kvC' -> occ h c' ->
          (forall s, top = Some s -> last_key kvC' = Some s) ->
          exists cur', set_child cur pos c' = Some cur'
            /\ REP (S h) lo hi cur' (kvL ++ kvC' ++ kvR)
            /\ occ (S h) cur')
    /\ (forall sep c1 c2 k1 k2,
          REP h lo' (Some sep) c1 k1 -> REP h (Some sep) hi' c2 k2 ->
          above comparator lo' sep -> sbelow comparator sep hi' ->
          occ h c1 -> occ h c2 -> last_key k1 = Some sep ->
          (forall s, top = Some s -> last_key k2 = Some s) ->
          exists cur1 cur', set_child cur pos c1 = Some cur1
            /\ insert_split comparator cur1 sep c2 = Some cur'
            /\ REP (S h) lo hi cur' (kvL ++ (k1 ++ k2) ++ kvR)
            /\ occ (S h) cur').
Proof.
  intros (seps & cs & Hshape & Hlv & Hc) [Hall Htops] Hroom Hk.
  destruct (key_count_inner_shape _ _ _ _ _ Hshape) as [Hkc _].
  rewrite Hkc in Hroom.
  destruct (inner_shape_separators _ _ _ _ Hshape) as [Es Ec].
  rewrite Es, Ec in *.
  destruct (chain_seps comparator STO _ _ _ _ _ _ Hc) as [Hs _].
  destruct (chain_pick comparator STO _ (rep_range comparator kCapacity STO h)
              _ _ _ _ _ k Hc Hk)
    as (cL & c & cR & sL & sR & kvL & kvC & kvR & lo' & hi' &
        Ecs & Eseps & HlcL & HlsL & Ekvs & HR & Hin & HfL & HfR &
        Hlb & Hwa & Hws & Hreb1 & Hreb2).
  pose proof Hshape as (krest & crest & -> & Hlen & Hkl & Hcl).
  destruct (inner_lower_bound_spec comparator STO seps krest k
              (Z.of_nat (length cs)) Hs) as [b E]; [lia|].
  subst cs seps.
  apply Forall_app in Hall as [HallL HallC].
  apply Forall_cons_iff in HallC as [Hoc HallR].
  apply (tops_app sL cL sR (c :: cR)) in Htops as [HtL HtR]; [|lia].
  exists (Z.of_nat (length (cL ++ c :: cR))), (arr (sL ++ sR) krest),
         (arr (cL ++ c :: cR) crest),
         (Z.of_nat (lb comparator (sL ++ sR) k)), b, c, kvL, kvC, kvR,
         lo', hi', (hd_error sR).
  split; [reflexivity|]. split; [exact E|].
  split.
  { apply (rd_arr (cL ++ c :: cR) crest (length cL)); [|now rewrite HlcL].
    apply nth_error_middle. }
  split; [exact Ekvs|]. split; [exact HR|]. split; [exact Hoc|].
  split; [exact Hin|]. split; [exact HfL|]. split; [exact HfR|].
  rewrite <- HlcL. clear E Hc.
  split; [|split].
  - intros s Hs0. destruct sR as [|s' sR']; [discriminate Hs0|].
    injection Hs0 as ->. cbn [tops] in HtR. destruct HtR as [Hlast _].
    rewrite (rep_entries comparator kCapacity _ _ _ _ _ HR) in Hlast.
    split; [exact Hlast|].
    apply (lb_above comparator STO (sL ++ s :: sR') k Hs
             (lb comparator (sL ++ s :: sR') k) s); [lia|].
    rewrite <- HlsL. apply nth_error_middle.
  - intros c' kvC' HR' Hoc' Htop.
    destruct (set_child_shape kCapacity _ _ _ cL c cR c' _ Hshape eq_refl)
      as (cur' & E' & Hshape').
    exists cur'. split; [exact E'|]. split.
    + exists (sL ++ sR), (cL ++ c' :: cR). auto.
    + destruct (inner_shape_separators _ _ _ _ Hshape') as [Es' Ec'].
      cbn [occ]. rewrite Es', Ec'. split.
      * apply Forall_app. split; [exact HallL|]. now constructor.
      * apply (tops_app sL cL sR (c' :: cR)); [lia|]. split; [exact HtL|].
        destruct sR as [|s sR']; [exact I|]. cbn [tops] in *.
        split; [|apply HtR].
        rewrite (rep_entries comparator kCapacity _ _ _ _ _ HR').
        now apply Htop.
  - intros sep c1 c2 k1 k2 H1 H2 Ha Hb Ho1 Ho2 Hl1 Htop.
    assert (Hlbs : lb comparator (sL ++ sR) sep = length cL).
    { rewrite HlcL. apply Hlb. split; auto.
      now apply (sbelow_below comparator STO). }
    destruct (absorb_split comparator kCapacity STO cap_u16 _ _ sL sR cL c cR
                c1 c2 sep (Z.of_nat (length cL)) Hshape Hs)
      as (cur1 & cur' & E1 & E2 & Hshape'); try lia; try reflexivity.
    exists cur1, cur'. split; [exact E1|]. split; [exact E2|]. split.
    + exists (sL ++ sep :: sR), (cL ++ c1 :: c2 :: cR).
      split; [exact Hshape'|]. split; [exact Hlv|]. now apply Hreb2.
    + destruct (inner_shape_separators _ _ _ _ Hshape') as [Es' Ec'].
      cbn [occ]. rewrite Es', Ec'. split.
      * apply Forall_app. split; [exact HallL|]. now repeat constructor.
      * apply (tops_app sL cL (sep :: sR) (c1 :: c2 :: cR)); [lia|].
        split; [exact HtL|]. cbn [tops]. split.
        -- now rewrite (rep_entries comparator kCapacity _ _ _ _ _ H1).
        -- destruct sR as [|s sR']; [exact I|]. cbn [tops] in *.
           split; [|apply HtR].
           rewrite (rep_entries comparator kCapacity _ _ _ _ _ H2).
           now apply Htop.
Qed.

(** The descent of [put] keeps the property. *)
Lemma put_loop_occ h :
  forall fuel lo hi (cur : @Node KeyT ValueT) kvs k v,
  REP (S h) lo hi cur kvs -> occ (S h) cur -> key_count cur < kCapacity ->
  in_range comparator lo hi k -> (S h <= fuel)%nat ->
  exists cur', put_loop comparator kCapacity fuel cur k v = Some cur'
    /\ REP (S h) lo hi cur' (upsert comparator k v kvs)
    /\ occ (S h) cur'.
Proof.
  induction h as [|h IH];
    intros fuel lo hi cur kvs k v Hrep Hocc Hroom Hk Hf;
    destruct (descend_occ _ _ _ _ _ k Hrep Hocc Hroom Hk)
      as (kc & keys & children & pos & b & c & kvL & kvC & kvR & lo' & hi' &
          top & -> & Elb & Erd & -> & HR & Hoc & Hin & HfL & HfR & Htop &
          Hnos & Hspl);
    (destruct fuel as [|fuel]; [lia|]);
    cbn [put_loop]; rewrite Elb; cbn [bind]; rewrite Erd; cbn [bind];
    rewrite (upsert_focus comparator STO) by assumption.
  - (* the children are leaves *)
    change (Z.of_nat 1 =? 1) with true. cbn iota.
    pose proof HR as ((ckrest & cvrest & -> & Hccap & Hclen) & Hcs & Hcr).
    destruct (Z.leb_spec kCapacity (Z.of_nat (length kvC))) as [Hfull|Hfree].
    + destruct (leaf_split_occ lo' hi' _ kvC HR)
        as (l & r & sep & k1 & k2 & E & Ek & Hl & Hr & Ha & Hb & Hl1 & Hl2 &
            Hlast1 & Hne2 & Hlast2); [lia|].
      rewrite E. cbn [bind].
      destruct (comparator sep k) eqn:Ec.
      * destruct (leaf_insert_occ (Some sep) hi' r k2 k v Hr)
          as (r' & E' & Hr' & Hor');
          [split; [exact Ec|apply Hin] | exact Hl2 |].
        rewrite E'. cbn [bind].
        destruct (Hspl sep l r' k1 _ Hl Hr' Ha Hb)
          as (cur1 & cur' & E1 & E2 & Hrep' & Hocc').
        { eapply occ_leaf; [exact Hl|]. eapply last_key_nonempty; eauto. }
        { exact Hor'. }
        { exact Hlast1. }
        { intros s Hs. destruct (Htop s Hs) as [Hls Hsk].
          apply upsert_last_key; [congruence|exact Hsk]. }
        rewrite E1. cbn [bind]. rewrite E2.
        exists cur'. split; [reflexivity|]. split; [|exact Hocc'].
        rewrite Ek, (upsert_right_half comparator kCapacity STO
                       _ _ _ hi' _ k v k1 k2 Hl Ec).
        exact Hrep'.
      * destruct (leaf_insert_occ lo' (Some sep) l k1 k v Hl)
          as (l' & E' & Hl' & Hol');
          [split; [apply Hin|exact Ec] | exact Hl1 |].
        rewrite E'. cbn [bind].
        destruct (Hspl sep l' r _ k2 Hl' Hr Ha Hb)
          as (cur1 & cur' & E1 & E2 & Hrep' & Hocc').
        { exact Hol'. }
        { eapply occ_leaf; [exact Hr|exact Hne2]. }
        { now apply upsert_last_key. }
        { intros s Hs. destruct (Htop s Hs) as [Hls _]. congruence. }
        rewrite E1. cbn [bind]. rewrite E2.
        exists cur'. split; [reflexivity|]. split; [|exact Hocc'].
        rewrite Ek, (upsert_left_half comparator kCapacity STO
                       _ _ _ _ k v k1 k2 Hr Ec).
        exact Hrep'.
    + destruct (leaf_insert_occ lo' hi' _ kvC k v HR Hin Hfree)
        as (c' & E' & HR' & Hoc').
      rewrite E'. cbn [bind].
      destruct (Hnos c' _ HR' Hoc') as (cur' & E1 & Hrep' & Hocc').
      { intros s Hs. destruct (Htop s Hs) as [Hls Hsk].
        now apply upsert_last_key. }
      exists cur'. split; [exact E1|]. split; assumption.
  - (* the children are inner nodes *)
    destruct (Z.eqb_spec (Z.of_nat (S (S h))) 1) as [Habs|_]; [lia|].
    pose proof HR as (cseps & ccs & Hcshape & Hclv & Hcc).
    pose proof Hcshape as (ckrest & ccrest & -> & Hclen & Hckl & Hccl).
    cbn iota.
    destruct (Z.leb_spec kCapacity (Z.of_nat (length ccs))) as [Hfull|Hfree].
    + destruct (inner_split_occ h lo' hi' _ kvC HR Hoc)
        as (l & r0 & sep & k1 & k2 & E & Ek & Hl & Hr & Ha & Hb & Hl1 & Hl2 &
            Hol & Hor & Hlast1 & Hlast2).
      { cbn [key_count]. lia. }
      rewrite E. cbn [bind].
      destruct (comparator sep k) eqn:Ecmp.
      * destruct (IH fuel (Some sep) hi' _ k2 k v Hr Hor Hl2)
          as (r' & E' & Hr' & Hor');
          [split; [exact Ecmp|apply Hin] | lia |].
        rewrite E'. cbn [bind].
        destruct (Hspl sep l r' k1 _ Hl Hr' Ha Hb Hol Hor' Hlast1)
          as (cur1 & cur' & E1 & E2 & Hrep' & Hocc').
        { intros s Hs. destruct (Htop s Hs) as [Hls Hsk].
          apply upsert_last_key; [congruence|exact Hsk]. }
        rewrite E1. cbn [bind]. rewrite E2.
        exists cur'. split; [reflexivity|]. split; [|exact Hocc'].
        rewrite Ek, (upsert_right_half comparator kCapacity STO
                       _ _ _ hi' _ k v k1 k2 Hl Ecmp).
        exact Hrep'.
      * destruct (IH fuel lo' (Some sep) l k1 k v Hl Hol Hl1)
          as (l' & E' & Hl' & Hol');
          [split; [apply Hin|exact Ecmp] | lia |].
        rewrite E'. cbn [bind].
        destruct (Hspl sep l' _ _ k2 Hl' Hr Ha Hb Hol' Hor)
          as (cur1 & cur' & E1 & E2 & Hrep' & Hocc').
        { now apply upsert_last_key. }
        { intros s Hs. destruct (Htop s Hs) as [Hls _]. congruence. }
        rewrite E1. cbn [bind]. rewrite E2.
        exists cur'. split; [reflexivity|]. split; [|exact Hocc'].
        rewrite Ek, (upsert_left_half comparator kCapacity STO
                       _ _ _ _ k v k1 k2 Hr Ecmp).
        exact Hrep'.
    + destruct (IH fuel lo' hi' _ kvC k v HR Hoc) as (c' & E' & HR' & Hoc');
        [cbn [key_count]; lia | exact Hin | lia |].
      rewrite E'. cbn [bind].
      destruct (Hnos c' _ HR' Hoc') as (cur' & E1 & Hrep' & Hocc').
      { intros s Hs. destruct (Htop s Hs) as [Hls Hsk].
        now apply upsert_last_key. }
      exists cur'. split; [exact E1|]. split; assumption.
Qed.

(** The new root of a root split. *)
Lemma make_root_occ h lo hi (l r : @Node KeyT ValueT) sep k1 k2 lv :
  REP h lo (Some sep) l k1 -> REP h (Some sep) hi r k2 ->
  above comparator lo sep -> sbelow comparator sep hi ->
  lv = Z.of_nat (S h) -> lv <= 65535 ->
  occ h l -> occ h r -> last_key k1 = Some sep ->
  exists root', make_root comparator kCapacity lv l sep r = Some root'
    /\ REP (S h) lo hi root' (k1 ++ k2)
    /\ occ (S h) root'.
Proof.
  intros Hl Hr Ha Hb Elv Hlv Hol Hor Hlast.
  destruct (make_root_rep comparator kCapacity STO cap_u16 h lo hi l r sep
              k1 k2 lv ltac:(lia) Hl Hr Ha Hb Elv Hlv)
    as (root' & E & Hrep & Hch).
  exists root'. split; [exact E|]. split; [exact Hrep|].
  assert (Hsep : separators root' = [sep]).
  { revert E. unfold make_root, new_InnerNode, wr, put_slot.
    destruct (fresh_array (A:=@Node KeyT ValueT) kCapacity) as [|s0 crest];
      [discriminate|].
    cbn [length bind upd Z.to_nat].
    destruct ((0 <=? 0) && (0 <? Z.of_nat (S (length crest)))) eqn:Eb;
      [|discriminate].
    cbn [bind]. unfold insert_split.
    change (inner_lower_bound comparator 1 (fresh_array kCapacity) sep)
      with (Some (0, false)).
    cbn [bind guard Z.leb Z.compare Z.sub Z.add Z.opp Z.pos_sub Z.to_nat
         shift_up].
    unfold wr, put_slot.
    destruct (fresh_array (A:=KeyT) kCapacity) as [|k0 krest];
      [discriminate|].
    cbn [length upd Z.to_nat].
    destruct ((0 <=? 0) && (0 <? Z.of_nat (S (length krest)))); [|discriminate].
    cbn [bind].
    destruct ((0 <=? 1) && (1 <? Z.of_nat (S (length crest))));
      [|discriminate].
    cbn [bind]. intros H. injection H as <-. reflexivity. }
  cbn [occ]. rewrite Hsep, Hch. split.
  - now repeat constructor.
  - cbn [tops]. split; [|exact I].
    now rewrite (rep_entries comparator kCapacity _ _ _ _ _ Hl).
Qed.

(** ** [put] and runs keep the property *)

Definition tree_occ (t : @Btree KeyT ValueT) kvs : Prop :=
  match t with
  | None => kvs = []
  | Some r => exists h, REP h None None r kvs /\ occ h r
  end.

Lemma put_occ (t : @Btree KeyT ValueT) kvs k v :
  tree_occ t kvs -> root_level t < 65535 ->
  exists t', put comparator kCapacity t k v = Some t'
    /\ tree_occ t' (upsert comparator k v kvs)
    /\ root_level t' <= root_level t + 1.
Proof.
  intros Htree Hlv. destruct t as [r|].
  2:{ simpl in Htree. subst kvs. unfold put.
      destruct (leaf_insert_occ None None _ [] k v
                  (new_LeafNode_rep comparator kCapacity ltac:(lia))
                  (in_range_open comparator k))
        as (n' & E & Hrep & Ho); [simpl; lia|].
      rewrite E. cbn [bind]. eexists; split; [reflexivity|].
      split; [exists O; split; assumption|].
      simpl. rewrite (rep_level comparator kCapacity _ _ _ _ _ Hrep). lia. }
  destruct Htree as (h & Hrep & Hocc). simpl in Hlv.
  pose proof (rep_level comparator kCapacity _ _ _ _ _ Hrep) as Hlevel.
  pose proof (rep_height comparator kCapacity _ _ _ _ _ Hrep) as Hheight.
  unfold put, is_leaf. rewrite Hlevel.
  destruct h as [|h].
  - change (Z.of_nat 0 =? 0) with true. cbn iota.
    pose proof Hrep as ((krest & vrest & -> & Hcap & Hlen) & Hs & Hr).
    destruct (Z.leb_spec kCapacity (Z.of_nat (length kvs))) as [Hfull|Hfree].
    + destruct (leaf_split_occ None None _ kvs Hrep)
        as (l & r & sep & k1 & k2 & E & Ek & Hl & Hrr & Ha & Hb & Hl1 & Hl2 &
            Hlast1 & Hne2 & _); [lia|].
      rewrite E. cbn [bind].
      destruct (comparator sep k) eqn:Ec.
      * destruct (leaf_insert_occ (Some sep) None r k2 k v Hrr)
          as (r' & E' & Hr' & Hor'); [split; [exact Ec|exact I] | exact Hl2 |].
        rewrite E'. cbn [bind].
        destruct (make_root_occ 0 None None l r' sep k1 _ 1 Hl Hr' Ha Hb)
          as (root' & E1 & Hrep' & Hocc'); try reflexivity; try lia; auto.
        { eapply occ_leaf; [exact Hl|]. eapply last_key_nonempty; eauto. }
        rewrite E1. cbn [bind]. eexists; split; [reflexivity|].
        split.
        -- exists 1%nat.
           rewrite Ek, (upsert_right_half comparator kCapacity STO
                          _ _ _ None _ k v k1 k2 Hl Ec).
           split; assumption.
        -- simpl. rewrite (rep_level comparator kCapacity _ _ _ _ _ Hrep').
           simpl. lia.
      * destruct (leaf_insert_occ None (Some sep) l k1 k v Hl)
          as (l' & E' & Hl' & Hol'); [split; [exact I|exact Ec] | exact Hl1 |].
        rewrite E'. cbn [bind].
        destruct (make_root_occ 0 None None l' r sep _ k2 1 Hl' Hrr Ha Hb)
          as (root' & E1 & Hrep' & Hocc'); try reflexivity; try lia; auto.
        { eapply occ_leaf; [exact Hrr|exact Hne2]. }
        { now apply upsert_last_key. }
        rewrite E1. cbn [bind]. eexists; split; [reflexivity|].
        split.
        -- exists 1%nat.
           rewrite Ek, (upsert_left_half comparator kCapacity STO
                          _ _ _ _ k v k1 k2 Hrr Ec).
           split; assumption.
        -- simpl. rewrite (rep_level comparator kCapacity _ _ _ _ _ Hrep').
           simpl. lia.
    + destruct (leaf_insert_occ None None _ kvs k v Hrep
                  (in_range_open comparator k) Hfree)
        as (n' & E & Hrep' & Ho').
      rewrite E. cbn [bind]. eexists; split; [reflexivity|].
      split; [exists O; split; assumption|].
      simpl. rewrite (rep_level comparator kCapacity _ _ _ _ _ Hrep'). lia.
  - destruct (Z.eqb_spec (Z.of_nat (S h)) 0) as [Habs|_]; [lia|].
    assert (Hfuel : (S h <= S (height r))%nat) by lia.
    remember (S (height r)) as fuel eqn:Efuel. clear Efuel Hheight.
    pose proof Hrep
      as (seps & cs & (krest & crest & -> & Hclen & Hkl & Hcl) & _ & _).
    cbn iota.
    destruct (Z.leb_spec kCapacity (Z.of_nat (length cs))) as [Hfull|Hfree].
    + destruct (inner_split_occ h None None _ kvs Hrep Hocc)
        as (l & r0 & sep & k1 & k2 & E & Ek & Hl & Hrr & Ha & Hb & Hl1 & Hl2 &
            Hol & Hor & Hlast1 & _).
      { cbn [key_count]. lia. }
      rewrite E. cbn [bind].
      pose proof (rep_level comparator kCapacity _ _ _ _ _ Hl) as Hll.
      destruct (comparator sep k) eqn:Ec.
      * destruct (put_loop_occ h fuel (Some sep) None _ k2 k v Hrr Hor Hl2)
          as (r' & E' & Hr' & Hor'); [split; [exact Ec|exact I] | lia |].
        rewrite E'. cbn [bind].
        destruct (make_root_occ (S h) None None l r' sep k1 _
                    (level l + 1) Hl Hr' Ha Hb)
          as (root' & E1 & Hrep' & Hocc'); try lia; auto.
        rewrite E1. cbn [bind]. eexists; split; [reflexivity|].
        split.
        -- exists (S (S h)).
           rewrite Ek, (upsert_right_half comparator kCapacity STO
                          _ _ _ None _ k v k1 k2 Hl Ec).
           split; assumption.
        -- simpl. rewrite (rep_level comparator kCapacity _ _ _ _ _ Hrep').
           lia.
      * destruct (put_loop_occ h fuel None (Some sep) l k1 k v Hl Hol Hl1)
          as (l' & E' & Hl' & Hol'); [split; [exact I|exact Ec] | lia |].
        rewrite E'. cbn [bind].
        destruct (make_root_occ (S h) None None l' _ sep _ k2
                    (level l + 1) Hl' Hrr Ha Hb)
          as (root' & E1 & Hrep' & Hocc'); try lia; auto.
        { now apply upsert_last_key. }
        rewrite E1. cbn [bind]. eexists; split; [reflexivity|].
        split.
        -- exists (S (S h)).
           rewrite Ek, (upsert_left_half comparator kCapacity STO
                          _ _ _ _ k v k1 k2 Hrr Ec).
           split; assumption.
        -- simpl. rewrite (rep_level comparator kCapacity _ _ _ _ _ Hrep').
           lia.
    + destruct (put_loop_occ h fuel None None _ kvs k v Hrep Hocc)
        as (r' & E' & Hr' & Hor'); [cbn [key_count]; lia
                                   | apply in_range_open | lia |].
      rewrite E'. cbn [bind]. eexists; split; [reflexivity|].
      split; [exists (S h); split; assumption|].
      simpl. rewrite (rep_level comparator kCapacity _ _ _ _ _ Hr'). lia.
Qed.

Lemma run_occ (ops : list (@op KeyT ValueT)) : forall t kvs,
  tree_occ t kvs ->
  root_level t + Z.of_nat (length ops) <= 65535 ->
  exists t', run comparator kCapacity t ops = Some t'
    /\ tree_occ t' (fold_left (apply_op comparator) ops kvs)
    /\ root_level t' <= root_level t + Z.of_nat (length ops).
Proof.
  induction ops as [|[k|k v] ops IH]; intros t kvs Ht Hlv.
  - exists t. simpl. repeat split; auto. lia.
  - assert (Hrep : tree_rep comparator kCapacity t kvs).
    { destruct t as [r|]; [|exact Ht].
      destruct Ht as (h & Hrep & _). now exists h. }
    cbn [run]. rewrite (get_rep comparator kCapacity STO t kvs k Hrep).
    cbn [bind].
    destruct (IH t kvs Ht) as (t' & E & Ht' & Hl);
      [cbn [length] in Hlv; lia|].
    exists t'. repeat split; auto. cbn [length]. lia.
  - cbn [run].
    destruct (put_occ t kvs k v Ht) as (t1 & E1 & Ht1 & Hl1);
      [cbn [length] in Hlv; lia|].
    rewrite E1. cbn [bind].
    destruct (IH t1 _ Ht1) as (t' & E & Ht' & Hl);
      [cbn [length] in Hlv; lia|].
    exists t'. repeat split; auto. cbn [length]. lia.
Qed.

Lemma occ_in_tree (m n : @Node KeyT ValueT) :
  in_tree m n -> forall h lo hi kvs,
  REP h lo hi n kvs -> occ h n ->
  exists h' lo' hi' kvs', REP h' lo' hi' m kvs' /\ occ h' m.
Proof.
  induction 1 as [|n c Hin Hm IH]; intros h lo hi kvs H Ho.
  - eauto 6.
  - destruct h as [|h].
    + destruct H as ((krest & vrest & -> & _) & _). destruct Hin.
    + pose proof (rep_children comparator kCapacity _ _ _ _ _ H) as Hall.
      rewrite Forall_forall in Hall.
      destruct (Hall _ Hin) as (lo' & hi' & kvs' & Hc).
      destruct Ho as [Hoall _]. rewrite Forall_forall in Hoall.
      eapply IH; eauto.
Qed.

(** X22.  After any run of at most 65535 calls on a fresh tree (capacity
    3 to 65535), no leaf of the tree is empty, and every separator of
    every inner node is the key of the last entry stored below the child
    left of it: a separator is a copy of a key that is stored, the
    greatest one of that subtree. *)
Theorem separators_are_last_keys (ops : list (@op KeyT ValueT)) :
  Z.of_nat (length ops) <= 65535 ->
  exists t, run comparator kCapacity new_Btree ops = Some t
    /\ forall r m, t = Some r -> in_tree m r ->
       (is_LeafNode m = true -> 1 <= key_count m)
       /\ (forall i s c,
             nth_error (separators m) i = Some s ->
             nth_error (children_of m) i = Some c ->
             last_key (entries c) = Some s
             /\ In s (map fst (tree_entries t))).
Proof.
  intros Hlen.
  destruct (run_occ ops new_Btree []) as (t & E & Ht & _);
    [reflexivity|simpl; lia|].
  exists t. split; [exact E|]. intros r m -> Hin.
  destruct Ht as (h & Hrep & Hocc).
  destruct (occ_in_tree m r Hin h _ _ _ Hrep Hocc)
    as (h' & lo' & hi' & kvs' & Hm & Hom).
  destruct h' as [|h'].
  - pose proof Hm as ((krest & vrest & -> & _) & _). split.
    + intros _. exact Hom.
    + intros i s c Hs. destruct i; discriminate Hs.
  - pose proof Hm as (seps & cs & (krest & crest & Em & _) & _).
    split; [subst m; discriminate|].
    intros i s c Hs Hc. destruct Hom as [_ Htops].
    pose proof (tops_nth _ _ _ _ _ Htops Hs Hc) as Hlast.
    split; [exact Hlast|].
    (* the last entry below [c] is an entry of the tree *)
    assert (Hsub : forall a b : @Node KeyT ValueT, in_tree a b ->
              forall x, In x (entries a) -> In x (entries b)).
    { clear. induction 1 as [|n c Hin Hm IH]; intros x Hx; [exact Hx|].
      specialize (IH x Hx). destruct n as [|lv kc keys children];
        [destruct Hin|].
      cbn [children_of entries] in *.
      revert Hin. generalize (Z.to_nat kc) as j.
      induction children as [|[c0|] t IHc]; intros j Hin.
      - destruct j; destruct Hin.
      - destruct j; [destruct Hin|]. cbn [slots_take] in Hin.
        apply in_or_app. destruct Hin as [->|Hin]; [now left|].
        right. now apply (IHc j).
      - destruct j; [destruct Hin|]. cbn [slots_take] in Hin.
        now apply (IHc j). }
    assert (Hcin : in_tree c r).
    { clear - Hin Hc. apply nth_error_In in Hc.
      induction Hin as [|n c0 Hin0 Hm IH].
      - eapply in_tree_child; [exact Hc|apply in_tree_self].
      - eapply in_tree_child; [exact Hin0|exact IH]. }
    unfold last_key in Hlast.
    destruct (rev (entries c)) as [|p t] eqn:Er; [discriminate Hlast|].
    injection Hlast as <-. cbn [tree_entries].
    apply in_map, (Hsub c r Hcin).
    apply in_rev. rewrite Er. now left.
Qed.

End Occupancy.

(** * The locks taken by [get] and [put]

    A run of one call alone, with the calls of [lock] and [unlock] it
    makes on the mutexes, in order. *)

Section Discipline.
Context {M : Type}.
(** Equality of mutexes. *)
Variable eqb : M -> M -> bool.

Inductive lock_op : Type :=
| Acquire (m : M)
| Release (m : M).

Definition holds (m : M) (held : list M) : bool := existsb (eqb m) held.

Fixpoint release (m : M) (held : list M) : list M :=
  match held with
  | [] => []
  | x :: t => if eqb m x then t else x :: release m t
  end.

(** [disciplined bound held tr]: started with the mutexes [held], the
    calls [tr] never lock a mutex that is held, never unlock one that is
    not, never hold more than [bound] at once, and end with none held. *)
Fixpoint disciplined (bound : nat) (held : list M) (tr : list lock_op)
  : bool :=
  match tr with
  | [] => match held with [] => true | _ :: _ => false end
  | Acquire m :: tr' =>
      negb (holds m held) && (length held <? bound)%nat
      && disciplined bound (m :: held) tr'
  | Release m :: tr' =>
      holds m held && disciplined bound (release m held) tr'
  end.
End Discipline.

Arguments lock_op M : clear implicits.

(** The calls of [get] on the mutexes of the nodes; a node on the way
    from the root to a leaf is named by its level. *)
Definition read_op (e : lock_event) : lock_op Z :=
  match e with
  | LockRead lv => Acquire lv
  | UnlockRead lv => Release lv
  end.

(** Lock coupling from a node of level [h] that is locked: the child is
    locked before the node is unlocked, down to the leaf. *)
Fixpoint coupling (h : nat) : list lock_event :=
  match h with
  | O => [UnlockRead 0]
  | S h' =>
      LockRead (Z.of_nat h') :: UnlockRead (Z.of_nat (S h')) :: coupling h'
  end.

Lemma coupling_disciplined h :
  disciplined Z.eqb 2 [Z.of_nat h] (map read_op (coupling h)) = true.
Proof.
  induction h as [|h IH]; [reflexivity|].
  cbn [coupling map read_op disciplined holds existsb release length].
  rewrite !Z.eqb_refl.
  assert (E1 : (Z.of_nat h =? Z.of_nat (S h)) = false) by (apply Z.eqb_neq; lia).
  assert (E2 : (Z.of_nat (S h) =? Z.of_nat h) = false) by (apply Z.eqb_neq; lia).
  rewrite E1, E2. cbn [orb negb andb]. exact IH.
Qed.

Section GetLocks.
Context {KeyT ValueT : Type}.
Variable comparator : KeyT -> KeyT -> bool.
Variable kCapacity : Z.
Hypothesis STO : strict_total_order comparator.

Lemma get_loop_events_trace h : forall fuel lo hi (n : @Node KeyT ValueT) kvs k tr res,
  rep comparator kCapacity h lo hi n kvs ->
  get_loop_events comparator fuel n k = Some (tr, res) ->
  tr = coupling h.
Proof.
  induction h as [|h IH]; intros fuel lo hi n kvs k tr res H E.
  - destruct H as ((krest & vrest & -> & _) & _).
    assert (E' : ('(pos, found) <- leaf_lower_bound comparator
                     (Z.of_nat (length kvs)) (arr (map fst kvs) krest) k ;;
                  if (found : bool) then
                    r <- rd (arr (map snd kvs) vrest) pos ;;
                    Some ([UnlockRead 0], Some r)
                  else Some ([UnlockRead 0], None)) = Some (tr, res))
      by (destruct fuel; exact E).
    destruct (leaf_lower_bound comparator _ _ k) as [[pos [|]]|];
      cbn [bind] in E'; try discriminate E'.
    + destruct (rd _ pos); cbn [bind] in E'; [|discriminate E'].
      now injection E' as <- _.
    + now injection E' as <- _.
  - pose proof (rep_children comparator kCapacity _ _ _ _ _ H) as Hch.
    destruct H as (seps & cs & (krest & crest & -> & Hlen & Hkl & Hcl) & Hlv & Hc).
    destruct (chain_seps comparator STO _ _ _ _ _ _ Hc) as [Hs _].
    destruct fuel as [|fuel]; [discriminate E|].
    cbn [get_loop_events is_leaf level] in E.
    destruct (Z.eqb_spec (Z.of_nat (S h)) 0); [lia|].
    destruct (inner_lower_bound_spec comparator STO seps krest k
                (Z.of_nat (length cs)) Hs) as [b Eb]; [lia|].
    rewrite Eb in E. cbn [bind] in E.
    pose proof (lb_le_length comparator seps k) as Hi.
    destruct (nth_error cs (lb comparator seps k)) as [c|] eqn:Ec.
    2:{ apply nth_error_None in Ec. lia. }
    rewrite (rd_arr cs crest _ _ c Ec eq_refl) in E. cbn [bind] in E.
    destruct (get_loop_events comparator fuel c k) as [[ev r]|] eqn:El;
      cbn [bind] in E; [|discriminate E].
    injection E as <- _.
    cbn [children_of] in Hch. rewrite Nat2Z.id, slots_take_arr in Hch.
    rewrite Forall_forall in Hch.
    destruct (Hch c (nth_error_In _ _ Ec)) as (lo' & hi' & kvs' & Hrc).
    rewrite (rep_level comparator kCapacity _ _ _ _ _ Hrc).
    rewrite (IH fuel lo' hi' c kvs' k ev r Hrc El).
    reflexivity.
Qed.

(** X13.  The locks of [get] on a well-formed tree with a root: the
    root is locked first; then, level by level, the child is locked and
    only then its parent unlocked; the leaf is unlocked last, whether or
    not the key is found.  So [get] returns with no lock held, never
    holds more than two, and locks one node of each level. *)
Theorem get_lock_coupling (t : @Btree KeyT ValueT) (r : @Node KeyT ValueT) k :
  well_formed comparator kCapacity t -> t = Some r ->
  exists tr res,
    get_events comparator t k = Some (tr, res)
    /\ get comparator t k = Some res
    /\ tr = LockRead (level r) :: coupling (Z.to_nat (level r))
    /\ disciplined Z.eqb 2 [] (map read_op tr) = true.
Proof.
  intros [kvs Ht] ->. destruct Ht as [h Hrep].
  pose proof (get_events_result comparator (Some r) k) as Hres.
  rewrite (get_rep comparator kCapacity STO (Some r) kvs k
             (ex_intro _ h Hrep)) in Hres.
  pose proof (rep_level comparator kCapacity _ _ _ _ _ Hrep) as Hlv.
  unfold get_events in *.
  destruct (get_loop_events comparator (height r) r k) as [[ev res]|] eqn:E;
    cbn [bind option_map snd] in *; [|discriminate Hres].
  injection Hres as ->.
  exists (LockRead (level r) :: ev), (lookup comparator k kvs).
  rewrite (get_rep comparator kCapacity STO (Some r) kvs k (ex_intro _ h Hrep)).
  rewrite (get_loop_events_trace h _ _ _ _ _ _ _ _ Hrep E).
  rewrite Hlv, Nat2Z.id.
  repeat split.
  cbn [map read_op disciplined holds existsb length negb andb Nat.ltb Nat.leb].
  apply coupling_disciplined.
Qed.

End GetLocks.

(** ** [put] with its locks

    The mutexes [put] touches: [global_mutex]; the mutex of the
    [new_root] of a root split; at each depth on the way to the key (the
    root has depth 0), the mutex of the node of the tree that is locked
    there, and that of the [right_neighbor_node] allocated there for a
    split. *)
Inductive mutex : Type :=
| GlobalMutex
| NewRoot
| OnPath (depth : nat)
| Neighbor (depth : nat).

Definition mutex_eqb (a b : mutex) : bool :=
  match a, b with
  | GlobalMutex, GlobalMutex => true
  | NewRoot, NewRoot => true
  | OnPath d, OnPath d' => Nat.eqb d d'
  | Neighbor d, Neighbor d' => Nat.eqb d d'
  | _, _ => false
  end.

Section PutLocks.
Context {KeyT ValueT : Type}.
Variable comparator : KeyT -> KeyT -> bool.
Variable kCapacity : Z.

(** The loop of [put] as in [put_loop], with the calls of [lock_write]
    and [unlock_write]; [current] is the mutex of [current_node], which
    is locked, and [depth] its depth. *)
Fixpoint put_loop_events (fuel : nat) (depth : nat) (current : mutex)
         (current_node : @Node KeyT ValueT) (key : KeyT) (value : ValueT)
  : option (list (lock_op mutex) * @Node KeyT ValueT) :=
  match fuel, current_node with
  | S fuel', Inner lv kc keys children =>
      '(pos, _) <- inner_lower_bound comparator kc keys key ;;
      child_node <- rd children pos ;;
      let child := OnPath (S depth) in
      let right := Neighbor (S depth) in
      if lv =? 1 then
        match child_node with
        | Leaf _ ckc _ _ =>
            if kCapacity <=? ckc then
              '(child_node_leaf, right_neighbor_node, separator_key)
                <- leaf_split child_node (new_LeafNode kCapacity) ;;
              if comparator separator_key key then
                right' <- leaf_insert comparator right_neighbor_node key value ;;
                cur <- set_child current_node pos child_node_leaf ;;
                n' <- insert_split comparator cur separator_key right' ;;
                Some ([Acquire child; Acquire right; Release child;
                       Release current; Release right], n')
              else
                left' <- leaf_insert comparator child_node_leaf key value ;;
                cur <- set_child current_node pos left' ;;
                n' <- insert_split comparator cur separator_key
                                   right_neighbor_node ;;
                Some ([Acquire child; Acquire right; Release right;
                       Release current; Release child], n')
            else
              child' <- leaf_insert comparator child_node key value ;;
              n' <- set_child current_node pos child' ;;
              Some ([Acquire child; Release current; Release child], n')
        | Inner _ _ _ _ => None
        end
      else
        match child_node with
        | Inner clv ckc _ _ =>
            if kCapacity <=? ckc then
              '(child_node_inner, right0, separator_key)
                <- inner_split child_node (new_InnerNode kCapacity) ;;
              let right_neighbor_node :=
                set_level right0 (level child_node_inner) in
              if comparator separator_key key then
                '(events, right')
                  <- put_loop_events fuel' (S depth) right
                                     right_neighbor_node key value ;;
                cur <- set_child current_node pos child_node_inner ;;
                n' <- insert_split comparator cur separator_key right' ;;
                Some (Acquire child :: Acquire right :: Release child
                        :: Release current :: events, n')
              else
                '(events, left')
                  <- put_loop_events fuel' (S depth) child
                                     child_node_inner key value ;;
                cur <- set_child current_node pos left' ;;
                n' <- insert_split comparator cur separator_key
                                   right_neighbor_node ;;
                Some (Acquire child :: Acquire right :: Release right
                        :: Release current :: events, n')
            else
              '(events, child')
                <- put_loop_events fuel' (S depth) child child_node key value ;;
              n' <- set_child current_node pos child' ;;
              Some (Acquire child :: Release current :: events, n')
        | Leaf _ _ _ _ => None
        end
  | _, _ => None
  end.

(** [put] as in [put], with its calls on the mutexes. *)
Definition put_events (root : @Btree KeyT ValueT) (key : KeyT) (value : ValueT)
  : option (list (lock_op mutex) * @Btree KeyT ValueT) :=
  match root with
  | None =>
      leaf <- leaf_insert comparator (new_LeafNode kCapacity) key value ;;
      Some ([Acquire GlobalMutex; Release GlobalMutex], Some leaf)
  | Some r =>
      if is_leaf r then
        match r with
        | Leaf _ kc _ _ =>
            if kCapacity <=? kc then
              '(leafNode, right_neighbor_node, separator_key)
                <- leaf_split r (new_LeafNode kCapacity) ;;
              if comparator separator_key key then
                right' <- leaf_insert comparator right_neighbor_node key value ;;
                new_root <- make_root comparator kCapacity 1 leafNode
                                      separator_key right' ;;
                Some ([Acquire GlobalMutex; Acquire (OnPath 0);
                       Acquire (Neighbor 0);
                       Acquire NewRoot; Release NewRoot;
                       Release GlobalMutex;
                       Release (OnPath 0); Release (Neighbor 0)],
                      Some new_root)
              else
                left' <- leaf_insert comparator leafNode key value ;;
                new_root <- make_root comparator kCapacity 1 left'
                                      separator_key right_neighbor_node ;;
                Some ([Acquire GlobalMutex; Acquire (OnPath 0);
                       Acquire (Neighbor 0);
                       Acquire NewRoot; Release NewRoot;
                       Release GlobalMutex;
                       Release (Neighbor 0); Release (OnPath 0)],
                      Some new_root)
            else
              leaf' <- leaf_insert comparator r key value ;;
              Some ([Acquire GlobalMutex; Acquire (OnPath 0);
                     Release GlobalMutex; Release (OnPath 0)],
                    Some leaf')
        | Inner _ _ _ _ => None
        end
      else
        match r with
        | Inner lv kc _ _ =>
            if kCapacity <=? kc then
              '(innerNode, right0, separator_key)
                <- inner_split r (new_InnerNode kCapacity) ;;
              let right_neighbor_node := set_level right0 (level innerNode) in
              if comparator separator_key key then
                '(events, right')
                  <- put_loop_events (S (height r)) 0 (Neighbor 0)
                                     right_neighbor_node key value ;;
                new_root <- make_root comparator kCapacity
                                      (level innerNode + 1) innerNode
                                      separator_key right' ;;
                Some (Acquire GlobalMutex :: Acquire (OnPath 0)
                        :: Acquire (Neighbor 0) :: Release (OnPath 0)
                        :: Acquire NewRoot :: Release NewRoot
                        :: Release GlobalMutex :: events,
                      Some new_root)
              else
                '(events, left')
                  <- put_loop_events (S (height r)) 0 (OnPath 0)
                                     innerNode key value ;;
                new_root <- make_root comparator kCapacity
                                      (level innerNode + 1) left'
                                      separator_key right_neighbor_node ;;
                Some (Acquire GlobalMutex :: Acquire (OnPath 0)
                        :: Acquire (Neighbor 0) :: Release (Neighbor 0)
                        :: Acquire NewRoot :: Release NewRoot
                        :: Release GlobalMutex :: events,
                      Some new_root)
            else
              '(events, r')
                <- put_loop_events (S (height r)) 0 (OnPath 0) r key value ;;
              Some (Acquire GlobalMutex :: Acquire (OnPath 0)
                      :: Release GlobalMutex :: events,
                    Some r')
        | Leaf _ _ _ _ => None
        end
  end.

(** The calls on the mutexes do not change what [put] does. *)
Lemma put_loop_events_result fuel : forall depth current n k v,
  option_map snd (put_loop_events fuel depth current n k v)
  = put_loop comparator kCapacity fuel n k v.
Proof.
  induction fuel as [|fuel IH]; intros depth current n k v; [reflexivity|].
  destruct n as [|lv kc keys children]; [reflexivity|].
  cbn [put_loop_events put_loop].
  repeat first
    [ reflexivity
    | match goal with
      | |- context [put_loop comparator kCapacity fuel ?n ?k ?v] =>
          match goal with
          | |- context [put_loop_events fuel ?d ?c n k v] =>
              rewrite <- (IH d c n k v);
              destruct (put_loop_events fuel d c n k v) as [[? ?]|]
          end
      | |- context [bind ?m _] => destruct m
      | |- context [match ?x with _ => _ end] => destruct x
      end; cbn [bind option_map snd] ].
Qed.

Lemma put_events_result (t : @Btree KeyT ValueT) k v :
  option_map snd (put_events t k v) = put comparator kCapacity t k v.
Proof.
  destruct t as [r|]; cbn [put_events put].
  - repeat first
      [ reflexivity
      | match goal with
        | |- context [put_loop comparator kCapacity ?f ?n ?k ?v] =>
            match goal with
            | |- context [put_loop_events f ?d ?c n k v] =>
                rewrite <- (put_loop_events_result f d c n k v);
                destruct (put_loop_events f d c n k v) as [[? ?]|]
            end
        | |- context [bind ?m _] => destruct m
        | |- context [match ?x with _ => _ end] => destruct x
        end; cbn [bind option_map snd] ].
  - destruct (leaf_insert comparator (new_LeafNode kCapacity) k v);
      reflexivity.
Qed.

Lemma disciplined_mono {M : Type} (eqb : M -> M -> bool) b b' tr :
  (b <= b')%nat -> forall held,
  disciplined eqb b held tr = true -> disciplined eqb b' held tr = true.
Proof.
  intros Hb. induction tr as [|[m|m] tr IH]; intros held; cbn [disciplined].
  - auto.
  - intros H. apply andb_prop in H as [H H3]. apply andb_prop in H as [H1 H2].
    rewrite H1, (IH _ H3). apply Nat.ltb_lt in H2.
    destruct (Nat.ltb_spec (length held) b'); [reflexivity|lia].
  - intros H. apply andb_prop in H as [H1 H2].
    now rewrite H1, (IH _ H2).
Qed.

Lemma eqb_S_n d : Nat.eqb (S d) d = false.
Proof. apply Nat.eqb_neq. lia. Qed.

Lemma eqb_n_S d : Nat.eqb d (S d) = false.
Proof. apply Nat.eqb_neq. lia. Qed.

Ltac locks :=
  repeat (progress
    (cbn [disciplined holds existsb release mutex_eqb length
          negb andb orb Nat.ltb Nat.leb];
     rewrite ?Nat.eqb_refl, ?eqb_S_n, ?eqb_n_S)).

Lemma put_loop_events_disciplined fuel : forall depth current n k v tr n',
  current = OnPath depth \/ current = Neighbor depth ->
  put_loop_events fuel depth current n k v = Some (tr, n') ->
  disciplined mutex_eqb 3 [current] tr = true.
Proof.
  induction fuel as [|fuel IH]; intros depth current n k v tr n' Hc H;
    [discriminate H|].
  destruct n as [|lv kc keys children]; [discriminate H|].
  cbn [put_loop_events] in H. bind_inv; injection H as <- _;
    try match goal with
    | E : put_loop_events fuel _ _ _ _ _ = Some _ |- _ =>
        apply IH in E; [|auto]
    end;
    destruct Hc as [-> | ->]; locks; auto.
Qed.

Lemma put_events_disciplined (t : @Btree KeyT ValueT) k v tr t' :
  put_events t k v = Some (tr, t') ->
  disciplined mutex_eqb 4 [] tr = true.
Proof.
  destruct t as [r|]; cbn [put_events]; intros H; bind_inv;
    injection H as <- _;
    try match goal with
    | E : put_loop_events _ _ _ _ _ _ = Some _ |- _ =>
        apply put_loop_events_disciplined in E; [|auto];
        apply (disciplined_mono mutex_eqb 3 4) in E; [|lia]
    end;
    locks; auto.
Qed.

Hypothesis STO : strict_total_order comparator.

(** X14.  The locks of [put] on a well-formed tree (capacity 3 to
    65535, root level below 65535): [put] returns; it never locks a
    mutex it holds and never unlocks one it does not hold; it returns
    with no mutex held, [global_mutex] included; and it never holds more
    than four at once ([global_mutex] and three nodes).  The tree it
    leaves is the one [put] leaves. *)
Theorem put_lock_discipline (t : @Btree KeyT ValueT) k v :
  3 <= kCapacity <= 65535 ->
  well_formed comparator kCapacity t -> root_level t < 65535 ->
  exists tr t',
    put_events t k v = Some (tr, t')
    /\ put comparator kCapacity t k v = Some t'
    /\ disciplined mutex_eqb 4 [] tr = true
    /\ hd_error tr = Some (Acquire GlobalMutex).
Proof.
  intros [Hc1 Hc2] [kvs Ht] Hlv.
  destruct (put_rep comparator kCapacity STO Hc1 Hc2 t kvs k v Ht Hlv)
    as (t' & E & _).
  pose proof (put_events_result t k v) as Hres. rewrite E in Hres.
  destruct (put_events t k v) as [[tr t'']|] eqn:Ee; [|discriminate Hres].
  cbn [option_map snd] in Hres. injection Hres as ->.
  exists tr, t'. split; [reflexivity|]. split; [exact E|].
  split; [exact (put_events_disciplined t k v tr t' Ee)|].
  clear - Ee. destruct t as [r|]; cbn [put_events] in Ee; bind_inv;
    injection Ee as <- _; reflexivity.
Qed.

End PutLocks.

(** ** The order of the locks of [put] *)

(** The mutex an operation is on. *)
Definition mutex_of (e : lock_op mutex) : mutex :=
  match e with Acquire m => m | Release m => m end.

(** The place of a mutex in the order from the top of the tree down:
    [global_mutex], the root, its right neighbour, the new root, then
    depth by depth the node on the way and its right neighbour. *)
Definition rank (m : mutex) : nat :=
  match m with
  | GlobalMutex => 0
  | OnPath O => 1
  | Neighbor O => 2
  | NewRoot => 3
  | OnPath (S d) => 2 * d + 4
  | Neighbor (S d) => 2 * d + 5
  end.

(** [top_down held tr]: started with the mutexes [held], every mutex
    that [tr] locks comes later in the order than all the mutexes held
    at that moment. *)
Fixpoint top_down (held : list mutex) (tr : list (lock_op mutex)) : Prop :=
  match tr with
  | [] => True
  | Acquire m :: tr' =>
      Forall (fun h => (rank h < rank m)%nat) held /\ top_down (m :: held) tr'
  | Release m :: tr' => top_down (release mutex_eqb m held) tr'
  end.

(** The mutexes of a root split. *)
Definition at_root (m : mutex) : bool :=
  match m with
  | OnPath O | Neighbor O | NewRoot => true
  | _ => false
  end.

Section PutLockOrder.
Context {KeyT ValueT : Type}.
Variable comparator : KeyT -> KeyT -> bool.
Variable kCapacity : Z.

Ltac order :=
  repeat (progress
    (cbn [top_down release mutex_eqb];
     rewrite ?Nat.eqb_refl, ?eqb_S_n, ?eqb_n_S));
  repeat match goal with
  | |- _ /\ _ => split
  | |- Forall _ _ => constructor
  | |- (rank _ < rank _)%nat => cbn [rank]; lia
  end.

Lemma put_loop_events_top_down fuel :
  forall depth current (n : @Node KeyT ValueT) k v tr n',
  current = OnPath depth \/ current = Neighbor depth ->
  put_loop_events comparator kCapacity fuel depth current n k v
  = Some (tr, n') ->
  top_down [current] tr.
Proof.
  induction fuel as [|fuel IH]; intros depth current n k v tr n' Hc H;
    [discriminate H|].
  destruct n as [|lv kc keys children]; [discriminate H|].
  cbn [put_loop_events] in H. bind_inv; injection H as <- _;
    try match goal with
    | E : put_loop_events _ _ fuel _ _ _ _ _ = Some _ |- _ =>
        apply IH in E; [|auto]
    end;
    destruct Hc as [-> | ->]; order; auto;
    destruct depth; cbn [rank]; lia.
Qed.

Definition below_root (e : lock_op mutex) : Prop :=
  mutex_of e <> GlobalMutex /\ mutex_of e <> NewRoot.

Lemma put_loop_events_below_root fuel :
  forall depth current (n : @Node KeyT ValueT) k v tr n',
  current = OnPath depth \/ current = Neighbor depth ->
  put_loop_events comparator kCapacity fuel depth current n k v
  = Some (tr, n') ->
  Forall below_root tr.
Proof.
  induction fuel as [|fuel IH]; intros depth current n k v tr n' Hc H;
    [discriminate H|].
  destruct n as [|lv kc keys children]; [discriminate H|].
  cbn [put_loop_events] in H. bind_inv; injection H as <- _;
    try match goal with
    | E : put_loop_events _ _ fuel _ _ _ _ _ = Some _ |- _ =>
        apply IH in E; [|auto]
    end;
    destruct Hc as [-> | ->];
    repeat (constructor; [split; discriminate|]); auto.
Qed.

Hypothesis STO : strict_total_order comparator.

(** X19.  The locks of [put] on a well-formed tree (capacity 3 to
    65535, root level below 65535) are taken from the top of the tree
    down: [global_mutex] first, and every mutex that [put] locks comes
    later in the order [global_mutex], root, right neighbour of the root,
    new root, node at depth 1, its right neighbour, node at depth 2, ...
    than every mutex it holds at that moment. *)
Theorem put_locks_top_down (t : @Btree KeyT ValueT) k v :
  3 <= kCapacity <= 65535 ->
  well_formed comparator kCapacity t -> root_level t < 65535 ->
  exists tr t',
    put_events comparator kCapacity t k v = Some (tr, t')
    /\ top_down [] tr.
Proof.
  intros [Hc1 Hc2] [kvs Ht] Hlv.
  destruct (put_rep comparator kCapacity STO Hc1 Hc2 t kvs k v Ht Hlv)
    as (t' & E & _).
  pose proof (put_events_result comparator kCapacity t k v) as Hres.
  rewrite E in Hres.
  destruct (put_events comparator kCapacity t k v) as [[tr t'']|] eqn:Ee;
    [|discriminate Hres].
  exists tr, t''. split; [reflexivity|].
  clear - Ee. destruct t as [r|]; cbn [put_events] in Ee; bind_inv;
    injection Ee as <- _;
    try match goal with
    | E : put_loop_events _ _ _ _ _ _ _ _ = Some _ |- _ =>
        apply put_loop_events_top_down in E; [|auto]
    end;
    order; auto.
Qed.

(** X20.  [global_mutex] in [put] on a well-formed tree (capacity 3 to
    65535, root level below 65535): it is locked first and unlocked once;
    while it is held, [put] touches only the mutexes of the root, of the
    right neighbour of the root and of the new root; afterwards [put]
    touches neither [global_mutex] nor the mutex of the new root.  So a
    root split is over, the new root unlocked, when [global_mutex] is
    released, and nothing below the root is locked before that. *)
Theorem put_global_mutex_scope (t : @Btree KeyT ValueT) k v :
  3 <= kCapacity <= 65535 ->
  well_formed comparator kCapacity t -> root_level t < 65535 ->
  exists tr t' pre post,
    put_events comparator kCapacity t k v = Some (tr, t')
    /\ tr = Acquire GlobalMutex :: pre ++ Release GlobalMutex :: post
    /\ Forall (fun e => at_root (mutex_of e) = true) pre
    /\ Forall below_root post.
Proof.
  intros [Hc1 Hc2] [kvs Ht] Hlv.
  destruct (put_rep comparator kCapacity STO Hc1 Hc2 t kvs k v Ht Hlv)
    as (t' & E & _).
  pose proof (put_events_result comparator kCapacity t k v) as Hres.
  rewrite E in Hres.
  destruct (put_events comparator kCapacity t k v) as [[tr t'']|] eqn:Ee;
    [|discriminate Hres].
  exists tr, t''.
  clear - Ee. destruct t as [r|]; cbn [put_events] in Ee; bind_inv;
    injection Ee as <- _;
    try match goal with
    | E : put_loop_events _ _ _ _ _ _ _ _ = Some _ |- _ =>
        apply put_loop_events_below_root in E; [|auto]
    end.
  - exists [Acquire (OnPath 0); Acquire (Neighbor 0);
            Acquire NewRoot; Release NewRoot],
           [Release (OnPath 0); Release (Neighbor 0)].
    repeat split; repeat constructor; discriminate.
  - exists [Acquire (OnPath 0); Acquire (Neighbor 0);
            Acquire NewRoot; Release NewRoot],
           [Release (Neighbor 0); Release (OnPath 0)].
    repeat split; repeat constructor; discriminate.
  - exists [Acquire (OnPath 0)], [Release (OnPath 0)].
    repeat split; repeat constructor; discriminate.
  - eexists [Acquire (OnPath 0); Acquire (Neighbor 0); Release (OnPath 0);
             Acquire NewRoot; Release NewRoot], _.
    split; [reflexivity|]. split; [reflexivity|].
    split; [repeat constructor|assumption].
  - eexists [Acquire (OnPath 0); Acquire (Neighbor 0); Release (Neighbor 0);
             Acquire NewRoot; Release NewRoot], _.
    split; [reflexivity|]. split; [reflexivity|].
    split; [repeat constructor|assumption].
  - eexists [Acquire (OnPath 0)], _.
    split; [reflexivity|]. split; [reflexivity|].
    split; [repeat constructor|assumption].
  - exists [], [].
    repeat split; repeat constructor.
Qed.

End PutLockOrder.

(** * The keys and values of the test driver

    The driver instantiates the tree as
    [Btree<byte_array, byte_array, less_bytes, 64>].  A [byte_array] is a
    pointer and a size; it is embedded as the bytes it points to, each an
    [unsigned char] in [Z]. *)

Definition byte_array : Type := list Z.

Definition size (a : byte_array) : Z := Z.of_nat (length a).

(** The loop of [less_bytes::operator()]: [steps] iterations are left,
    from index [i]; [None] when the loop ends without a [return]. *)
Fixpoint less_bytes_loop (steps : nat) (i : nat) (a b : byte_array)
  : option bool :=
  match steps with
  | O => None
  | S steps' =>
      if nth i a 0 <? nth i b 0 then Some true
      else if nth i a 0 >? nth i b 0 then Some false
      else less_bytes_loop steps' (S i) a b
  end.

(** [less_bytes::operator()] *)
Definition less_bytes (a b : byte_array) : bool :=
  let n := if size a <? size b then size a else size b in
  match less_bytes_loop (Z.to_nat n) 0 a b with
  | Some r => r
  | None => size a <? size b
  end.

Fixpoint set_nth (v : list Z) (i : nat) (x : Z) : list Z :=
  match v, i with
  | [], _ => []
  | _ :: t, O => x :: t
  | h :: t, S i' => h :: set_nth t i' x
  end.

(** The loop [for (int i = 7; i >= 0; i--) v[7 - i] = (x >> (i * 8)) & 0xFF]
    of [encode_u64_be], with [steps] iterations left. *)
Fixpoint encode_loop (steps : nat) (i : Z) (x : Z) (v : list Z) : list Z :=
  match steps with
  | O => v
  | S steps' =>
      encode_loop steps' (i - 1) x
        (set_nth v (Z.to_nat (7 - i)) (Z.land (Z.shiftr x (i * 8)) 255))
  end.

(** [encode_u64_be]; [x] is a [uint64_t]. *)
Definition encode_u64_be (x : Z) : list Z :=
  encode_loop 8 7 x (repeat 0 8).

(** The loop of [bytes_equal]. *)
Fixpoint bytes_equal_loop (steps : nat) (i : nat) (a b : byte_array) : bool :=
  match steps with
  | O => true
  | S steps' =>
      if negb (nth i a 0 =? nth i b 0) then false
      else bytes_equal_loop steps' (S i) a b
  end.

(** [bytes_equal] *)
Definition bytes_equal (a b : byte_array) : bool :=
  if negb (size a =? size b) then false
  else bytes_equal_loop (length a) 0 a b.

(** ** [less_bytes] is the lexicographic order *)

Lemma less_bytes_loop_cons steps : forall i x a y b,
  less_bytes_loop steps (S i) (x :: a) (y :: b) = less_bytes_loop steps i a b.
Proof.
  induction steps as [|steps IH]; intros i x a y b; [reflexivity|].
  cbn [less_bytes_loop nth]. now rewrite IH.
Qed.

Lemma less_bytes_nil_l b :
  less_bytes [] b = match b with [] => false | _ :: _ => true end.
Proof. destruct b; reflexivity. Qed.

Lemma less_bytes_nil_r a : less_bytes a [] = false.
Proof.
  unfold less_bytes, size. cbn [length].
  destruct (Z.ltb_spec (Z.of_nat (length a)) (Z.of_nat 0)); [lia|].
  reflexivity.
Qed.

Lemma less_bytes_cons x a y b :
  less_bytes (x :: a) (y :: b)
  = if x <? y then true else if x >? y then false else less_bytes a b.
Proof.
  unfold less_bytes, size. cbn [length].
  assert (E : (Z.of_nat (S (length a)) <? Z.of_nat (S (length b)))
              = (Z.of_nat (length a) <? Z.of_nat (length b))).
  { destruct (Z.ltb_spec (Z.of_nat (length a)) (Z.of_nat (length b)));
      [apply Z.ltb_lt|apply Z.ltb_ge]; lia. }
  rewrite E.
  assert (En : Z.to_nat (if Z.of_nat (length a) <? Z.of_nat (length b)
                         then Z.of_nat (S (length a))
                         else Z.of_nat (S (length b)))
               = S (Z.to_nat (if Z.of_nat (length a) <? Z.of_nat (length b)
                              then Z.of_nat (length a)
                              else Z.of_nat (length b)))).
  { destruct (Z.of_nat (length a) <? Z.of_nat (length b)); lia. }
  rewrite En. cbn [less_bytes_loop nth].
  destruct (x <? y); [reflexivity|].
  destruct (x >? y); [reflexivity|].
  now rewrite less_bytes_loop_cons.
Qed.

(** X15.  [less_bytes] is a strict total order on byte arrays taken by
    their contents: irreflexive, transitive, and two arrays of which
    neither is less than the other hold the same bytes.  It is what the
    tree asks of its comparator. *)
Theorem less_bytes_strict_total_order : strict_total_order less_bytes.
Proof.
  constructor.
  - intros a. induction a as [|x a IH]; [reflexivity|].
    rewrite less_bytes_cons, Z.ltb_irrefl.
    destruct (Z.gtb_spec x x); [lia|exact IH].
  - intros a. induction a as [|x a IH]; intros b c Hab Hbc.
    + destruct c; [|reflexivity].
      now rewrite less_bytes_nil_r in Hbc.
    + destruct b as [|y b]; [now rewrite less_bytes_nil_r in Hab|].
      destruct c as [|z c]; [now rewrite less_bytes_nil_r in Hbc|].
      rewrite less_bytes_cons in *.
      destruct (Z.ltb_spec x y), (Z.ltb_spec y z), (Z.ltb_spec x z);
        try reflexivity; try lia;
        destruct (Z.gtb_spec x y), (Z.gtb_spec y z), (Z.gtb_spec x z);
        try discriminate; try lia.
      eapply IH; eauto.
  - intros a. induction a as [|x a IH]; intros b Hab Hba.
    + destruct b; [reflexivity|discriminate Hab].
    + destruct b as [|y b]; [discriminate Hba|].
      rewrite less_bytes_cons in *.
      destruct (Z.ltb_spec x y), (Z.ltb_spec y x);
        try discriminate; try lia.
      destruct (Z.gtb_spec x y), (Z.gtb_spec y x);
        try discriminate; try lia.
      f_equal; [lia|]. now apply IH.
Qed.

(** ** [bytes_equal] *)

Lemma bytes_equal_loop_cons steps : forall i x a y b,
  bytes_equal_loop steps (S i) (x :: a) (y :: b) = bytes_equal_loop steps i a b.
Proof.
  induction steps as [|steps IH]; intros i x a y b; [reflexivity|].
  cbn [bytes_equal_loop nth]. now rewrite IH.
Qed.

Lemma bytes_equal_cons x a y b :
  bytes_equal (x :: a) (y :: b) = (x =? y) && bytes_equal a b.
Proof.
  unfold bytes_equal, size. cbn [length].
  assert (E : (Z.of_nat (S (length a)) =? Z.of_nat (S (length b)))
              = (Z.of_nat (length a) =? Z.of_nat (length b))).
  { destruct (Z.eqb_spec (Z.of_nat (length a)) (Z.of_nat (length b)));
      [apply Z.eqb_eq|apply Z.eqb_neq]; lia. }
  rewrite E. cbn [bytes_equal_loop nth]. rewrite bytes_equal_loop_cons.
  destruct (Z.of_nat (length a) =? Z.of_nat (length b)), (x =? y);
    reflexivity.
Qed.

(** X16.  [bytes_equal] holds exactly of two arrays with the same
    contents, and these are the arrays of which [less_bytes] puts neither
    before the other: the equality the driver checks is the one the tree
    uses for its keys. *)
Theorem bytes_equal_same_contents (a b : byte_array) :
  (bytes_equal a b = true <-> a = b)
  /\ bytes_equal a b = negb (less_bytes a b) && negb (less_bytes b a).
Proof.
  revert b. induction a as [|x a IH]; intros [|y b].
  - split; [split|]; reflexivity.
  - split; [split; discriminate|reflexivity].
  - split; [split; discriminate|].
    now rewrite less_bytes_nil_r.
  - rewrite bytes_equal_cons, !less_bytes_cons.
    destruct (IH b) as [Hiff Hlt]. split.
    + split.
      * intros H. apply andb_prop in H as [H1 H2].
        apply Z.eqb_eq in H1. apply Hiff in H2. congruence.
      * intros H. injection H as -> ->.
        rewrite Z.eqb_refl. now apply Hiff.
    + rewrite Hlt.
      destruct (Z.eqb_spec x y), (Z.ltb_spec x y), (Z.ltb_spec y x),
        (Z.gtb_spec x y), (Z.gtb_spec y x); try lia; reflexivity.
Qed.

(** ** [encode_u64_be] *)

(** The number a byte array spells, most significant byte first. *)
Fixpoint be_value (a : byte_array) : Z :=
  match a with
  | [] => 0
  | x :: t => x * 256 ^ Z.of_nat (length t) + be_value t
  end.

Definition is_bytes (a : byte_array) : Prop :=
  Forall (fun x => 0 <= x < 256) a.

Lemma be_value_bound a : is_bytes a -> 0 <= be_value a < 256 ^ Z.of_nat (length a).
Proof.
  induction 1 as [|x t Hx _ IH]; cbn [be_value length]; [lia|].
  rewrite Nat2Z.inj_succ, Z.pow_succ_r by lia.
  assert (0 < 256 ^ Z.of_nat (length t)) by (apply Z.pow_pos_nonneg; lia).
  nia.
Qed.

Lemma less_bytes_be_value a : forall b,
  is_bytes a -> is_bytes b -> length a = length b ->
  less_bytes a b = (be_value a <? be_value b).
Proof.
  induction a as [|x a IH]; intros [|y b] Ha Hb Hl; try discriminate Hl.
  - reflexivity.
  - inversion Ha as [|? ? Hx Ha']; inversion Hb as [|? ? Hy Hb']; subst.
    injection Hl as Hl.
    rewrite less_bytes_cons, (IH b Ha' Hb' Hl). cbn [be_value].
    pose proof (be_value_bound a Ha'). pose proof (be_value_bound b Hb').
    rewrite Hl in *.
    assert (0 < 256 ^ Z.of_nat (length b)) by (apply Z.pow_pos_nonneg; lia).
    destruct (Z.ltb_spec x y).
    + symmetry. apply Z.ltb_lt. nia.
    + destruct (Z.gtb_spec x y).
      * symmetry. apply Z.ltb_ge. nia.
      * assert (x = y) as -> by lia.
        destruct (Z.ltb_spec (be_value a) (be_value b));
          symmetry; [apply Z.ltb_lt|apply Z.ltb_ge]; lia.
Qed.

Lemma encode_u64_be_bytes x :
  encode_u64_be x
  = map (fun i => Z.land (Z.shiftr x (i * 8)) 255) [7; 6; 5; 4; 3; 2; 1; 0].
Proof. reflexivity. Qed.

Lemma byte_of x i : 0 <= i ->
  Z.land (Z.shiftr x (i * 8)) 255 = (x / 2 ^ (i * 8)) mod 256.
Proof.
  intros Hi. rewrite Z.shiftr_div_pow2 by lia.
  change 255 with (Z.ones 8). now rewrite Z.land_ones by lia.
Qed.

Lemma encode_u64_be_is_bytes x : is_bytes (encode_u64_be x).
Proof.
  rewrite encode_u64_be_bytes. apply Forall_map, Forall_forall.
  intros i Hi. cbn [In] in Hi.
  assert (0 <= i) by (repeat (destruct Hi as [<-|Hi]; [lia|]); destruct Hi).
  rewrite byte_of by assumption. apply Z.mod_pos_bound. lia.
Qed.

Lemma be_value_encode x :
  0 <= x < 2 ^ 64 -> be_value (encode_u64_be x) = x.
Proof.
  intros Hx. rewrite encode_u64_be_bytes. cbn [map be_value length].
  rewrite !byte_of by lia.
  cbn [Z.of_nat Pos.of_succ_nat Pos.succ Z.mul Pos.mul Pos.add].
  change (2 ^ 64) with 18446744073709551616 in Hx.
  change (2 ^ 56) with 72057594037927936.
  change (2 ^ 48) with 281474976710656.
  change (2 ^ 40) with 1099511627776.
  change (2 ^ 32) with 4294967296.
  change (2 ^ 24) with 16777216.
  change (2 ^ 16) with 65536.
  change (2 ^ 8) with 256.
  change (2 ^ 0) with 1.
  change (256 ^ 7) with 72057594037927936.
  change (256 ^ 6) with 281474976710656.
  change (256 ^ 5) with 1099511627776.
  change (256 ^ 4) with 4294967296.
  change (256 ^ 3) with 16777216.
  change (256 ^ 2) with 65536.
  change (256 ^ 1) with 256.
  change (256 ^ 0) with 1.
  Z.to_euclidean_division_equations. lia.
Qed.

Lemma encode_u64_be_injective (x y : Z) :
  0 <= x < 2 ^ 64 -> 0 <= y < 2 ^ 64 ->
  encode_u64_be x = encode_u64_be y -> x = y.
Proof.
  intros Hx Hy E.
  rewrite <- (be_value_encode x Hx), <- (be_value_encode y Hy).
  now rewrite E.
Qed.

(** X17.  [encode_u64_be] of a 64-bit number is 8 bytes, most
    significant first, so that [less_bytes] orders the encodings as [<]
    orders the numbers and [bytes_equal] holds of the encodings of equal
    numbers only: different numbers have different encodings. *)
Theorem encode_u64_be_order (x y : Z) :
  0 <= x < 2 ^ 64 -> 0 <= y < 2 ^ 64 ->
  length (encode_u64_be x) = 8%nat
  /\ is_bytes (encode_u64_be x)
  /\ less_bytes (encode_u64_be x) (encode_u64_be y) = (x <? y)
  /\ bytes_equal (encode_u64_be x) (encode_u64_be y) = (x =? y)
  /\ (encode_u64_be x = encode_u64_be y -> x = y).
Proof.
  intros Hx Hy.
  assert (Hlt : forall a b, 0 <= a < 2 ^ 64 -> 0 <= b < 2 ^ 64 ->
            less_bytes (encode_u64_be a) (encode_u64_be b) = (a <? b)).
  { intros a b Ha Hb.
    rewrite less_bytes_be_value
      by (try apply encode_u64_be_is_bytes; reflexivity).
    now rewrite !be_value_encode. }
  split; [reflexivity|]. split; [apply encode_u64_be_is_bytes|].
  split; [now apply Hlt|]. split.
  - rewrite (proj2 (bytes_equal_same_contents _ _)), !Hlt by assumption.
    destruct (Z.eqb_spec x y), (Z.ltb_spec x y), (Z.ltb_spec y x);
      try lia; reflexivity.
  - now apply encode_u64_be_injective.
Qed.

(** ** The tree of the driver *)

(** The entries the driver puts: key [i] with value [2 * i], both
    encoded. *)
Definition driver_entries (ns : list Z) : list (byte_array * byte_array) :=
  map (fun i => (encode_u64_be i, encode_u64_be (2 * i))) ns.

Lemma last_put_driver ns : forall k v,
  last_put less_bytes k (driver_entries ns) = Some v ->
  exists j, In j ns /\ k = encode_u64_be j /\ v = encode_u64_be (2 * j).
Proof.
  induction ns as [|n ns IH]; intros k v; cbn [driver_entries map last_put];
    [discriminate|].
  fold (driver_entries ns).
  destruct (last_put less_bytes k (driver_entries ns)) as [v'|] eqn:E.
  - intros H. injection H as <-.
    destruct (IH k v' E) as (j & Hj & Hk & Hv). exists j. cbn [In]. auto.
  - destruct (keq less_bytes (encode_u64_be n) k) eqn:Eq; [|discriminate].
    intros H. injection H as <-.
    apply (keq_eq less_bytes less_bytes_strict_total_order) in Eq.
    exists n. cbn [In]. auto.
Qed.

Lemma last_put_driver_some ns i :
  In i ns -> last_put less_bytes (encode_u64_be i) (driver_entries ns) <> None.
Proof.
  induction ns as [|n ns IH]; cbn [In driver_entries map last_put]; [tauto|].
  fold (driver_entries ns). intros [->|Hin].
  - destruct (last_put less_bytes (encode_u64_be i) (driver_entries ns));
      [discriminate|].
    rewrite (proj2 (keq_eq less_bytes less_bytes_strict_total_order _ _) eq_refl).
    discriminate.
  - specialize (IH Hin).
    destruct (last_put less_bytes (encode_u64_be i) (driver_entries ns));
      [discriminate|contradiction].
Qed.

(** X18.  The tree of the driver, [Btree<byte_array, byte_array,
    less_bytes, 64>], used by one thread: after [put] of the encoded key
    [i] with the encoded value [2 * i] for the numbers of a list (below
    2^63, at most 65535 of them, in any order, repeats allowed), [get] of
    the encoded key of each number returns a value, and [bytes_equal]
    holds of it and the encoding of twice the number. *)
Theorem driver_round_trip (ns : list Z) :
  Forall (fun i => 0 <= i < 2 ^ 63) ns ->
  Z.of_nat (length ns) <= 65535 ->
  exists t,
    put_all less_bytes 64 new_Btree (driver_entries ns) = Some t
    /\ forall i, In i ns ->
         exists res,
           get less_bytes t (encode_u64_be i) = Some (Some res)
           /\ bytes_equal res (encode_u64_be (2 * i)) = true.
Proof.
  intros Hns Hlen.
  destruct (run_rep less_bytes 64 less_bytes_strict_total_order
              ltac:(lia) ltac:(lia) (map put_op (driver_entries ns))
              new_Btree [])
    as (t & E & Ht & _);
    [reflexivity
    |unfold driver_entries; rewrite !length_map; simpl; lia|].
  exists t. rewrite put_all_run. split; [exact E|].
  intros i Hi.
  rewrite (get_rep less_bytes 64 less_bytes_strict_total_order t _ _ Ht).
  rewrite (lookup_puts less_bytes less_bytes_strict_total_order).
  pose proof (last_put_driver_some ns i Hi) as Hsome.
  destruct (last_put less_bytes (encode_u64_be i) (driver_entries ns))
    as [v|] eqn:El; [|contradiction].
  exists v. split; [reflexivity|].
  destruct (last_put_driver ns _ _ El) as (j & Hj & Hk & ->).
  rewrite Forall_forall in Hns.
  pose proof (Hns i Hi) as Bi. pose proof (Hns j Hj) as Bj.
  assert (i = j) as ->.
  { apply (encode_u64_be_injective i j); try lia. exact Hk. }
  now apply bytes_equal_same_contents.
Qed.

(** * Instances on integer keys, capacity 3 *)

Lemma leaf_lower_bound_first_not_less_witness :
  exists i found,
    leaf_lower_bound Z.ltb (Z.of_nat (length [1; 3; 5]))
                     (arr [1; 3; 5] [None]) 4
    = Some (Z.of_nat i, found)
    /\ (i <= length [1; 3; 5])%nat
    /\ (forall j x, (j < i)%nat -> nth_error [1; 3; 5] j = Some x ->
          Z.ltb x 4 = true)
    /\ (forall j x, (i <= j)%nat -> nth_error [1; 3; 5] j = Some x ->
          Z.ltb x 4 = false)
    /\ (found = true <-> In 4 [1; 3; 5]).
Proof.
  apply (leaf_lower_bound_first_not_less Z.ltb Zltb_strict_total_order
           [1; 3; 5] [None] 4).
  repeat constructor.
Defined.

Lemma inner_lower_bound_child_index_witness :
  (exists i found,
    inner_lower_bound Z.ltb (Z.of_nat (length [1; 3; 5]) + 1)
                      (arr [1; 3; 5] [None]) 3
    = Some (Z.of_nat i, found)
    /\ (i <= length [1; 3; 5])%nat
    /\ (forall j x, (j < i)%nat -> nth_error [1; 3; 5] j = Some x ->
          Z.ltb x 3 = true)
    /\ (forall j x, (i <= j)%nat -> nth_error [1; 3; 5] j = Some x ->
          Z.ltb x 3 = false)
    /\ (found = true <-> (i < length [1; 3; 5])%nat))
  /\ (forall keys, inner_lower_bound Z.ltb 1 keys 3 = Some (0, false)).
Proof.
  apply (inner_lower_bound_child_index Z.ltb Zltb_strict_total_order
           [1; 3; 5] [None] 3).
  repeat constructor.
Defined.

(** A leaf with two entries and a leaf that is full. *)
Definition leaf_1_3 : @Node Z Z :=
  Leaf 0 2 [Some 1; Some 3; None] [Some 10; Some 30; None].

Definition leaf_1_3_5 : @Node Z Z :=
  Leaf 0 3 [Some 1; Some 3; Some 5] [Some 10; Some 30; Some 50].

Lemma leaf_insert_upserts_witness :
  exists n', leaf_insert Z.ltb leaf_1_3 2 20 = Some n'
    /\ leaf_shape 3 n' 0 (entries n')
    /\ entries n' = upsert Z.ltb 2 20 (entries leaf_1_3)
    /\ sorted Z.ltb (map fst (entries n'))
    /\ lookup Z.ltb 2 (entries n') = Some 20
    /\ (forall k', k' <> 2 ->
          lookup Z.ltb k' (entries n') = lookup Z.ltb k' (entries leaf_1_3))
    /\ (In 2 (map fst [(1, 10); (3, 30)]) -> key_count n' = key_count leaf_1_3)
    /\ (~ In 2 (map fst [(1, 10); (3, 30)]) ->
          key_count n' = key_count leaf_1_3 + 1)
    /\ level n' = level leaf_1_3.
Proof.
  apply (leaf_insert_upserts Z.ltb 3 Zltb_strict_total_order
           leaf_1_3 0 [(1, 10); (3, 30)] 2 20).
  - lia.
  - exists [None], [None]. repeat split.
  - repeat constructor.
  - simpl. lia.
Defined.

Lemma leaf_insert_full_leaf_witness :
  (In 4 (map fst [(1, 10); (3, 30); (5, 50)]) ->
     exists n', leaf_insert Z.ltb leaf_1_3_5 4 40 = Some n'
       /\ key_count n' = key_count leaf_1_3_5
       /\ map fst (entries n') = map fst (entries leaf_1_3_5)
       /\ lookup Z.ltb 4 (entries n') = Some 40)
  /\ (~ In 4 (map fst [(1, 10); (3, 30); (5, 50)]) ->
        leaf_insert Z.ltb leaf_1_3_5 4 40 = None).
Proof.
  apply (leaf_insert_full_leaf Z.ltb 3 Zltb_strict_total_order
           leaf_1_3_5 0 [(1, 10); (3, 30); (5, 50)] 4 40).
  - exists [], []. repeat split.
  - repeat constructor.
  - reflexivity.
Defined.

Lemma leaf_split_partitions_witness :
  exists l r sep,
    leaf_split leaf_1_3_5 (new_LeafNode 3) = Some (l, r, sep)
    /\ entries l ++ entries r = entries leaf_1_3_5
    /\ key_count l = Z.of_nat (length [(1, 10); (3, 30); (5, 50)] / 2) + 1
    /\ key_count l + key_count r = key_count leaf_1_3_5
    /\ level l = level leaf_1_3_5 /\ level r = 0
    /\ leaf_shape 3 l 0 (entries l)
    /\ leaf_shape 3 r 0 (entries r)
    /\ (sorted Z.ltb (map fst [(1, 10); (3, 30); (5, 50)]) ->
          Forall (fun x => Z.ltb sep x = false) (map fst (entries l))
          /\ Forall (fun x => Z.ltb sep x = true) (map fst (entries r))).
Proof.
  apply (leaf_split_partitions Z.ltb 3 Zltb_strict_total_order
           leaf_1_3_5 0 [(1, 10); (3, 30); (5, 50)]).
  - lia.
  - exists [], []. repeat split.
  - simpl. lia.
Defined.

(** An inner node with two children and one that is full. *)
Definition leaf_4_6 : @Node Z Z :=
  Leaf 0 2 [Some 4; Some 6; None] [Some 40; Some 60; None].

Definition leaf_7_9 : @Node Z Z :=
  Leaf 0 2 [Some 7; Some 9; None] [Some 70; Some 90; None].

Definition inner_2 : @Node Z Z :=
  Inner 1 2 [Some 3; None; None] [Some leaf_1_3; Some leaf_4_6; None].

Definition inner_3 : @Node Z Z :=
  Inner 1 3 [Some 3; Some 6; None]
        [Some leaf_1_3; Some leaf_4_6; Some leaf_7_9].

Lemma inner_split_partitions_witness :
  exists l r sep seps_l seps_r,
    inner_split inner_3 (new_InnerNode 3) = Some (l, r, sep)
    /\ [3; 6] = seps_l ++ sep :: seps_r
    /\ children_of l ++ children_of r = children_of inner_3
    /\ inner_shape 3 l 1 seps_l (children_of l)
    /\ inner_shape 3 r 1 seps_r (children_of r)
    /\ key_count l
       = Z.of_nat ((length [leaf_1_3; leaf_4_6; leaf_7_9] - 1) / 2) + 1
    /\ key_count l + key_count r = key_count inner_3
    /\ 1 <= key_count l /\ 1 <= key_count r.
Proof.
  apply (inner_split_partitions 3 inner_3 1 [3; 6]
           [leaf_1_3; leaf_4_6; leaf_7_9]).
  - lia.
  - exists [None], []. repeat split.
  - simpl. lia.
Defined.

Lemma insert_split_inserts_witness :
  exists n' i,
    insert_split Z.ltb inner_2 6 leaf_7_9 = Some n'
    /\ (i <= length [3])%nat
    /\ Forall (fun x => Z.ltb x 6 = true) (firstn i [3])
    /\ Forall (fun x => Z.ltb x 6 = false) (skipn i [3])
    /\ inner_shape 3 n' 1 (firstn i [3] ++ 6 :: skipn i [3]) (children_of n')
    /\ children_of n'
       = firstn (S i) (children_of inner_2)
         ++ leaf_7_9 :: skipn (S i) (children_of inner_2)
    /\ key_count n' = key_count inner_2 + 1
    /\ level n' = level inner_2
    /\ (~ In 6 [3] -> sorted Z.ltb (firstn i [3] ++ 6 :: skipn i [3])).
Proof.
  apply (insert_split_inserts Z.ltb 3 Zltb_strict_total_order
           inner_2 1 [3] [leaf_1_3; leaf_4_6] 6 leaf_7_9).
  - lia.
  - exists [None; None], [None]. repeat split.
  - repeat constructor.
  - simpl. lia.
Defined.

Lemma insert_split_overruns_witness :
  insert_split Z.ltb inner_3 9 leaf_7_9 = None
  /\ insert_split Z.ltb (new_InnerNode 3) 9 leaf_7_9 = None.
Proof.
  apply (insert_split_overruns Z.ltb 3 Zltb_strict_total_order
           inner_3 1 [3; 6] [leaf_1_3; leaf_4_6; leaf_7_9] 9 leaf_7_9).
  - exists [None], []. repeat split.
  - repeat constructor.
  - reflexivity.
Defined.

(** The root of [example_tree] and the tree after one more [put]. *)
Definition example_root : @Node Z Z :=
  Eval vm_compute in
    match example_tree with
    | Some r => r
    | None => new_LeafNode 3
    end.

Definition example_tree_8 : @Btree Z Z :=
  Eval vm_compute in
    match put Z.ltb 3 example_tree 8 80 with
    | Some t => t
    | None => None
    end.

Lemma put_then_get_witness :
  exists t', put Z.ltb 3 example_tree 8 80 = Some t'
    /\ well_formed Z.ltb 3 t'
    /\ get Z.ltb t' 8 = Some (Some 80)
    /\ forall k', k' <> 8 -> get Z.ltb t' k' = get Z.ltb example_tree k'.
Proof.
  apply (put_then_get Z.ltb 3 Zltb_strict_total_order example_tree 8 80).
  - lia.
  - exact example_tree_well_formed.
  - vm_compute. reflexivity.
Defined.

Lemma entries_after_run_witness :
  exists t, run Z.ltb 3 new_Btree example_ops = Some t
    /\ sorted Z.ltb (map fst (tree_entries t))
    /\ (forall k, In k (map fst (tree_entries t))
                  <-> exists v, In (Put k v) example_ops)
    /\ (forall k v, In (k, v) (tree_entries t)
                    <-> get Z.ltb t k = Some (Some v)).
Proof.
  apply (entries_after_run Z.ltb 3 Zltb_strict_total_order example_ops).
  - lia.
  - simpl. lia.
Defined.

Lemma put_grows_at_root_witness :
  exists r', example_tree_8 = Some r'
    /\ match example_tree with
       | None => level r' = 0 /\ key_count r' = 1 /\ entries r' = [(8, 80)]
       | Some r =>
           if 3 <=? key_count r
           then level r' = u16 (level r + 1) /\ key_count r' = 2
           else level r' = level r
       end.
Proof.
  apply (put_grows_at_root Z.ltb 3 example_tree 8 80 example_tree_8).
  vm_compute. reflexivity.
Defined.

(** The same [put]s in two orders. *)
Definition puts_one_way : list (Z * Z) :=
  [(1, 10); (2, 20); (3, 30); (2, 21)].

Definition puts_other_way : list (Z * Z) :=
  [(3, 30); (2, 20); (2, 21); (1, 10)].

Lemma entries_depend_on_last_puts_witness :
  exists t1 t2,
    put_all Z.ltb 3 new_Btree puts_one_way = Some t1
    /\ put_all Z.ltb 3 new_Btree puts_other_way = Some t2
    /\ tree_entries t1 = tree_entries t2.
Proof.
  apply (entries_depend_on_last_puts Z.ltb 3 Zltb_strict_total_order
           puts_one_way puts_other_way).
  - lia.
  - simpl. lia.
  - simpl. lia.
  - intros k. cbn [last_put puts_one_way puts_other_way]. unfold keq.
    destruct (Z.ltb_spec 1 k), (Z.ltb_spec k 1), (Z.ltb_spec 2 k),
      (Z.ltb_spec k 2), (Z.ltb_spec 3 k), (Z.ltb_spec k 3);
      try lia; reflexivity.
Defined.

Lemma get_lock_coupling_witness :
  exists tr res,
    get_events Z.ltb example_tree 5 = Some (tr, res)
    /\ get Z.ltb example_tree 5 = Some res
    /\ tr = LockRead (level example_root)
              :: coupling (Z.to_nat (level example_root))
    /\ disciplined Z.eqb 2 [] (map read_op tr) = true.
Proof.
  apply (get_lock_coupling Z.ltb 3 Zltb_strict_total_order
           example_tree example_root 5).
  - exact example_tree_well_formed.
  - reflexivity.
Defined.

Lemma put_lock_discipline_witness :
  exists tr t',
    put_events Z.ltb 3 example_tree 8 80 = Some (tr, t')
    /\ put Z.ltb 3 example_tree 8 80 = Some t'
    /\ disciplined mutex_eqb 4 [] tr = true
    /\ hd_error tr = Some (Acquire GlobalMutex).
Proof.
  apply (put_lock_discipline Z.ltb 3 Zltb_strict_total_order
           example_tree 8 80).
  - lia.
  - exact example_tree_well_formed.
  - vm_compute. reflexivity.
Defined.

Lemma encode_u64_be_order_witness :
  length (encode_u64_be 255) = 8%nat
  /\ is_bytes (encode_u64_be 255)
  /\ less_bytes (encode_u64_be 255) (encode_u64_be 256) = (255 <? 256)
  /\ bytes_equal (encode_u64_be 255) (encode_u64_be 256) = (255 =? 256)
  /\ (encode_u64_be 255 = encode_u64_be 256 -> 255 = 256).
Proof.
  apply (encode_u64_be_order 255 256); lia.
Defined.

Lemma driver_round_trip_witness :
  exists t,
    put_all less_bytes 64 new_Btree (driver_entries [3; 1; 2; 1]) = Some t
    /\ forall i, In i [3; 1; 2; 1] ->
         exists res,
           get less_bytes t (encode_u64_be i) = Some (Some res)
           /\ bytes_equal res (encode_u64_be (2 * i)) = true.
Proof.
  apply (driver_round_trip [3; 1; 2; 1]).
  - repeat constructor; lia.
  - simpl. lia.
Defined.

Lemma put_locks_top_down_witness :
  exists tr t',
    put_events Z.ltb 3 example_tree 8 80 = Some (tr, t') /\ top_down [] tr.
Proof.
  apply (put_locks_top_down Z.ltb 3 Zltb_strict_total_order
           example_tree 8 80).
  - lia.
  - exact example_tree_well_formed.
  - vm_compute. reflexivity.
Defined.

Lemma put_global_mutex_scope_witness :
  exists tr t' pre post,
    put_events Z.ltb 3 example_tree 8 80 = Some (tr, t')
    /\ tr = Acquire GlobalMutex :: pre ++ Release GlobalMutex :: post
    /\ Forall (fun e => at_root (mutex_of e) = true) pre
    /\ Forall below_root post.
Proof.
  apply (put_global_mutex_scope Z.ltb 3 Zltb_strict_total_order
           example_tree 8 80).
  - lia.
  - exact example_tree_well_formed.
  - vm_compute. reflexivity.
Defined.

Lemma keys_between_separators_witness :
  exists t, run Z.ltb 3 new_Btree example_ops = Some t
    /\ forall r m, t = Some r -> in_tree m r ->
       forall i c k,
         nth_error (children_of m) i = Some c ->
         In k (map fst (entries c)) ->
         (forall s, nth_error (separators m) i = Some s -> Z.ltb s k = false)
         /\ (forall j s, i = S j -> nth_error (separators m) j = Some s ->
                         Z.ltb s k = true).
Proof.
  apply (keys_between_separators Z.ltb 3 Zltb_strict_total_order example_ops).
  - lia.
  - simpl. lia.
Defined.

Lemma separators_are_last_keys_witness :
  exists t, run Z.ltb 3 new_Btree example_ops = Some t
    /\ forall r m, t = Some r -> in_tree m r ->
       (is_LeafNode m = true -> 1 <= key_count m)
       /\ (forall i s c,
             nth_error (separators m) i = Some s ->
             nth_error (children_of m) i = Some c ->
             last_key (entries c) = Some s
             /\ In s (map fst (tree_entries t))).
Proof.
  apply (separators_are_last_keys Z.ltb 3 Zltb_strict_total_order).
  - lia.
  - lia.
  - simpl. lia.
Defined.
